(** * filter_scenarios.py: indentation parser and cross-environment matching

    A shallow embedding of the pure core of [filter_scenarios.py]:
    - [parse_block_ids_from_text] (the indentation-stack parser),
    - [search_blocks], [search_blocks_by_id], [validate_block_ids]
      (look-ups over one snapshot),
    - [find_matching_blocks_in_other_envs], [search_blocks_multi_env],
      [search_by_block_id_multi_env] (look-ups over all environments),
    - the decision rule of the search mode of [main] and the grouping of
      [display_search_results_multi_env].

    Modelling conventions.
    - A Python [str] is a list of Unicode code points ([list N]).
    - A Python [list] is a Rocq list in the same order; the path stack
      grows at its END, as [append]/[pop] do.
    - A Python [dict] is an association list in insertion order with
      unique keys; [dict_set] overwrites in place, as assignment to an
      existing key does.
    - A snapshot is the list of scenario objects of one environment.
      Every scenario carries [id], [name] and [items], every item carries
      [id] and [name]; the defaults of [.get] are therefore never taken
      and a field access stands for each [.get].
    - [None] results are [option]; a [KeyError] is the [None] of an
      outer [option].
    - [str.lower] is a parameter of the name search. *)

From Stdlib Require Import String Ascii.
From Stdlib Require Import List NArith Arith Bool Lia Sorted.
Import ListNotations.

Set Implicit Arguments.

(** ** Python strings *)

Definition char := N.
Definition str := list char.

(** A literal: the code points of an ASCII string. *)
Definition str_of (s : string) : str :=
  map N_of_ascii (list_ascii_of_string s).

(** [a == b] on strings. *)
Fixpoint str_eqb (a b : str) : bool :=
  match a, b with
  | [], [] => true
  | x :: a', y :: b' => N.eqb x y && str_eqb a' b'
  | _, _ => false
  end.

(** [sep.join(parts)] *)
Fixpoint join (sep : str) (parts : list str) : str :=
  match parts with
  | [] => []
  | [p] => p
  | p :: rest => p ++ sep ++ join sep rest
  end.

(** [a < b] on strings: lexicographic on code points. *)
Fixpoint str_ltb (a b : str) : bool :=
  match a, b with
  | _, [] => false
  | [], _ :: _ => true
  | x :: a', y :: b' => N.ltb x y || (N.eqb x y && str_ltb a' b')
  end.

(** [s.startswith(p)] *)
Fixpoint startswith (p s : str) : bool :=
  match p, s with
  | [], _ => true
  | x :: p', y :: s' => N.eqb x y && startswith p' s'
  | _ :: _, [] => false
  end.

(** [p in s]: [p] occurs as a contiguous substring of [s]. *)
Fixpoint contains (p s : str) : bool :=
  startswith p s ||
  match s with
  | [] => false
  | _ :: s' => contains p s'
  end.

(** [s.lower()] for a string of ASCII characters: the capitals move by
    32.  The searches below take [str.lower] itself as a parameter; this
    is its restriction to ASCII, used to run them on sample inputs. *)
Definition ascii_lower (s : str) : str :=
  map (fun c => if ((65 <=? c) && (c <=? 90))%N then (c + 32)%N else c) s.

(** ** Character classes used by [strip] and by the two patterns *)

(** [str.isspace] on one code point, which is also what [\s] matches in a
    [str] pattern. *)
Definition is_space (c : char) : bool :=
  (((9 <=? c) && (c <=? 13)) || ((28 <=? c) && (c <=? 32))
   || (c =? 133) || (c =? 160) || (c =? 5760)
   || ((8192 <=? c) && (c <=? 8202))
   || (c =? 8232) || (c =? 8233) || (c =? 8239) || (c =? 8287)
   || (c =? 12288))%N.

Definition is_alpha (c : char) : bool :=
  (((65 <=? c) && (c <=? 90)) || ((97 <=? c) && (c <=? 122)))%N.

Definition is_digit (c : char) : bool := ((48 <=? c) && (c <=? 57))%N.

Definition underscore : char := 95%N.
Definition colon : char := 58%N.
Definition hash : char := 35%N.
Definition newline : char := 10%N.
Definition dot : char := 46%N.

(** [[a-zA-Z_]] and [[a-zA-Z0-9_]] *)
Definition key_start (c : char) : bool := is_alpha c || (c =? underscore)%N.
Definition key_char (c : char) : bool := key_start c || is_digit c.

(** Under [re.IGNORECASE] a [str] pattern's [[a-z]] and [[A-Z]] also match
    U+0130, U+0131, U+017F and U+212A (see the documentation of [re]). *)
Definition ignorecase_extra (c : char) : bool :=
  ((c =? 304) || (c =? 305) || (c =? 383) || (c =? 8490))%N.

Definition key_start_i (c : char) : bool := key_start c || ignorecase_extra c.
Definition key_char_i (c : char) : bool := key_char c || ignorecase_extra c.

(** [[a-f0-9]] under [re.IGNORECASE] *)
Definition is_hex (c : char) : bool :=
  (is_digit c || ((97 <=? c) && (c <=? 102)) || ((65 <=? c) && (c <=? 70)))%N.

(** ** Scanning helpers *)

Fixpoint take_while (p : char -> bool) (s : str) : str :=
  match s with
  | c :: s' => if p c then c :: take_while p s' else []
  | [] => []
  end.

Fixpoint drop_while (A : Type) (p : A -> bool) (s : list A) : list A :=
  match s with
  | c :: s' => if p c then drop_while p s' else s
  | [] => []
  end.

Definition lstrip (s : str) : str := drop_while is_space s.
Definition rstrip (s : str) : str := rev (drop_while is_space (rev s)).
Definition strip (s : str) : str := lstrip (rstrip s).

(** [text.split('\n')] *)
Fixpoint split_lines (text : str) : list str :=
  match text with
  | [] => [[]]
  | c :: t =>
      if (c =? newline)%N then [] :: split_lines t
      else match split_lines t with
           | l :: ls => (c :: l) :: ls
           | [] => [[c]]
           end
  end.

(** The tail shared by both patterns (white space, an optional comment,
    end of line): optional white space, then the end of the line or a [#]
    followed by anything but a newline. *)
Definition comment_tail (s : str) : bool :=
  match drop_while is_space s with
  | [] => true
  | c :: r => (c =? hash)%N && forallb (fun x => negb (x =? newline)%N) r
  end.

(** [block_id_pattern.match(line)], giving
    [(len(group(1)), group(2), group(3))].  The pattern reads, from the
    start of the line: white space (group 1); a key, one of [a-zA-Z_]
    then any number of [a-zA-Z0-9_] (group 2); a colon; white space;
    exactly 24 of [a-f0-9] (group 3); the shared tail; all of it under
    [re.IGNORECASE].  The classes of adjacent pieces are disjoint, so each
    greedy piece takes its maximal run and backtracking changes nothing. *)
Definition block_id_match (line : str) : option (nat * str * str) :=
  let ws := take_while is_space line in
  let r1 := drop_while is_space line in
  let key := take_while key_char_i r1 in
  let r2 := drop_while key_char_i r1 in
  match key, r2 with
  | k0 :: _, c :: r3 =>
      if key_start_i k0 && (c =? colon)%N then
        let r4 := drop_while is_space r3 in
        let hex := firstn 24 r4 in
        let r5 := skipn 24 r4 in
        if (length hex =? 24) && forallb is_hex hex && comment_tail r5
        then Some (length ws, key, hex)
        else None
      else None
  | _, _ => None
  end.

(** [key_value_pattern.match(line)], giving [(len(group(1)), group(2))]:
    white space (group 1), a key as above (group 2), a colon, the shared
    tail; case-sensitive. *)
Definition key_value_match (line : str) : option (nat * str) :=
  let ws := take_while is_space line in
  let r1 := drop_while is_space line in
  let key := take_while key_char r1 in
  let r2 := drop_while key_char r1 in
  match key, r2 with
  | k0 :: _, c :: r3 =>
      if key_start k0 && (c =? colon)%N && comment_tail r3
      then Some (length ws, key)
      else None
  | _, _ => None
  end.

(** ** The parser *)

(** What one iteration of the loop decides about its line, in the order of
    the tests of the loop body. *)
Inductive line_class : Type :=
| Blank
| Comment
| LeafReference (indent : nat) (var_name block_id : str)
| PathNode (indent : nat) (var_name : str)
| Unrecognized.

Definition classify (original_line : str) : line_class :=
  let line := rstrip original_line in
  match strip line with
  | [] => Blank
  | c :: _ =>
      if (c =? hash)%N then Comment
      else match block_id_match line with
           | Some (indent, var_name, block_id) =>
               LeafReference indent var_name block_id
           | None =>
               match key_value_match line with
               | Some (indent, var_name) => PathNode indent var_name
               | None => Unrecognized
               end
           end
  end.

Definition stack_entry : Type := str * nat.
Definition parsed_reference : Type := str * str * nat.

(** [while path_stack and path_stack[-1][1] >= indent: path_stack.pop()] *)
Definition adjust (indent : nat) (path_stack : list stack_entry)
  : list stack_entry :=
  rev (drop_while (fun p : stack_entry => indent <=? snd p) (rev path_stack)).

Record parser_state : Type := {
  path_stack : list stack_entry;
  block_ids : list parsed_reference
}.

Definition initial_state : parser_state :=
  {| path_stack := []; block_ids := [] |}.

(** The path of a leaf below the (already adjusted) stack. *)
Definition leaf_path (stack : list stack_entry) (var_name : str) : str :=
  match stack with
  | [] => var_name
  | _ :: _ => join [dot] (map fst stack ++ [var_name])
  end.

(** One iteration of [for line_num, line in enumerate(lines, 1)]. *)
Definition process_line (st : parser_state) (line_num : nat) (line : str)
  : parser_state :=
  match classify line with
  | LeafReference indent var_name block_id =>
      let stack := adjust indent (path_stack st) in
      let path := leaf_path stack var_name in
      {| path_stack := stack ++ [(var_name, indent)];
         block_ids := block_ids st ++ [(block_id, path, line_num)] |}
  | PathNode indent var_name =>
      {| path_stack := adjust indent (path_stack st) ++ [(var_name, indent)];
         block_ids := block_ids st |}
  | Blank | Comment | Unrecognized => st
  end.

Fixpoint run (st : parser_state) (line_num : nat) (lines : list str)
  : parser_state :=
  match lines with
  | [] => st
  | line :: rest => run (process_line st line_num line) (S line_num) rest
  end.

Definition parse_block_ids_from_text (text : str) : list parsed_reference :=
  block_ids (run initial_state 1 (split_lines text)).

(** The path stack after the lines [pre] have been consumed. *)
Definition stack_after (pre : list str) : list stack_entry :=
  path_stack (run initial_state 1 pre).

(** ** Python dictionaries, in insertion order *)

Definition dict (V : Type) : Type := list (str * V).

(** [d.get(k)]: [None] when the key is absent ([d[k]] would raise). *)
Fixpoint dict_get (V : Type) (k : str) (d : dict V) : option V :=
  match d with
  | [] => None
  | (k', v) :: rest => if str_eqb k k' then Some v else dict_get k rest
  end.

(** [d[k] = v]: a present key keeps its place, a new key goes last. *)
Fixpoint dict_set (V : Type) (k : str) (v : V) (d : dict V) : dict V :=
  match d with
  | [] => [(k, v)]
  | (k', v') :: rest =>
      if str_eqb k k' then (k, v) :: rest else (k', v') :: dict_set k v rest
  end.

Definition dict_keys (V : Type) (d : dict V) : list str := map fst d.

(** ** Snapshots *)

Record item : Type := { item_id : str; item_name : str }.

Record scenario : Type := {
  scen_id : str;
  scen_name : str;
  scen_items : list item
}.

(** The value an environment has in [env_scenarios]: a list of scenarios,
    or [None] when nothing was loaded. *)
Definition snapshot : Type := option (list scenario).

(** [if scenarios:] *)
Definition truthy (scenarios : snapshot) : bool :=
  match scenarios with
  | Some (_ :: _) => true
  | _ => false
  end.

Definition scenarios_of (scenarios : snapshot) : list scenario :=
  match scenarios with
  | Some l => l
  | None => []
  end.

(** The dictionary built for one block; [bi_env] is the key ['env'], which
    only the source block of [search_by_block_id_multi_env] receives. *)
Record block_info : Type := {
  bi_scenario_id : str;
  bi_scenario_name : str;
  bi_block_id : str;
  bi_block_name : str;
  bi_env : option str
}.

Definition is_some (A : Type) (o : option A) : bool :=
  match o with
  | Some _ => true
  | None => false
  end.

(** ** Look-ups over one snapshot *)

Section Searches.

(** [str.lower], the lower-casing of the Unicode database. *)
Variable lower : str -> str.

Definition search_blocks (scenarios : list scenario) (search_term : str)
  : list block_info :=
  match search_term with
  | [] => []
  | _ :: _ =>
      let search_term_lower := lower search_term in
      flat_map
        (fun sc =>
           map (fun it =>
                  {| bi_scenario_id := scen_id sc;
                     bi_scenario_name := scen_name sc;
                     bi_block_id := item_id it;
                     bi_block_name := item_name it;
                     bi_env := None |})
               (filter (fun it =>
                          contains search_term_lower (lower (item_name it)))
                       (scen_items sc)))
        scenarios
  end.

Fixpoint search_blocks_by_id (scenarios : list scenario) (block_id : str)
  : option block_info :=
  match scenarios with
  | [] => None
  | sc :: rest =>
      match find (fun it => str_eqb (item_id it) block_id) (scen_items sc) with
      | Some it =>
          Some {| bi_scenario_id := scen_id sc;
                  bi_scenario_name := scen_name sc;
                  bi_block_id := block_id;
                  bi_block_name := item_name it;
                  bi_env := None |}
      | None => search_blocks_by_id rest block_id
      end
  end.

(** ** The validator *)

Record index_entry : Type := {
  ie_scenario_id : str;
  ie_scenario_name : str;
  ie_block_name : str
}.

(** The inner loop of the index construction: [all_blocks[block_id] = ...]
    for every item of one scenario. *)
Definition index_items (sc : scenario) (all_blocks : dict index_entry)
  : dict index_entry :=
  fold_left
    (fun d it =>
       dict_set (item_id it)
                {| ie_scenario_id := scen_id sc;
                   ie_scenario_name := scen_name sc;
                   ie_block_name := item_name it |} d)
    (scen_items sc) all_blocks.

Definition build_all_blocks (scenarios : list scenario) : dict index_entry :=
  fold_left (fun d sc => index_items sc d) scenarios [].

Record validation_result : Type := {
  vr_block_id : str;
  vr_path : str;
  vr_line_number : nat;
  vr_valid : bool;
  vr_scenario_id : option str;
  vr_scenario_name : option str;
  vr_block_name : option str
}.

Definition validate_one (all_blocks : dict index_entry) (r : parsed_reference)
  : validation_result :=
  let '(block_id, path, line_num) := r in
  match dict_get block_id all_blocks with
  | Some block_info =>
      {| vr_block_id := block_id; vr_path := path;
         vr_line_number := line_num; vr_valid := true;
         vr_scenario_id := Some (ie_scenario_id block_info);
         vr_scenario_name := Some (ie_scenario_name block_info);
         vr_block_name := Some (ie_block_name block_info) |}
  | None =>
      {| vr_block_id := block_id; vr_path := path;
         vr_line_number := line_num; vr_valid := false;
         vr_scenario_id := None;
         vr_scenario_name := None;
         vr_block_name := None |}
  end.

Definition validate_block_ids (block_ids : list parsed_reference)
  (scenarios : list scenario) (env_name : str) : list validation_result :=
  let all_blocks := build_all_blocks scenarios in
  map (validate_one all_blocks) block_ids.

(** ** Look-ups over all environments *)

(** The body of the loop of [find_matching_blocks_in_other_envs] for an
    environment with scenarios: the first scenario of that name, then the
    first item of that name in it. *)
Definition find_matching_block (scenarios : list scenario)
  (scenario_name block_name : str) : option block_info :=
  match find (fun sc => str_eqb (scen_name sc) scenario_name) scenarios with
  | None => None
  | Some matching_scenario =>
      match find (fun it => str_eqb (item_name it) block_name)
                 (scen_items matching_scenario) with
      | Some it =>
          Some {| bi_scenario_id := scen_id matching_scenario;
                  bi_scenario_name := scenario_name;
                  bi_block_id := item_id it;
                  bi_block_name := block_name;
                  bi_env := None |}
      | None => None
      end
  end.

Definition find_matching_blocks_in_other_envs (env_scenarios : dict snapshot)
  (source_env scenario_name block_name : str) : dict (option block_info) :=
  fold_left
    (fun results (e : str * snapshot) =>
       let (env_name, scenarios) := e in
       if truthy scenarios
       then dict_set env_name
              (find_matching_block (scenarios_of scenarios)
                                   scenario_name block_name) results
       else dict_set env_name None results)
    env_scenarios [].

Definition search_blocks_multi_env (env_scenarios : dict snapshot)
  (search_term : str) : dict (list block_info) :=
  fold_left
    (fun results (e : str * snapshot) =>
       let (env_name, scenarios) := e in
       if truthy scenarios
       then dict_set env_name
              (search_blocks (scenarios_of scenarios) search_term) results
       else dict_set env_name [] results)
    env_scenarios [].

(** The first loop of [search_by_block_id_multi_env].  [source_info] is
    the very dictionary stored under [found_blocks[env_name]], so the
    ['env'] key it receives shows in [found_blocks] too. *)
Definition find_step (block_id : str)
  (acc : dict (option block_info) * option block_info) (e : str * snapshot)
  : dict (option block_info) * option block_info :=
  let (found_blocks, source_info) := acc in
  let (env_name, scenarios) := e in
  if truthy scenarios then
    match search_blocks_by_id (scenarios_of scenarios) block_id, source_info with
    | Some block_info, None =>
        let marked :=
          {| bi_scenario_id := bi_scenario_id block_info;
             bi_scenario_name := bi_scenario_name block_info;
             bi_block_id := bi_block_id block_info;
             bi_block_name := bi_block_name block_info;
             bi_env := Some env_name |} in
        (dict_set env_name (Some marked) found_blocks, Some marked)
    | block_info, _ =>
        (dict_set env_name block_info found_blocks, source_info)
    end
  else (dict_set env_name None found_blocks, source_info).

(** The merge loop, [for env_name in matching_blocks]; a missing key in
    either dictionary is the [KeyError] of the subscript. *)
Fixpoint merge_matching (env_names : list str)
  (matching_blocks found_blocks : dict (option block_info))
  : option (dict (option block_info)) :=
  match env_names with
  | [] => Some found_blocks
  | env_name :: rest =>
      match dict_get env_name matching_blocks with
      | None => None
      | Some None => merge_matching rest matching_blocks found_blocks
      | Some (Some m) =>
          match dict_get env_name found_blocks with
          | None => None
          | Some (Some _) => merge_matching rest matching_blocks found_blocks
          | Some None =>
              merge_matching rest matching_blocks
                             (dict_set env_name (Some m) found_blocks)
          end
      end
  end.

Definition search_by_block_id_multi_env (env_scenarios : dict snapshot)
  (block_id : str) : option (dict (option block_info)) :=
  let (found_blocks, source_info) :=
    fold_left (find_step block_id) env_scenarios ([], None) in
  match source_info with
  | Some si =>
      let matching_blocks :=
        find_matching_blocks_in_other_envs env_scenarios
          (match bi_env si with Some e => e | None => [] end)
          (bi_scenario_name si) (bi_block_name si) in
      merge_matching (dict_keys matching_blocks) matching_blocks found_blocks
  | None => Some found_blocks
  end.

(** ** The search mode of [main] and the grouping of the display *)

Record env_data : Type := { ed_scenario_id : str; ed_block_id : str }.

Record block_group : Type := {
  bg_scenario_name : str;
  bg_block_name : str;
  bg_envs : dict env_data
}.

(** [f"{scenario_name}::{block_name}"] *)
Definition group_key (scenario_name block_name : str) : str :=
  scenario_name ++ [colon; colon] ++ block_name.

(** The body of the inner loop of the grouping. *)
Definition group_result (env_name : str) (block_groups : dict block_group)
  (result : block_info) : dict block_group :=
  let block_name := bi_block_name result in
  let scenario_name := bi_scenario_name result in
  let key := group_key scenario_name block_name in
  let g :=
    match dict_get key block_groups with
    | Some g => g
    | None => {| bg_scenario_name := scenario_name;
                 bg_block_name := block_name;
                 bg_envs := [] |}
    end in
  dict_set key
    {| bg_scenario_name := bg_scenario_name g;
       bg_block_name := bg_block_name g;
       bg_envs := dict_set env_name
                    {| ed_scenario_id := bi_scenario_id result;
                       ed_block_id := bi_block_id result |}
                    (bg_envs g) |}
    block_groups.

Definition build_block_groups (env_results : dict (list block_info))
  : dict block_group :=
  fold_left
    (fun groups (e : str * list block_info) =>
       let (env_name, results) := e in
       fold_left (group_result env_name) results groups)
    env_results [].

(** [sorted(block_groups.items())]: the keys are distinct, so the order is
    the order of the keys. *)
Fixpoint insert_by_key (V : Type) (x : str * V) (l : list (str * V))
  : list (str * V) :=
  match l with
  | [] => [x]
  | y :: rest =>
      if str_ltb (fst y) (fst x) then y :: insert_by_key x rest
      else x :: y :: rest
  end.

Definition sorted_items (V : Type) (d : dict V) : list (str * V) :=
  fold_right (@insert_by_key V) [] d.

(** The rows [display_search_results_multi_env] prints, in order: one per
    group; none when there is no result at all. *)
Definition display_search_results_multi_env
  (env_results : dict (list block_info)) : list (str * block_group) :=
  let total_count :=
    fold_left (fun n (e : str * list block_info) => n + length (snd e))
              env_results 0 in
  if total_count =? 0 then []
  else sorted_items (build_block_groups env_results).

(** The first loop of the search mode: does [search_input] resolve as a
    block id in some environment? *)
Definition block_id_found (env_scenarios : dict snapshot) (search_input : str)
  : bool :=
  existsb
    (fun e : str * snapshot =>
       truthy (snd e)
       && is_some (search_blocks_by_id (scenarios_of (snd e)) search_input))
    env_scenarios.

Inductive search_outcome : Type :=
| BlockIdSearch (env_results : option (dict (option block_info)))
| NameSearch (rows : list (str * block_group)).

(** What the search mode computes for a non-empty [search_input]. *)
Definition search_both_modes (env_scenarios : dict snapshot)
  (search_input : str) : search_outcome :=
  if block_id_found env_scenarios search_input
  then BlockIdSearch (search_by_block_id_multi_env env_scenarios search_input)
  else NameSearch
         (display_search_results_multi_env
            (search_blocks_multi_env env_scenarios search_input)).

End Searches.

(** ** Reading the claims: definitions that follow the specification *)

(** The stack entry a line contributes, if it has a key. *)
Definition key_of (c : line_class) : option stack_entry :=
  match c with
  | LeafReference indent var_name _ => Some (var_name, indent)
  | PathNode indent var_name => Some (var_name, indent)
  | Blank | Comment | Unrecognized => None
  end.

(** A line keeps an entry of depth [i] open when it has no key or is
    indented strictly deeper than [i]. *)
Definition deeper_than (i : nat) (c : line_class) : bool :=
  match key_of c with
  | Some (_, i') => i <? i'
  | None => true
  end.

(** The entries of the keyed lines of [cs] (leaf references and path nodes
    alike) that no later line of [cs] has closed, first line first. *)
Fixpoint open_stack (cs : list line_class) : list stack_entry :=
  match cs with
  | [] => []
  | c :: rest =>
      match key_of c with
      | Some e =>
          if forallb (deeper_than (snd e)) rest
          then e :: open_stack rest
          else open_stack rest
      | None => open_stack rest
      end
  end.

(** The open ancestors of a line of indent [d] that follows the lines
    [cs]: the open entries strictly shallower than [d]. *)
Definition open_ancestors (cs : list line_class) (d : nat)
  : list stack_entry :=
  filter (fun e : stack_entry => snd e <? d) (open_stack cs).

(** Following the specification's words: only path-node lines become
    ancestors, while every keyed line closes what is not shallower. *)
Fixpoint open_path_nodes (cs : list line_class) (d : nat)
  : list stack_entry :=
  match cs with
  | [] => []
  | c :: rest =>
      match c with
      | PathNode indent var_name =>
          if (indent <? d) && forallb (deeper_than indent) rest
          then (var_name, indent) :: open_path_nodes rest d
          else open_path_nodes rest d
      | _ => open_path_nodes rest d
      end
  end.

(** The effect of a classified line on the path stack. *)
Definition stack_step (stack : list stack_entry) (c : line_class)
  : list stack_entry :=
  match key_of c with
  | Some e => adjust (snd e) stack ++ [e]
  | None => stack
  end.

(** Depths strictly increasing from the bottom of the stack to its top. *)
Definition increasing (stack : list stack_entry) : Prop :=
  StronglySorted lt (map snd stack).

(** The value part of a line: what stands between the first colon and the
    comment, white space trimmed (trailing white space of the line is
    removed first, as the parser does). *)
Definition after_colon (line : str) : str :=
  match drop_while (fun c => negb (c =? colon)%N) line with
  | [] => []
  | _ :: r => r
  end.

Definition value_part (line : str) : str :=
  rstrip (take_while (fun c => negb (c =? hash)%N)
                     (lstrip (after_colon (rstrip line)))).

Definition is_block_id (v : str) : bool :=
  (length v =? 24) && forallb is_hex v.

(** The items of a snapshot with their scenarios, in snapshot order. *)
Definition all_items (scenarios : list scenario) : list (scenario * item) :=
  flat_map (fun sc => map (pair sc) (scen_items sc)) scenarios.

Definition has_id (block_id : str) (x : scenario * item) : bool :=
  str_eqb (item_id (snd x)) block_id.

Definition first_match (scenarios : list scenario) (block_id : str)
  : option (scenario * item) :=
  find (has_id block_id) (all_items scenarios).

Definition last_match (scenarios : list scenario) (block_id : str)
  : option (scenario * item) :=
  find (has_id block_id) (rev (all_items scenarios)).

(** The dictionaries the look-ups build from an item and its scenario. *)
Definition entry_of (x : scenario * item) : index_entry :=
  {| ie_scenario_id := scen_id (fst x);
     ie_scenario_name := scen_name (fst x);
     ie_block_name := item_name (snd x) |}.

Definition info_of (x : scenario * item) : block_info :=
  {| bi_scenario_id := scen_id (fst x);
     bi_scenario_name := scen_name (fst x);
     bi_block_id := item_id (snd x);
     bi_block_name := item_name (snd x);
     bi_env := None |}.

(** The validation result of a reference that resolves to [x], or to
    nothing. *)
Definition result_for (r : parsed_reference) (x : option (scenario * item))
  : validation_result :=
  {| vr_block_id := fst (fst r);
     vr_path := snd (fst r);
     vr_line_number := snd r;
     vr_valid := is_some x;
     vr_scenario_id := option_map (fun y => scen_id (fst y)) x;
     vr_scenario_name := option_map (fun y => scen_name (fst y)) x;
     vr_block_name := option_map (fun y => item_name (snd y)) x |}.

(** The result of the identifier look-up in one environment. *)
Definition id_lookup (scenarios : snapshot) (block_id : str)
  : option block_info :=
  if truthy scenarios
  then search_blocks_by_id (scenarios_of scenarios) block_id
  else None.

(** The result of the name-based look-up in one environment. *)
Definition name_lookup (scenarios : snapshot) (scenario_name block_name : str)
  : option block_info :=
  if truthy scenarios
  then find_matching_block (scenarios_of scenarios) scenario_name block_name
  else None.

Definition mark_env (env_name : str) (b : block_info) : block_info :=
  {| bi_scenario_id := bi_scenario_id b;
     bi_scenario_name := bi_scenario_name b;
     bi_block_id := bi_block_id b;
     bi_block_name := bi_block_name b;
     bi_env := Some env_name |}.

(** The source of a cross-environment query: the block found in the first
    environment, in the order of [env_scenarios], where the identifier
    resolves, with the name of that environment. *)
Fixpoint first_source (env_scenarios : dict snapshot) (block_id : str)
  : option block_info :=
  match env_scenarios with
  | [] => None
  | (env_name, scenarios) :: rest =>
      match id_lookup scenarios block_id with
      | Some b => Some (mark_env env_name b)
      | None => first_source rest block_id
      end
  end.

Definition is_source (src : option block_info) (env_name : str) : bool :=
  match src with
  | Some si =>
      match bi_env si with
      | Some e => str_eqb e env_name
      | None => false
      end
  | None => false
  end.

(** The entry the first loop of a cross-environment query stores for one
    environment: its identifier look-up, the source's one carrying the
    name of its environment. *)
Definition found_entry (src : option block_info) (block_id : str)
  (env_name : str) (scenarios : snapshot) : option block_info :=
  match id_lookup scenarios block_id with
  | Some b => if is_source src env_name then Some (mark_env env_name b)
              else Some b
  | None => None
  end.

(** What a cross-environment query answers for one environment: its own
    identifier look-up when that resolves, else the name-based look-up of
    the source's names. *)
Definition expected_entry (env_scenarios : dict snapshot) (block_id : str)
  (env_name : str) (scenarios : snapshot) : option block_info :=
  let src := first_source env_scenarios block_id in
  match found_entry src block_id env_name scenarios with
  | Some b => Some b
  | None =>
      match src with
      | Some si =>
          name_lookup scenarios (bi_scenario_name si) (bi_block_name si)
      | None => None
      end
  end.

(** One round of the merge loop on the two entries of an environment. *)
Definition merge_entry (m f : option (option block_info))
  : option (option block_info) :=
  match m, f with
  | Some (Some x), Some None => Some (Some x)
  | _, _ => f
  end.

(** The fields of a block that identify it. *)
Definition block_fields (b : block_info) : str * str * str * str :=
  (bi_scenario_id b, bi_scenario_name b, bi_block_id b, bi_block_name b).

(** ** Sample inputs *)

Definition hex_a : str := str_of "67d2804ef38a8bfdf0172bce".
Definition hex_b : str := str_of "0123456789abcdef01234567".

Definition two_leaves : str := str_of "a: 67d2804ef38a8bfdf0172bce
  b: 0123456789abcdef01234567".

Definition five_lines : str := str_of "root:
  left:
    deep: 0123456789abcdef01234567
  right: 67d2804ef38a8bfdf0172bce
other:".

Definition spec_example : str := str_of "hsptlzInfo: # comment
  hsplzInfoInquiry: 67d2804ef38a8bfdf0172bce # note".

Definition dev : str := str_of "dev".
Definition prod : str := str_of "prod".
Definition stg : str := str_of "stg".

Definition mk_item (id name : string) : item :=
  {| item_id := str_of id; item_name := str_of name |}.

Definition mk_scenario (id name : string) (items : list item) : scenario :=
  {| scen_id := str_of id; scen_name := str_of name; scen_items := items |}.

Definition mk_block (sid sname bid bname : string) (env : option str)
  : block_info :=
  {| bi_scenario_id := str_of sid; bi_scenario_name := str_of sname;
     bi_block_id := str_of bid; bi_block_name := str_of bname;
     bi_env := env |}.

(** The same logical block [Login/welcome] under three identifiers; [stg]
    is not loaded. *)
Definition promoted_envs : dict snapshot :=
  [(dev, Some [mk_scenario "s-dev" "Login" [mk_item "aaa" "welcome"]]);
   (prod, Some [mk_scenario "s-prod" "Login"
                  [mk_item "zzz" "other"; mk_item "bbb" "welcome"]]);
   (stg, None)].

(** The identifier [aaa] of [dev]'s [Login/welcome] also names the block
    [Billing/pay] of [prod]. *)
Definition clashing_envs : dict snapshot :=
  [(dev, Some [mk_scenario "s-dev" "Login" [mk_item "aaa" "welcome"]]);
   (prod, Some [mk_scenario "s-prod" "Login" [mk_item "bbb" "welcome"];
                mk_scenario "t-prod" "Billing" [mk_item "aaa" "pay"]])].

(** A snapshot with one identifier on two items. *)
Definition duplicate_ids : list scenario :=
  [mk_scenario "s1" "Login"
     [mk_item "aaa" "first"; mk_item "bbb" "middle"; mk_item "aaa" "second"]].

(** Two different (scenario name, block name) pairs with the same
    concatenated key. *)
Definition colliding_envs : dict snapshot :=
  [(dev, Some [mk_scenario "s-dev" "a::b" [mk_item "id-dev" "c"]]);
   (prod, Some [mk_scenario "s-prod" "a" [mk_item "id-prod" "b::c"]])].

(** Two scenarios, the name of one a prefix of the other's. *)
Definition prefix_envs : dict snapshot :=
  [(dev, Some [mk_scenario "s1" "Login" [mk_item "i1" "x"];
               mk_scenario "s2" "Login2" [mk_item "i2" "x"]])].

(** The (scenario name, block name) pairs of the results of a search, per
    environment. *)
Definition result_names (env_results : dict (list block_info))
  : dict (list (str * str)) :=
  map (fun e => (fst e,
                 map (fun b => (bi_scenario_name b, bi_block_name b))
                     (snd e)))
      env_results.

(** ** More of the parser: definitions for its further properties *)

(** The references the loop emits from a given stack on, the first line
    being numbered [n]. *)
Definition references_from (stack : list stack_entry) (n : nat)
  (lines : list str) : list parsed_reference :=
  block_ids (run {| path_stack := stack; block_ids := [] |} n lines).

Definition is_leaf (line : str) : bool :=
  match classify line with
  | LeafReference _ _ _ => true
  | _ => false
  end.

(** Lines with a key: leaf references and path nodes. *)
Definition keyed (line : str) : bool := is_some (key_of (classify line)).

Definition carriage_return : char := 13%N.

(** The text with every line end written as carriage return, newline. *)
Definition crlf (text : str) : str :=
  flat_map (fun c => if (c =? newline)%N then [carriage_return; newline]
                     else [c])
           text.

(** A carriage return at the end of every line but the last. *)
Fixpoint add_cr (lines : list str) : list str :=
  match lines with
  | [] => []
  | [l] => [l]
  | l :: rest => (l ++ [carriage_return]) :: add_cr rest
  end.

(** The references with their line numbers moved by [k]. *)
Definition shift_lines (k : nat) (refs : list parsed_reference)
  : list parsed_reference :=
  map (fun r : parsed_reference => (fst r, snd r + k)) refs.



(** ** More of the look-ups: definitions for their further properties *)

(** The counts [display_validation_results] prints. *)
Definition valid_count (results : list validation_result) : nat :=
  length (filter vr_valid results).

Definition invalid_count (results : list validation_result) : nat :=
  length results - valid_count results.

(** The count [display_block_id_search_results] starts with: when it is
    0 the report is the not-found message. *)
Definition found_count (env_results : dict (option block_info)) : nat :=
  length (filter (fun e : str * option block_info => is_some (snd e))
                 env_results).

(** [next((result for result in env_results.values() if result), None)],
    the block whose names head the report. *)
Fixpoint first_result (env_results : dict (option block_info))
  : option block_info :=
  match env_results with
  | [] => None
  | (_, Some b) :: _ => Some b
  | (_, None) :: rest => first_result rest
  end.

(** The test of the name search on an item. *)
Definition name_matches (lower : str -> str) (search_term : str)
  (x : scenario * item) : bool :=
  contains (lower search_term) (lower (item_name (snd x))).

(** The identifiers of the items of a snapshot, in snapshot order. *)
Definition all_ids (scenarios : list scenario) : list str :=
  map (fun x : scenario * item => item_id (snd x)) (all_items scenarios).

(** ** More of the display: definitions for its further properties *)

(** The results of all environments with their environment, in the order
    the grouping loop visits them. *)
Definition flat_results (env_results : dict (list block_info))
  : list (str * block_info) :=
  flat_map (fun e : str * list block_info => map (pair (fst e)) (snd e))
           env_results.

Definition result_key (b : block_info) : str :=
  group_key (bi_scenario_name b) (bi_block_name b).

Definition result_data (b : block_info) : env_data :=
  {| ed_scenario_id := bi_scenario_id b; ed_block_id := bi_block_id b |}.

(** Rows in strictly growing order of their keys. *)
Definition rows_sorted (V : Type) (rows : list (str * V)) : Prop :=
  StronglySorted (fun a b : str * V => str_ltb (fst a) (fst b) = true) rows.

(** The results of a name search: [Login/welcome] in two environments,
    nothing in the third. *)
Definition welcome_results : dict (list block_info) :=
  [(dev, [mk_block "s-dev" "Login" "aaa" "welcome" None]);
   (prod, [mk_block "s-prod" "Login" "bbb" "welcome" None;
           mk_block "s-prod" "Login" "ccc" "welcome back" None]);
   (stg, [])].

(** ** The environment file *)

Definition equals_sign : char := 61%N.
Definition double_quote : char := 34%N.
Definition single_quote : char := 39%N.
Definition null_char : char := 0%N.

(** [s.endswith(c)] for one character. *)
Definition ends_with_char (c : char) (s : str) : bool :=
  match rev s with
  | x :: _ => (x =? c)%N
  | [] => false
  end.

(** The removal of one pair of matching quotes around a value. *)
Definition unquote (value : str) : str :=
  if 2 <=? length value then
    if (startswith [double_quote] value && ends_with_char double_quote value)
       || (startswith [single_quote] value
           && ends_with_char single_quote value)
    then removelast (tl value)
    else value
  else value.

(** The key and the value [load_env_file] reads off one line of the file,
    [None] for a blank line, a comment line or a line without [=]. *)
Definition env_assignment (raw : str) : option (str * str) :=
  let line := strip raw in
  match line with
  | [] => None
  | c :: _ =>
      if (c =? hash)%N then None
      else if existsb (fun x => (x =? equals_sign)%N) line then
        let key := take_while (fun x => negb (x =? equals_sign)%N) line in
        let value :=
          tl (drop_while (fun x => negb (x =? equals_sign)%N) line) in
        Some (strip key, unquote (strip value))
      else None
  end.

(** [not os.getenv(key)] *)
Definition unset_or_empty (environ : dict str) (key : str) : bool :=
  match dict_get key environ with
  | Some (_ :: _) => false
  | _ => true
  end.

Definition has_null (s : str) : bool :=
  existsb (fun c => (c =? null_char)%N) s.

(** The loop of [load_env_file] over the lines of the file, on the
    process environment.  Storing a name or a value that holds the null
    character raises; the handler around the loop ends the loading there.
    The lines come from a text decoded as UTF-8, which holds no other
    character the environment refuses. *)
Fixpoint load_env_lines (lines : list str) (environ : dict str) : dict str :=
  match lines with
  | [] => environ
  | raw :: rest =>
      match env_assignment raw with
      | Some (key, value) =>
          match key with
          | _ :: _ =>
              if unset_or_empty environ key then
                if has_null key || has_null value then environ
                else load_env_lines rest (dict_set key value environ)
              else load_env_lines rest environ
          | [] => load_env_lines rest environ
          end
      | None => load_env_lines rest environ
      end
  end.

(** No white space at the start of a string. *)
Definition head_ok (s : str) : bool :=
  match s with
  | [] => true
  | c :: _ => negb (is_space c)
  end.

(** A string that [strip] leaves as it is: no white space at either end. *)
Definition trimmed (s : str) : bool := head_ok s && head_ok (rev s).

(** A name an environment file can assign: not empty, trimmed, without
    [=], and not starting a comment. *)
Definition env_name_ok (key : str) : bool :=
  match key with
  | [] => false
  | c :: _ =>
      trimmed key && negb (c =? hash)%N
      && forallb (fun x => negb (x =? equals_sign)%N) key
  end.

(** ** The environments [main] holds *)

Definition environments : list str := [dev; prod; stg].

(** [if env_name not in env_scenarios:] load it, and keep what was loaded
    only [if scenarios:].  [fetch] stands for [load_environment_data] with
    the address and the cookie of the environment. *)
Definition load_if_missing (fetch : str -> snapshot) (env_name : str)
  (env_scenarios : dict snapshot) : dict snapshot :=
  match dict_get env_name env_scenarios with
  | Some _ => env_scenarios
  | None =>
      let scenarios := fetch env_name in
      if truthy scenarios then dict_set env_name scenarios env_scenarios
      else env_scenarios
  end.

(** The commands of the menu, as far as they touch [env_scenarios]. *)
Inductive command : Type :=
| ShowDev
| ShowProd
| ShowStg
| CompareAll
| SearchAll
| ValidateIn (env_name : str)
| OtherInput.

(** What one command of the main loop does to [env_scenarios]. *)
Definition run_command (fetch : str -> snapshot) (c : command)
  (env_scenarios : dict snapshot) : dict snapshot :=
  match c with
  | ShowDev => env_scenarios
  | ShowProd => load_if_missing fetch prod env_scenarios
  | ShowStg => load_if_missing fetch stg env_scenarios
  | CompareAll | SearchAll =>
      fold_left (fun d e => load_if_missing fetch e d) environments
                env_scenarios
  | ValidateIn env_name => load_if_missing fetch env_name env_scenarios
  | OtherInput => env_scenarios
  end.

(** [env_scenarios] when [main] enters its loop: only [dev] is tried. *)
Definition startup (fetch : str -> snapshot) : dict snapshot :=
  load_if_missing fetch dev [].

(** A session: the commands entered, each with what the network answers
    while it runs. *)
Definition run_session (fetch0 : str -> snapshot)
  (session : list (command * (str -> snapshot))) : dict snapshot :=
  fold_left (fun d step => run_command (snd step) (fst step) d) session
            (startup fetch0).

(** The commands [main] can issue: the validation mode only names one of
    the three environments. *)
Definition command_ok (c : command) : Prop :=
  match c with
  | ValidateIn env_name => In env_name environments
  | _ => True
  end.

(** What [main] keeps true of [env_scenarios]. *)
Definition loaded_ok (envs : dict snapshot) : Prop :=
  NoDup (dict_keys envs) /\
  (forall e, In e (dict_keys envs) -> In e environments) /\
  (forall e s, In (e, s) envs -> truthy s = true).

(** ** The comparison of the environments *)

(** [{s.get('name'): s for s in scenarios}], or the empty dictionary for
    an environment without scenarios. *)
Definition scenarios_by_name (scenarios : snapshot) : dict scenario :=
  if truthy scenarios
  then fold_left (fun d sc => dict_set (scen_name sc) sc d)
                 (scenarios_of scenarios) []
  else [].

Definition compare_index (env_data : dict snapshot) : dict (dict scenario) :=
  fold_left
    (fun r (e : str * snapshot) =>
       dict_set (fst e) (scenarios_by_name (snd e)) r)
    env_data [].

(** The set of all scenario names, as the keys of a dictionary. *)
Definition scenario_name_set (index : dict (dict scenario)) : dict unit :=
  fold_left
    (fun names (e : str * dict scenario) =>
       fold_left (fun ns k => dict_set k tt ns) (dict_keys (snd e)) names)
    index [].

(** [sorted(all_scenario_names)] *)
Definition all_scenario_names (index : dict (dict scenario)) : list str :=
  map fst (sorted_items (scenario_name_set index)).

(** What is printed for one scenario name and one environment: the id of
    the scenario and the number of its blocks, or nothing. *)
Definition compare_cell (index : dict (dict scenario))
  (scenario_name env_name : str) : option (str * nat) :=
  match dict_get env_name index with
  | Some by_name =>
      match dict_get scenario_name by_name with
      | Some sc => Some (scen_id sc, length (scen_items sc))
      | None => None
      end
  | None => None
  end.

(** The table [compare_environments] prints: one row per scenario name,
    one cell per environment dev, prod, stg. *)
Definition compare_environments (env_data : dict snapshot)
  : list (str * list (str * option (str * nat))) :=
  let index := compare_index env_data in
  map (fun scenario_name =>
         (scenario_name,
          map (fun env_name =>
                 (env_name, compare_cell index scenario_name env_name))
              environments))
      (all_scenario_names index).

(** The last scenario of a snapshot with a given name. *)
Definition last_named (scenarios : snapshot) (scenario_name : str)
  : option scenario :=
  if truthy scenarios
  then find (fun sc => str_eqb (scen_name sc) scenario_name)
            (rev (scenarios_of scenarios))
  else None.

(** ** Proof automation *)

(** Facts about the character classes: a class excludes a character. *)
Ltac char_class :=
  unfold is_hex, is_space, key_char_i, key_start_i, key_char, key_start,
    is_alpha, is_digit, ignorecase_extra, colon, hash, underscore;
  intros;
  repeat match goal with
         | H : _ || _ = true |- _ => apply orb_true_iff in H; destruct H
         | H : _ && _ = true |- _ => apply andb_true_iff in H; destruct H
         | H : (_ <=? _)%N = true |- _ => apply N.leb_le in H
         | H : (_ =? _)%N = true |- _ => apply N.eqb_eq in H
         end;
  apply negb_true_iff;
  repeat (apply orb_false_iff; split);
  try (apply N.eqb_neq; lia);
  try (apply andb_false_iff;
       first [ left; apply N.leb_gt; lia | right; apply N.leb_gt; lia ]).

(** The keys of a literal dictionary are distinct. *)
Ltac distinct_keys :=
  vm_compute;
  repeat (constructor;
          [ let H := fresh in
            intros H; repeat (destruct H as [H | H]; [discriminate|]);
            exact H
          | ]);
  constructor.

(** * Proofs *)

Unset Implicit Arguments.

(** ** Strings and scanning *)

Lemma str_eqb_eq (a b : str) : str_eqb a b = true <-> a = b.
Proof.
  revert b; induction a as [|x a IH]; intros [|y b]; simpl;
    try (split; [discriminate | congruence]); try tauto.
  rewrite andb_true_iff, N.eqb_eq, IH. split.
  - intros [-> ->]; reflexivity.
  - intros H; inversion H; auto.
Qed.

Lemma str_eqb_refl (a : str) : str_eqb a a = true.
Proof. apply str_eqb_eq; reflexivity. Qed.

Lemma str_eqb_neq (a b : str) : str_eqb a b = false <-> a <> b.
Proof.
  rewrite <- str_eqb_eq. destruct (str_eqb a b); split; congruence.
Qed.

Lemma take_drop_while (p : char -> bool) (s : str) :
  take_while p s ++ drop_while p s = s.
Proof.
  induction s as [|c s IH]; simpl; [reflexivity|].
  destruct (p c); simpl; [rewrite IH|]; reflexivity.
Qed.

Lemma take_while_all (p : char -> bool) (s : str) :
  forallb p (take_while p s) = true.
Proof.
  induction s as [|c s IH]; simpl; [reflexivity|].
  destruct (p c) eqn:E; simpl; [rewrite E, IH|]; reflexivity.
Qed.

Lemma drop_while_app_all (A : Type) (p : A -> bool) (a b : list A) :
  forallb p a = true -> drop_while p (a ++ b) = drop_while p b.
Proof.
  induction a as [|c a IH]; simpl; [reflexivity|].
  rewrite andb_true_iff; intros [-> H]; auto.
Qed.

Lemma take_while_app_all (p : char -> bool) (a b : str) :
  forallb p a = true -> take_while p (a ++ b) = a ++ take_while p b.
Proof.
  induction a as [|c a IH]; simpl; [reflexivity|].
  rewrite andb_true_iff; intros [-> H]; rewrite IH; auto.
Qed.

Lemma forallb_rev (A : Type) (p : A -> bool) (l : list A) :
  forallb p (rev l) = forallb p l.
Proof.
  induction l as [|x l IH]; simpl; [reflexivity|].
  rewrite forallb_app, IH; simpl. rewrite andb_true_r, andb_comm; reflexivity.
Qed.

Lemma forallb_impl (A : Type) (p q : A -> bool) (l : list A) :
  (forall x, p x = true -> q x = true) ->
  forallb p l = true -> forallb q l = true.
Proof.
  intros Hpq; rewrite !forallb_forall; auto.
Qed.

Lemma rstrip_app_space (a w : str) :
  forallb is_space w = true -> rstrip (a ++ w) = rstrip a.
Proof.
  intros H; unfold rstrip. rewrite rev_app_distr, drop_while_app_all; auto.
  rewrite forallb_rev; exact H.
Qed.

Lemma rstrip_fixed (a : str) :
  forallb (fun c => negb (is_space c)) a = true -> rstrip a = a.
Proof.
  intros H; unfold rstrip. rewrite <- forallb_rev in H.
  destruct (rev a) as [|c l] eqn:E.
  - simpl. rewrite <- (rev_involutive a), E; reflexivity.
  - simpl in H |- *. apply andb_true_iff in H as [Hc _].
    apply negb_true_iff in Hc; rewrite Hc.
    rewrite <- E; apply rev_involutive.
Qed.

(** ** The path stack *)

Lemma adjust_snoc (i : nat) (st : list stack_entry) (p : stack_entry) :
  adjust i (st ++ [p]) = if i <=? snd p then adjust i st else st ++ [p].
Proof.
  unfold adjust; rewrite rev_app_distr; simpl.
  destruct (i <=? snd p); [reflexivity|].
  simpl; rewrite rev_involutive; reflexivity.
Qed.

Lemma increasing_snoc (st : list stack_entry) (p : stack_entry) :
  increasing st -> Forall (fun q => snd q < snd p) st ->
  increasing (st ++ [p]).
Proof.
  unfold increasing; induction st as [|q st IH]; simpl; intros Hs Hf.
  - repeat constructor.
  - inversion Hs; inversion Hf; subst. constructor; [auto|].
    rewrite map_app, Forall_app; split; [assumption|].
    repeat constructor; assumption.
Qed.

Lemma increasing_snoc_inv (st : list stack_entry) (p : stack_entry) :
  increasing (st ++ [p]) ->
  increasing st /\ Forall (fun q => snd q < snd p) st.
Proof.
  unfold increasing; induction st as [|q st IH]; simpl; intros Hs.
  - split; constructor.
  - inversion Hs as [|? ? Hs' Hall]; subst.
    destruct (IH Hs') as [H1 H2].
    rewrite map_app, Forall_app in Hall; destruct Hall as [Ha Hb].
    split; constructor; auto.
    inversion Hb; assumption.
Qed.

Lemma increasing_filter (f : stack_entry -> bool) (st : list stack_entry) :
  increasing st -> increasing (filter f st).
Proof.
  unfold increasing; induction st as [|q st IH]; simpl; intros Hs; [assumption|].
  inversion Hs as [|? ? Hs' Hall]; subst.
  destruct (f q); simpl; [|auto].
  constructor; [auto|].
  rewrite Forall_forall in *; intros x Hx.
  apply in_map_iff in Hx as (e & <- & He).
  apply filter_In in He as [He _].
  apply Hall, in_map; assumption.
Qed.

Lemma adjust_filter (i : nat) (st : list stack_entry) :
  increasing st -> adjust i st = filter (fun e => snd e <? i) st.
Proof.
  induction st as [|p st IH] using rev_ind; intros Hs; [reflexivity|].
  apply increasing_snoc_inv in Hs as [Hs Hlt].
  rewrite adjust_snoc, filter_app; simpl.
  destruct (i <=? snd p) eqn:E.
  - apply Nat.leb_le in E.
    replace (snd p <? i) with false by (symmetry; apply Nat.ltb_ge; lia).
    rewrite app_nil_r; auto.
  - apply Nat.leb_gt in E.
    replace (snd p <? i) with true by (symmetry; apply Nat.ltb_lt; lia).
    f_equal. symmetry; apply forallb_filter_id.
    apply forallb_forall; intros q Hq.
    rewrite Forall_forall in Hlt; specialize (Hlt q Hq).
    apply Nat.ltb_lt; lia.
Qed.

Lemma adjust_below (i : nat) (st : list stack_entry) :
  increasing st -> Forall (fun e => snd e < i) (adjust i st).
Proof.
  intros Hs; rewrite adjust_filter by assumption.
  apply Forall_forall; intros e He.
  apply filter_In in He as [_ He]; apply Nat.ltb_lt; assumption.
Qed.

Lemma adjust_prefix (i : nat) (st : list stack_entry) :
  exists popped, st = adjust i st ++ popped.
Proof.
  induction st as [|p st IH] using rev_ind.
  - exists []; reflexivity.
  - rewrite adjust_snoc. destruct (i <=? snd p).
    + destruct IH as [popped IH]. exists (popped ++ [p]).
      rewrite app_assoc, <- IH; reflexivity.
    + exists []; rewrite app_nil_r; reflexivity.
Qed.

Lemma stack_step_increasing (st : list stack_entry) (c : line_class) :
  increasing st -> increasing (stack_step st c).
Proof.
  intros Hs; unfold stack_step. destruct (key_of c) as [e|]; [|assumption].
  apply increasing_snoc.
  - rewrite adjust_filter by assumption. apply increasing_filter; assumption.
  - apply adjust_below; assumption.
Qed.

Lemma open_stack_snoc (cs : list line_class) (c : line_class) :
  open_stack (cs ++ [c]) =
  match key_of c with
  | Some e => filter (fun q => snd q <? snd e) (open_stack cs) ++ [e]
  | None => open_stack cs
  end.
Proof.
  induction cs as [|c0 cs IH]; simpl.
  - destruct (key_of c); reflexivity.
  - destruct (key_of c0) as [e0|] eqn:E0; [|exact IH].
    rewrite forallb_app; simpl. rewrite andb_true_r.
    rewrite IH; unfold deeper_than at 2.
    destruct (key_of c) as [[n i]|]; simpl.
    + destruct (forallb (deeper_than (snd e0)) cs); simpl;
        [destruct (snd e0 <? i)|]; reflexivity.
    + rewrite andb_true_r.
      destruct (forallb (deeper_than (snd e0)) cs); reflexivity.
Qed.

Lemma open_stack_increasing (cs : list line_class) :
  increasing (open_stack cs).
Proof.
  induction cs as [|c cs IH] using rev_ind; [constructor|].
  rewrite open_stack_snoc. destruct (key_of c) as [e|]; [|assumption].
  apply increasing_snoc; [apply increasing_filter; assumption|].
  apply Forall_forall; intros q Hq.
  apply filter_In in Hq as [_ Hq]; apply Nat.ltb_lt; assumption.
Qed.

Lemma fold_stack_open (cs : list line_class) :
  fold_left stack_step cs [] = open_stack cs.
Proof.
  induction cs as [|c cs IH] using rev_ind; [reflexivity|].
  rewrite fold_left_app; simpl. rewrite IH, open_stack_snoc.
  unfold stack_step. destruct (key_of c) as [e|]; [|reflexivity].
  rewrite adjust_filter by apply open_stack_increasing. reflexivity.
Qed.

(** ** The trace of the parser *)

Lemma leaf_path_join (stack : list stack_entry) (name : str) :
  leaf_path stack name = join [dot] (map fst stack ++ [name]).
Proof. destruct stack; reflexivity. Qed.

Lemma path_stack_process (st : parser_state) (n : nat) (line : str) :
  path_stack (process_line st n line)
  = stack_step (path_stack st) (classify line).
Proof.
  unfold process_line, stack_step; destruct (classify line); reflexivity.
Qed.

Lemma path_stack_run (ls : list str) : forall st n,
  path_stack (run st n ls)
  = fold_left stack_step (map classify ls) (path_stack st).
Proof.
  induction ls as [|l ls IH]; intros st n; simpl; [reflexivity|].
  rewrite IH, path_stack_process; reflexivity.
Qed.

Lemma stack_after_open (pre : list str) :
  stack_after pre = open_stack (map classify pre).
Proof.
  unfold stack_after; rewrite path_stack_run; apply fold_stack_open.
Qed.

Lemma stack_after_increasing (pre : list str) : increasing (stack_after pre).
Proof. rewrite stack_after_open; apply open_stack_increasing. Qed.

Lemma run_app (a b : list str) : forall st n,
  run st n (a ++ b) = run (run st n a) (n + length a) b.
Proof.
  induction a as [|l a IH]; intros st n; simpl.
  - rewrite Nat.add_0_r; reflexivity.
  - rewrite IH; f_equal; lia.
Qed.

Lemma block_ids_process_incl (st : parser_state) (n : nat) (line : str)
  (r : parsed_reference) :
  In r (block_ids st) -> In r (block_ids (process_line st n line)).
Proof.
  unfold process_line; destruct (classify line); simpl; auto.
  intros H; apply in_or_app; auto.
Qed.

Lemma block_ids_run_incl (ls : list str) : forall st n r,
  In r (block_ids st) -> In r (block_ids (run st n ls)).
Proof.
  induction ls as [|l ls IH]; intros st n r H; simpl; [assumption|].
  apply IH, block_ids_process_incl, H.
Qed.

(** Every leaf line emits its reference. *)
Lemma leaf_emits (pre post : list str) (line : str) (st : parser_state)
  (n indent : nat) (name id : str) :
  classify line = LeafReference indent name id ->
  In (id, leaf_path (adjust indent (path_stack (run st n pre))) name,
      n + length pre)
     (block_ids (run st n (pre ++ line :: post))).
Proof.
  intros Hc. rewrite run_app; simpl.
  apply block_ids_run_incl. unfold process_line; rewrite Hc; simpl.
  apply in_or_app; right; left; reflexivity.
Qed.

(** Every reference was emitted by a leaf line. *)
Lemma emitted_by_leaf (ls : list str) : forall st n r,
  In r (block_ids (run st n ls)) ->
  In r (block_ids st) \/
  exists pre line post indent name id,
    ls = pre ++ line :: post /\
    classify line = LeafReference indent name id /\
    r = (id, leaf_path (adjust indent (path_stack (run st n pre))) name,
         n + length pre).
Proof.
  induction ls as [|l ls IH]; intros st n r H; simpl in H; [auto|].
  apply IH in H as [H | (pre & line & post & indent & name & id & E & Hc & Hr)].
  - unfold process_line in H.
    destruct (classify l) as [| |indent name id| |] eqn:Hc; simpl in H; auto.
    apply in_app_or in H as [H | [H | []]]; [auto|].
    right; exists [], l, ls, indent, name, id.
    rewrite Nat.add_0_r; simpl; auto.
  - right; exists (l :: pre), line, post, indent, name, id.
    subst ls; split; [reflexivity|]. split; [assumption|].
    rewrite Hr; simpl. rewrite Nat.add_succ_r; reflexivity.
Qed.

Lemma parsed_reference_origin (text id path : str) (ln : nat) :
  In (id, path, ln) (parse_block_ids_from_text text) ->
  exists pre line post indent name,
    split_lines text = pre ++ line :: post /\
    ln = S (length pre) /\
    classify line = LeafReference indent name id /\
    path = join [dot] (map fst (adjust indent (stack_after pre)) ++ [name]).
Proof.
  intros H. apply emitted_by_leaf in H as [[] | H].
  destruct H as (pre & line & post & indent & name & id' & E & Hc & Hr).
  inversion Hr; subst.
  exists pre, line, post, indent, name; repeat split; auto.
  apply leaf_path_join.
Qed.

Lemma adjust_open_ancestors (pre : list str) (indent : nat) :
  adjust indent (stack_after pre) = open_ancestors (map classify pre) indent.
Proof.
  rewrite adjust_filter by apply stack_after_increasing.
  rewrite stack_after_open; reflexivity.
Qed.

(** ** Claims about the parser *)

(** C1 (as amended).  Every reference the parser emits comes from a leaf
    line, and its path is the dot-join of the names of the entries still
    open when the line arrives, followed by the line's own key.  The open
    entries are those of the earlier keyed lines, leaf references as well
    as path nodes, that are strictly shallower than the line and that no
    line in between has closed.  Every leaf line emits such a reference.
    For five keyed lines of indents 0, 2, 4, 2, 0 whose fourth is a leaf
    reference, the only open ancestor of the fourth is the entry of the
    first line (indent 0), and its path is that name, a dot, its key. *)
Theorem leaf_path_is_open_ancestors :
  (forall (text id path : str) (ln : nat),
      In (id, path, ln) (parse_block_ids_from_text text) ->
      exists pre line post indent name,
        split_lines text = pre ++ line :: post /\
        ln = S (length pre) /\
        classify line = LeafReference indent name id /\
        path = join [dot]
                 (map fst (open_ancestors (map classify pre) indent)
                  ++ [name])) /\
  (forall (text : str) pre line post indent name id,
      split_lines text = pre ++ line :: post ->
      classify line = LeafReference indent name id ->
      In (id,
          join [dot]
            (map fst (open_ancestors (map classify pre) indent) ++ [name]),
          S (length pre))
         (parse_block_ids_from_text text)) /\
  (forall (text : str) l1 l2 l3 l4 l5 e1 e2 e3 e5 n4 id4,
      split_lines text = [l1; l2; l3; l4; l5] ->
      key_of (classify l1) = Some e1 -> snd e1 = 0 ->
      key_of (classify l2) = Some e2 -> snd e2 = 2 ->
      key_of (classify l3) = Some e3 -> snd e3 = 4 ->
      classify l4 = LeafReference 2 n4 id4 ->
      key_of (classify l5) = Some e5 -> snd e5 = 0 ->
      open_ancestors (map classify [l1; l2; l3]) 2 = [e1] /\
      In (id4, fst e1 ++ [dot] ++ n4, 4) (parse_block_ids_from_text text)).
Proof.
  assert (Hemit : forall (text : str) pre line post indent name id,
      split_lines text = pre ++ line :: post ->
      classify line = LeafReference indent name id ->
      In (id,
          join [dot]
            (map fst (open_ancestors (map classify pre) indent) ++ [name]),
          S (length pre))
         (parse_block_ids_from_text text)).
  { intros text pre line post indent name id E Hc.
    unfold parse_block_ids_from_text; rewrite E.
    rewrite <- adjust_open_ancestors, <- leaf_path_join.
    apply (leaf_emits pre post line initial_state 1 indent name id Hc). }
  split; [|split; [exact Hemit|]].
  - intros text id path ln H.
    apply parsed_reference_origin in H
      as (pre & line & post & indent & name & E & Hn & Hc & Hp).
    exists pre, line, post, indent, name; repeat split; auto.
    rewrite <- adjust_open_ancestors; exact Hp.
  - intros text l1 l2 l3 l4 l5 e1 e2 e3 e5 n4 id4 E K1 D1 K2 D2 K3 D3 C4 K5 D5.
    assert (Hopen : open_ancestors (map classify [l1; l2; l3]) 2 = [e1]).
    { unfold open_ancestors; simpl. unfold deeper_than.
      rewrite K1, K2, K3; simpl.
      destruct e1 as [a1 d1], e2 as [a2 d2], e3 as [a3 d3]; simpl in *.
      subst; reflexivity. }
    split; [exact Hopen|].
    specialize (Hemit text [l1; l2; l3] l4 [l5] 2 n4 id4 E C4).
    rewrite Hopen in Hemit; exact Hemit.
Qed.

Lemma leaf_path_is_open_ancestors_witness :
  (exists pre line post indent name,
      split_lines two_leaves = pre ++ line :: post /\
      2 = S (length pre) /\
      classify line = LeafReference indent name hex_b /\
      str_of "a.b"
      = join [dot]
          (map fst (open_ancestors (map classify pre) indent) ++ [name])) /\
  In (hex_a, str_of "root.right", 4) (parse_block_ids_from_text five_lines).
Proof.
  destruct leaf_path_is_open_ancestors as (Hgen & _ & Hfive). split.
  - apply (Hgen two_leaves hex_b (str_of "a.b") 2).
    vm_compute; right; left; reflexivity.
  - refine (proj2 (Hfive five_lines (str_of "root:") (str_of "  left:")
                     (str_of "    deep: 0123456789abcdef01234567")
                     (str_of "  right: 67d2804ef38a8bfdf0172bce")
                     (str_of "other:")
                     (str_of "root", 0) (str_of "left", 2) (str_of "deep", 4)
                     (str_of "other", 0) (str_of "right") hex_a
                     _ _ _ _ _ _ _ _ _ _));
      vm_compute; reflexivity.
Defined.

(** C1 as stated fails: with ["a: <id>"] followed by the deeper
    ["  b: <id>"] the second reference has the path [a.b], although no
    path-node line precedes it, so the dot-join of the open path-node
    ancestors and the key is just [b].  And in the five-line text the one
    ancestor segment of the fourth line is the indent-0 line [root], not
    the first indent-2 line [left]. *)
Lemma leaf_path_only_path_nodes_counterexample :
  In (hex_b, str_of "a.b", 2) (parse_block_ids_from_text two_leaves) /\
  split_lines two_leaves
  = [str_of "a: 67d2804ef38a8bfdf0172bce"]
      ++ str_of "  b: 0123456789abcdef01234567" :: [] /\
  classify (str_of "  b: 0123456789abcdef01234567")
  = LeafReference 2 (str_of "b") hex_b /\
  join [dot]
    (map fst
       (open_path_nodes
          (map classify [str_of "a: 67d2804ef38a8bfdf0172bce"]) 2)
     ++ [str_of "b"])
  = str_of "b" /\
  str_of "a.b" <> str_of "b" /\
  parse_block_ids_from_text five_lines
  = [(hex_b, str_of "root.left.deep", 3); (hex_a, str_of "root.right", 4)] /\
  str_of "root.right" <> str_of "left.right".
Proof.
  repeat split; try (vm_compute; reflexivity); try (vm_compute; discriminate).
  vm_compute; right; left; reflexivity.
Qed.

Lemma increasing_app_l (s t : list stack_entry) :
  increasing (s ++ t) -> increasing s.
Proof.
  induction t as [|p t IH] using rev_ind; intros H.
  - rewrite app_nil_r in H; assumption.
  - rewrite app_assoc in H. apply increasing_snoc_inv in H as [H _]; auto.
Qed.

(** C3.  Every reference the parser emits has a path made of the names of
    the stack entries left after the adjustment, all of them strictly
    shallower than the reference's own indent and all of them from the
    bottom of the stack as it stood (nothing is reordered or inserted),
    followed by its key.  The depths of the stack increase strictly from
    bottom to top after any number of lines, and so do those of every
    bottom part of it, which are the stacks the popping loop goes
    through. *)
Theorem ancestors_strictly_shallower (text id path : str) (ln : nat)
  (H : In (id, path, ln) (parse_block_ids_from_text text)) :
  (exists pre line post indent name,
      split_lines text = pre ++ line :: post /\
      ln = S (length pre) /\
      classify line = LeafReference indent name id /\
      path = join [dot]
               (map fst (adjust indent (stack_after pre)) ++ [name]) /\
      Forall (fun e => snd e < indent) (adjust indent (stack_after pre)) /\
      exists popped,
        stack_after pre = adjust indent (stack_after pre) ++ popped) /\
  (forall k, increasing (stack_after (firstn k (split_lines text)))) /\
  (forall k s t,
      stack_after (firstn k (split_lines text)) = s ++ t -> increasing s).
Proof.
  split; [|split].
  - apply parsed_reference_origin in H
      as (pre & line & post & indent & name & E & Hn & Hc & Hp).
    exists pre, line, post, indent, name; repeat split; auto.
    + apply adjust_below, stack_after_increasing.
    + apply adjust_prefix.
  - intros k; apply stack_after_increasing.
  - intros k s t E. apply increasing_app_l with (t := t).
    rewrite <- E; apply stack_after_increasing.
Qed.

Lemma ancestors_strictly_shallower_witness :
  (exists pre line post indent name,
      split_lines spec_example = pre ++ line :: post /\
      2 = S (length pre) /\
      classify line = LeafReference indent name hex_a /\
      str_of "hsptlzInfo.hsplzInfoInquiry"
      = join [dot] (map fst (adjust indent (stack_after pre)) ++ [name]) /\
      Forall (fun e => snd e < indent) (adjust indent (stack_after pre)) /\
      exists popped,
        stack_after pre = adjust indent (stack_after pre) ++ popped) /\
  (forall k, increasing (stack_after (firstn k (split_lines spec_example)))) /\
  (forall k s t,
      stack_after (firstn k (split_lines spec_example)) = s ++ t ->
      increasing s).
Proof.
  apply (ancestors_strictly_shallower spec_example hex_a
           (str_of "hsptlzInfo.hsplzInfoInquiry") 2).
  vm_compute; left; reflexivity.
Defined.

(** C2 (as amended).  After a leaf-reference line the path stack is the
    stack obtained by popping every entry at least as deep as the leaf,
    followed by the leaf's own entry: the leaf is pushed.  A leaf line
    that comes next and is indented strictly deeper therefore has the
    first leaf as the last ancestor of its path. *)
Theorem leaf_is_pushed (st : parser_state) (n : nat) (line : str)
  (indent : nat) (name id : str)
  (H : classify line = LeafReference indent name id) :
  path_stack (process_line st n line)
  = adjust indent (path_stack st) ++ [(name, indent)] /\
  block_ids (process_line st n line)
  = block_ids st
    ++ [(id, join [dot] (map fst (adjust indent (path_stack st)) ++ [name]),
         n)] /\
  forall line' indent' name' id',
    classify line' = LeafReference indent' name' id' ->
    indent < indent' ->
    block_ids (process_line (process_line st n line) (S n) line')
    = block_ids st
      ++ [(id, join [dot] (map fst (adjust indent (path_stack st)) ++ [name]),
           n);
          (id',
           join [dot]
             (map fst (adjust indent (path_stack st)) ++ [name; name']),
           S n)].
Proof.
  assert (E : process_line st n line =
              {| path_stack := adjust indent (path_stack st) ++ [(name, indent)];
                 block_ids := block_ids st
                   ++ [(id, leaf_path (adjust indent (path_stack st)) name,
                        n)] |}).
  { unfold process_line; rewrite H; reflexivity. }
  rewrite E; simpl. rewrite leaf_path_join.
  repeat split.
  intros line' indent' name' id' H' Hlt.
  unfold process_line at 1; rewrite H'; simpl.
  rewrite adjust_snoc; simpl.
  replace (indent' <=? indent) with false
    by (symmetry; apply Nat.leb_gt; assumption).
  rewrite leaf_path_join, map_app, <- !app_assoc; simpl.
  reflexivity.
Qed.

Lemma leaf_is_pushed_witness :
  path_stack (process_line initial_state 1
                (str_of "a: 67d2804ef38a8bfdf0172bce"))
  = adjust 0 (path_stack initial_state) ++ [(str_of "a", 0)] /\
  block_ids (process_line initial_state 1
               (str_of "a: 67d2804ef38a8bfdf0172bce"))
  = block_ids initial_state
    ++ [(hex_a,
         join [dot]
           (map fst (adjust 0 (path_stack initial_state)) ++ [str_of "a"]),
         1)] /\
  forall line' indent' name' id',
    classify line' = LeafReference indent' name' id' ->
    0 < indent' ->
    block_ids (process_line
                 (process_line initial_state 1
                    (str_of "a: 67d2804ef38a8bfdf0172bce")) 2 line')
    = block_ids initial_state
      ++ [(hex_a,
           join [dot]
             (map fst (adjust 0 (path_stack initial_state)) ++ [str_of "a"]),
           1);
          (id',
           join [dot]
             (map fst (adjust 0 (path_stack initial_state))
              ++ [str_of "a"; name']),
           2)].
Proof.
  apply (leaf_is_pushed initial_state 1
           (str_of "a: 67d2804ef38a8bfdf0172bce") 0 (str_of "a") hex_a).
  vm_compute; reflexivity.
Defined.

(** C2 as stated fails: after the leaf line ["a: <id>"] on the empty
    stack, popping alone leaves the empty stack, but the parser's stack
    holds the leaf's entry; and the deeper leaf line that follows gets the
    path [a.b], with the leaf [a] as its ancestor. *)
Lemma leaf_not_pushed_counterexample :
  classify (str_of "a: 67d2804ef38a8bfdf0172bce")
  = LeafReference 0 (str_of "a") hex_a /\
  adjust 0 (path_stack initial_state) = [] /\
  path_stack (process_line initial_state 1
                (str_of "a: 67d2804ef38a8bfdf0172bce"))
  = [(str_of "a", 0)] /\
  path_stack (process_line initial_state 1
                (str_of "a: 67d2804ef38a8bfdf0172bce"))
  <> adjust 0 (path_stack initial_state) /\
  parse_block_ids_from_text two_leaves
  = [(hex_a, str_of "a", 1); (hex_b, str_of "a.b", 2)].
Proof.
  repeat split; try (vm_compute; reflexivity). vm_compute; discriminate.
Qed.

(** ** The leaf pattern and the value part *)

Lemma space_not_colon (c : char) :
  is_space c = true -> negb (c =? colon)%N = true.
Proof. char_class. Qed.

Lemma space_not_hash (c : char) :
  is_space c = true -> negb (c =? hash)%N = true.
Proof. char_class. Qed.

Lemma key_char_not_colon (c : char) :
  key_char_i c = true -> negb (c =? colon)%N = true.
Proof. char_class. Qed.

Lemma hex_not_hash (c : char) :
  is_hex c = true -> negb (c =? hash)%N = true.
Proof. char_class. Qed.

Lemma hex_not_space (c : char) :
  is_hex c = true -> negb (is_space c) = true.
Proof. char_class. Qed.

Lemma comment_tail_spaces (r : str) :
  comment_tail r = true ->
  take_while (fun c => negb (c =? hash)%N) r = take_while is_space r.
Proof.
  unfold comment_tail; induction r as [|c r IH]; simpl; [reflexivity|].
  destruct (is_space c) eqn:Es.
  - intros H; rewrite (space_not_hash c Es), IH; auto.
  - rewrite andb_true_iff; intros [Hc _]. rewrite Hc; reflexivity.
Qed.

(** What a match of the leaf pattern says about the line. *)
Lemma block_id_match_value (line : str) (indent : nat) (name id : str) :
  block_id_match line = Some (indent, name, id) ->
  rstrip (take_while (fun c => negb (c =? hash)%N)
                     (lstrip (after_colon line))) = id /\
  is_block_id id = true.
Proof.
  unfold block_id_match.
  pose proof (take_drop_while is_space line) as E1.
  pose proof (take_drop_while key_char_i (drop_while is_space line)) as E2.
  pose proof (take_while_all is_space line) as S1.
  pose proof (take_while_all key_char_i (drop_while is_space line)) as S2.
  destruct (take_while key_char_i (drop_while is_space line))
    as [|k0 key] eqn:Ek; [discriminate|].
  destruct (drop_while key_char_i (drop_while is_space line))
    as [|c r3] eqn:Er; [discriminate|].
  destruct (key_start_i k0 && (c =? colon)%N) eqn:Hk; [|discriminate].
  apply andb_true_iff in Hk as [_ Hc]; apply N.eqb_eq in Hc; subst c.
  set (r4 := drop_while is_space r3).
  destruct ((length (firstn 24 r4) =? 24) && forallb is_hex (firstn 24 r4)
            && comment_tail (skipn 24 r4)) eqn:Hm; [|discriminate].
  intros H; inversion H; subst indent name id; clear H.
  apply andb_true_iff in Hm as [Hm Ht].
  split; [|exact Hm].
  apply andb_true_iff in Hm as [_ Hh].
  assert (Ea : after_colon line = r3).
  { unfold after_colon. rewrite <- E1, <- E2.
    rewrite app_assoc, drop_while_app_all.
    - simpl; reflexivity.
    - rewrite forallb_app; apply andb_true_iff; split.
      + eapply forallb_impl; [|exact S1]. apply space_not_colon.
      + eapply forallb_impl; [|exact S2]. apply key_char_not_colon. }
  rewrite Ea. unfold lstrip; fold r4.
  rewrite <- (firstn_skipn 24 r4) at 1.
  rewrite take_while_app_all
    by (eapply forallb_impl; [|exact Hh]; apply hex_not_hash).
  rewrite comment_tail_spaces by exact Ht.
  rewrite rstrip_app_space by apply take_while_all.
  apply rstrip_fixed. eapply forallb_impl; [|exact Hh]. apply hex_not_space.
Qed.

Lemma classify_leaf_match (line : str) (indent : nat) (name id : str) :
  classify line = LeafReference indent name id ->
  block_id_match (rstrip line) = Some (indent, name, id).
Proof.
  unfold classify. destruct (strip (rstrip line)) as [|c r]; [discriminate|].
  destruct (c =? hash)%N; [discriminate|].
  destruct (block_id_match (rstrip line)) as [[[i n] b]|].
  - intros H; inversion H; reflexivity.
  - destruct (key_value_match (rstrip line)) as [[i n]|]; discriminate.
Qed.

Lemma leaf_value_part (line : str) (indent : nat) (name id : str) :
  classify line = LeafReference indent name id ->
  value_part line = id /\ is_block_id id = true.
Proof.
  intros H. apply classify_leaf_match in H.
  apply block_id_match_value in H. exact H.
Qed.

(** C8.  A line whose value part is not exactly 24 hexadecimal digits
    never produces a reference: processing it leaves the list of
    references as it was, in any state; and every reference the parser
    emits stands on a line whose value part is the 24-digit identifier of
    the reference.  The line [foo: 123] is classified unrecognized and
    processing it changes neither the stack nor the references, in any
    state; the model has no failing branch, so nothing is raised. *)
Theorem malformed_value_gives_no_reference :
  (forall (st : parser_state) (n : nat) (line : str),
      is_block_id (value_part line) = false ->
      block_ids (process_line st n line) = block_ids st) /\
  (forall (text id path : str) (ln : nat),
      In (id, path, ln) (parse_block_ids_from_text text) ->
      exists line,
        nth_error (split_lines text) (ln - 1) = Some line /\
        value_part line = id /\ is_block_id id = true) /\
  classify (str_of "foo: 123") = Unrecognized /\
  (forall (st : parser_state) (n : nat),
      process_line st n (str_of "foo: 123") = st) /\
  parse_block_ids_from_text (str_of "foo: 123") = [].
Proof.
  repeat split.
  - intros st n line Hv. unfold process_line.
    destruct (classify line) as [| |indent name id| |] eqn:Hc; try reflexivity.
    apply leaf_value_part in Hc as [Ev Hid]. congruence.
  - intros text id path ln H.
    apply parsed_reference_origin in H
      as (pre & line & post & indent & name & E & Hn & Hc & _).
    exists line. rewrite E, Hn; simpl. rewrite Nat.sub_0_r.
    rewrite nth_error_app2, Nat.sub_diag by lia.
    split; [reflexivity|]. eapply leaf_value_part; exact Hc.
Qed.

Lemma malformed_value_gives_no_reference_witness :
  block_ids (process_line initial_state 1
               (str_of "foo: 67d2804ef38a8bfdf0172bce67"))
  = block_ids initial_state /\
  exists line,
    nth_error (split_lines spec_example) (2 - 1) = Some line /\
    value_part line = hex_a /\ is_block_id hex_a = true.
Proof.
  destruct malformed_value_gives_no_reference as (Hno & Hemit & _). split.
  - apply Hno. vm_compute; reflexivity.
  - apply (Hemit spec_example hex_a (str_of "hsptlzInfo.hsplzInfoInquiry") 2).
    vm_compute; left; reflexivity.
Defined.

(** ** Dictionaries *)

Lemma dict_get_set (V : Type) (k k' : str) (v : V) (d : dict V) :
  dict_get k (dict_set k' v d)
  = if str_eqb k k' then Some v else dict_get k d.
Proof.
  induction d as [|[k0 v0] d IH]; simpl.
  - destruct (str_eqb k k'); reflexivity.
  - destruct (str_eqb k' k0) eqn:E0; simpl.
    + apply str_eqb_eq in E0; subst k0.
      destruct (str_eqb k k'); reflexivity.
    + rewrite IH. destruct (str_eqb k k0) eqn:E1; [|reflexivity].
      apply str_eqb_eq in E1; subst k0.
      destruct (str_eqb k k') eqn:E2; [|reflexivity].
      apply str_eqb_eq in E2; subst k'. rewrite str_eqb_refl in E0.
      discriminate.
Qed.

Lemma dict_set_fresh (V : Type) (k : str) (v : V) (d : dict V) :
  ~ In k (dict_keys d) -> dict_set k v d = d ++ [(k, v)].
Proof.
  induction d as [|[k0 v0] d IH]; simpl; intros H; [reflexivity|].
  destruct (str_eqb k k0) eqn:E.
  - apply str_eqb_eq in E; subst; tauto.
  - rewrite IH; tauto.
Qed.

Lemma dict_set_keys (V : Type) (k : str) (v : V) (d : dict V) :
  dict_get k d <> None -> dict_keys (dict_set k v d) = dict_keys d.
Proof.
  induction d as [|[k0 v0] d IH]; simpl; intros H; [congruence|].
  destruct (str_eqb k k0) eqn:E; simpl.
  - apply str_eqb_eq in E; subst; reflexivity.
  - rewrite IH; auto.
Qed.

Lemma dict_get_map (A V : Type) (g : str * A -> V) (l : list (str * A))
  (e : str * A) :
  NoDup (map fst l) -> In e l ->
  dict_get (fst e) (map (fun x => (fst x, g x)) l) = Some (g e).
Proof.
  induction l as [|x l IH]; simpl; intros Hn Hin; [tauto|].
  inversion Hn as [|? ? Hx Hn']; subst.
  destruct Hin as [-> | Hin].
  - rewrite str_eqb_refl; reflexivity.
  - destruct (str_eqb (fst e) (fst x)) eqn:E; [|auto].
    apply str_eqb_eq in E. exfalso; apply Hx.
    rewrite <- E; apply in_map; assumption.
Qed.

Lemma dict_keys_map (A V : Type) (g : str * A -> V) (l : list (str * A)) :
  dict_keys (map (fun x => (fst x, g x)) l) = map fst l.
Proof.
  unfold dict_keys; rewrite map_map; reflexivity.
Qed.

(** A loop that stores one value per item of a dictionary builds the
    dictionary of these values, in the same order. *)
Lemma fold_dict_map (A V : Type) (step : dict V -> str * A -> dict V)
  (g : str * A -> V) :
  (forall r e, step r e = dict_set (fst e) (g e) r) ->
  forall l, NoDup (map fst l) ->
  forall acc, (forall k, In k (map fst l) -> ~ In k (dict_keys acc)) ->
  fold_left step l acc = acc ++ map (fun x => (fst x, g x)) l.
Proof.
  intros Hstep l; induction l as [|x l IH]; simpl; intros Hn acc Hd.
  - rewrite app_nil_r; reflexivity.
  - inversion Hn as [|? ? Hx Hn']; subst.
    rewrite Hstep, dict_set_fresh by (apply Hd; auto).
    rewrite IH; [rewrite <- app_assoc; reflexivity | assumption |].
    intros k Hk. unfold dict_keys; rewrite map_app, in_app_iff; simpl.
    intros [H | [H | []]]; [apply (Hd k); auto | subst; auto].
Qed.

(** ** The loops over the environments *)

Lemma find_matching_blocks_map (env_scenarios : dict snapshot)
  (source_env scenario_name block_name : str) :
  NoDup (dict_keys env_scenarios) ->
  find_matching_blocks_in_other_envs env_scenarios source_env
    scenario_name block_name
  = map (fun e => (fst e, name_lookup (snd e) scenario_name block_name))
        env_scenarios.
Proof.
  intros Hn. unfold find_matching_blocks_in_other_envs.
  rewrite fold_dict_map
    with (g := fun e => name_lookup (snd e) scenario_name block_name);
    auto.
  intros r [e s]; unfold name_lookup; simpl.
  destruct (truthy s); reflexivity.
Qed.

Lemma search_blocks_multi_env_map (lower : str -> str)
  (env_scenarios : dict snapshot) (search_term : str) :
  NoDup (dict_keys env_scenarios) ->
  search_blocks_multi_env lower env_scenarios search_term
  = map (fun e => (fst e,
                   if truthy (snd e)
                   then search_blocks lower (scenarios_of (snd e)) search_term
                   else []))
        env_scenarios.
Proof.
  intros Hn. unfold search_blocks_multi_env.
  rewrite fold_dict_map
    with (g := fun e =>
                 if truthy (snd e)
                 then search_blocks lower (scenarios_of (snd e)) search_term
                 else []);
    auto.
  intros r [e s]; simpl. destruct (truthy s); reflexivity.
Qed.

Lemma find_step_eq (block_id : str) (acc : dict (option block_info))
  (src : option block_info) (env_name : str) (scenarios : snapshot) :
  find_step block_id (acc, src) (env_name, scenarios)
  = match id_lookup scenarios block_id, src with
    | Some b, None =>
        (dict_set env_name (Some (mark_env env_name b)) acc,
         Some (mark_env env_name b))
    | v, _ => (dict_set env_name v acc, src)
    end.
Proof.
  unfold find_step, id_lookup. destruct (truthy scenarios).
  - destruct (search_blocks_by_id (scenarios_of scenarios) block_id);
      destruct src; reflexivity.
  - destruct src; reflexivity.
Qed.

Lemma is_source_absent (si : block_info) (envs : dict snapshot) (e : str) :
  (forall e0, bi_env si = Some e0 -> ~ In e0 (dict_keys envs)) ->
  In e (dict_keys envs) -> is_source (Some si) e = false.
Proof.
  intros H He; unfold is_source. destruct (bi_env si) as [e0|]; [|reflexivity].
  apply str_eqb_neq; intros ->. exact (H e eq_refl He).
Qed.

(** The first loop of the cross-environment query. *)
Lemma find_loop (block_id : str) (envs : dict snapshot) :
  NoDup (dict_keys envs) ->
  forall acc src0,
    (forall k, In k (dict_keys envs) -> ~ In k (dict_keys acc)) ->
    (forall si e0, src0 = Some si -> bi_env si = Some e0 ->
                   ~ In e0 (dict_keys envs)) ->
    let src := match src0 with
               | Some _ => src0
               | None => first_source envs block_id
               end in
    fold_left (find_step block_id) envs (acc, src0)
    = (acc ++ map (fun x => (fst x, found_entry src block_id (fst x) (snd x)))
                  envs,
       src).
Proof.
  induction envs as [|[e s] envs IH]; intros Hn acc src0 Hd Hs.
  - simpl. rewrite app_nil_r. destruct src0; reflexivity.
  - inversion Hn as [|? ? He Hn']; subst.
    assert (Hfresh : ~ In e (dict_keys acc)) by (apply Hd; simpl; auto).
    assert (Hd' : forall v k, In k (dict_keys envs) ->
                              ~ In k (dict_keys (acc ++ [(e, v)]))).
    { intros v k Hk. unfold dict_keys; rewrite map_app, in_app_iff; simpl.
      intros [H | [H | []]]; [apply (Hd k); simpl; auto | subst; auto]. }
    assert (Hs' : forall si e0, src0 = Some si -> bi_env si = Some e0 ->
                                ~ In e0 (dict_keys envs)).
    { intros si e0 E1 E2 Hin. apply (Hs si e0 E1 E2); simpl; auto. }
    cbn [fold_left map fst snd first_source].
    rewrite find_step_eq. unfold found_entry at 1.
    destruct (id_lookup s block_id) as [b|] eqn:El.
    + destruct src0 as [si|].
      * rewrite dict_set_fresh by assumption.
        rewrite IH; auto.
        rewrite (is_source_absent si ((e, s) :: envs) e);
          [|intros e0; apply Hs; reflexivity | simpl; auto].
        rewrite <- app_assoc; reflexivity.
      * rewrite dict_set_fresh by assumption.
        rewrite IH; auto.
        -- cbn [is_source mark_env bi_env]. rewrite str_eqb_refl.
           rewrite <- app_assoc; reflexivity.
        -- intros si' e0 E1 E2. inversion E1; subst si'.
           simpl in E2; inversion E2; subst e0. exact He.
    + replace (match src0 with
               | Some _ => (dict_set e (@None block_info) acc, src0)
               | None => (dict_set e None acc, src0)
               end) with (dict_set e (@None block_info) acc, src0)
        by (destruct src0; reflexivity).
      rewrite dict_set_fresh by assumption.
      rewrite IH; auto.
      rewrite <- app_assoc; reflexivity.
Qed.

(** The merge loop never meets a missing key, keeps the keys of
    [found_blocks] and merges the entries of the names it visits. *)
Lemma merge_matching_spec (mb : dict (option block_info)) :
  forall ks fb,
    NoDup ks ->
    (forall k, In k ks -> dict_get k mb <> None /\ dict_get k fb <> None) ->
    exists r,
      merge_matching ks mb fb = Some r /\
      dict_keys r = dict_keys fb /\
      (forall q, In q ks ->
                 dict_get q r = merge_entry (dict_get q mb) (dict_get q fb)) /\
      (forall q, ~ In q ks -> dict_get q r = dict_get q fb).
Proof.
  induction ks as [|k ks IH]; intros fb Hn Hk; simpl.
  - exists fb; repeat split; auto. intros q [].
  - inversion Hn as [|? ? Hnk Hn']; subst.
    destruct (Hk k (or_introl eq_refl)) as [Hm Hf].
    assert (Hk' : forall v k', In k' ks ->
              dict_get k' mb <> None /\ dict_get k' (dict_set k v fb) <> None).
    { intros v k' Hin. destruct (Hk k' (or_intror Hin)) as [H1 H2].
      split; [assumption|]. rewrite dict_get_set.
      destruct (str_eqb k' k); [discriminate | assumption]. }
    destruct (dict_get k mb) as [[m|]|] eqn:Em; [| |congruence].
    + destruct (dict_get k fb) as [[f|]|] eqn:Ef; [| |congruence].
      * destruct (IH fb Hn' (fun k' H => Hk k' (or_intror H)))
          as (r & Hr & Hkeys & Hin & Hout).
        exists r. split; [exact Hr|]. split; [exact Hkeys|]. split.
        -- intros q [<- | Hq]; [|auto].
           rewrite Hout, Em, Ef by assumption; reflexivity.
        -- intros q Hq; apply Hout; tauto.
      * destruct (IH (dict_set k (Some m) fb) Hn' (Hk' (Some m)))
          as (r & Hr & Hkeys & Hin & Hout).
        exists r. split; [exact Hr|]. split; [|split].
        -- rewrite Hkeys; apply dict_set_keys; congruence.
        -- intros q [<- | Hq].
           ++ rewrite Hout, dict_get_set, str_eqb_refl, Em, Ef by assumption.
              reflexivity.
           ++ rewrite Hin, dict_get_set by assumption.
              destruct (str_eqb q k) eqn:E; [|reflexivity].
              apply str_eqb_eq in E; subst; contradiction.
        -- intros q Hq. rewrite Hout, dict_get_set by tauto.
           destruct (str_eqb q k) eqn:E; [|reflexivity].
           apply str_eqb_eq in E; subst; tauto.
    + destruct (IH fb Hn' (fun k' H => Hk k' (or_intror H)))
        as (r & Hr & Hkeys & Hin & Hout).
      exists r. split; [exact Hr|]. split; [exact Hkeys|]. split.
      * intros q [<- | Hq]; [|auto].
        rewrite Hout, Em by assumption.
        destruct (dict_get k fb) as [[f|]|]; reflexivity.
      * intros q Hq; apply Hout; tauto.
Qed.

(** The cross-environment query answers for exactly the environments it
    was given, and for each of them with [expected_entry]. *)
Lemma search_by_block_id_multi_env_spec (envs : dict snapshot)
  (block_id : str) :
  NoDup (dict_keys envs) ->
  exists r,
    search_by_block_id_multi_env envs block_id = Some r /\
    dict_keys r = dict_keys envs /\
    forall e s, In (e, s) envs ->
                dict_get e r = Some (expected_entry envs block_id e s).
Proof.
  intros Hn. unfold search_by_block_id_multi_env.
  assert (Hl := find_loop block_id envs Hn [] None).
  cbv zeta in Hl. unfold dict in Hl |- *.
  rewrite Hl by (simpl; auto; discriminate). clear Hl.
  cbn [app]. set (src := first_source envs block_id).
  set (fb := map (fun x => (fst x, found_entry src block_id (fst x) (snd x)))
                 envs).
  assert (Hfk : dict_keys fb = dict_keys envs) by apply dict_keys_map.
  assert (Hfg : forall e s, In (e, s) envs ->
                  dict_get e fb = Some (found_entry src block_id e s)).
  { intros e s Hin.
    apply (dict_get_map _ _
             (fun x => found_entry src block_id (fst x) (snd x))
             envs (e, s) Hn Hin). }
  destruct src as [si|] eqn:Esrc.
  - rewrite find_matching_blocks_map by assumption.
    set (mb := map (fun e => (fst e,
                     name_lookup (snd e) (bi_scenario_name si)
                                 (bi_block_name si))) envs).
    assert (Hmk : dict_keys mb = dict_keys envs) by apply dict_keys_map.
    assert (Hmg : forall e s, In (e, s) envs ->
              dict_get e mb
              = Some (name_lookup s (bi_scenario_name si) (bi_block_name si))).
    { intros e s Hin.
      apply (dict_get_map _ _
               (fun x => name_lookup (snd x) (bi_scenario_name si)
                                     (bi_block_name si))
               envs (e, s) Hn Hin). }
    destruct (merge_matching_spec mb (dict_keys mb) fb)
      as (r & Hr & Hkeys & Hin & _).
    + rewrite Hmk; exact Hn.
    + intros k Hk. rewrite Hmk in Hk.
      apply in_map_iff in Hk as ([e s] & <- & Hes); simpl.
      rewrite (Hmg e s Hes), (Hfg e s Hes); split; discriminate.
    + exists r; split; [exact Hr|]. split; [congruence|].
      intros e s Hes. rewrite Hin.
      * rewrite (Hmg e s Hes), (Hfg e s Hes).
        unfold expected_entry; fold src; rewrite Esrc.
        destruct (found_entry (Some si) block_id e s);
          destruct (name_lookup s (bi_scenario_name si) (bi_block_name si));
          reflexivity.
      * rewrite Hmk. apply in_map_iff; exists (e, s); auto.
  - exists fb; split; [reflexivity|]. split; [exact Hfk|].
    intros e s Hes. rewrite (Hfg e s Hes).
    unfold expected_entry; fold src; rewrite Esrc.
    destruct (found_entry None block_id e s); reflexivity.
Qed.

Lemma first_source_none (envs : dict snapshot) (block_id : str) :
  (forall e s, In (e, s) envs -> id_lookup s block_id = None) ->
  first_source envs block_id = None.
Proof.
  induction envs as [|[e s] envs IH]; simpl; intros H; [reflexivity|].
  rewrite (H e s) by auto. apply IH; intros e' s' Hin; apply (H e' s'); auto.
Qed.

Lemma first_source_at (before after : dict snapshot) (a : str)
  (sa : snapshot) (block_id : str) (ba : block_info) :
  (forall e s, In (e, s) before -> id_lookup s block_id = None) ->
  id_lookup sa block_id = Some ba ->
  first_source (before ++ (a, sa) :: after) block_id = Some (mark_env a ba).
Proof.
  induction before as [|[e s] before IH]; simpl; intros H Ha.
  - rewrite Ha; reflexivity.
  - rewrite (H e s) by auto. apply IH; [|assumption].
    intros e' s' Hin; apply (H e' s'); auto.
Qed.

Lemma id_lookup_falsy (s : snapshot) (block_id : str) :
  truthy s = false -> id_lookup s block_id = None.
Proof. unfold id_lookup; intros ->; reflexivity. Qed.

Lemma name_lookup_falsy (s : snapshot) (sn bn : str) :
  truthy s = false -> name_lookup s sn bn = None.
Proof. unfold name_lookup; intros ->; reflexivity. Qed.

Lemma expected_entry_falsy (envs : dict snapshot) (block_id e : str)
  (s : snapshot) :
  truthy s = false -> expected_entry envs block_id e s = None.
Proof.
  intros H; unfold expected_entry, found_entry.
  rewrite id_lookup_falsy by assumption.
  destruct (first_source envs block_id); [|reflexivity].
  apply name_lookup_falsy; assumption.
Qed.

(** ** Claims about the cross-environment query *)

Lemma search_blocks_by_id_fields (scenarios : list scenario)
  (block_id : str) (b : block_info) :
  search_blocks_by_id scenarios block_id = Some b ->
  bi_block_id b = block_id /\ bi_env b = None.
Proof.
  induction scenarios as [|sc rest IH]; simpl; [discriminate|].
  destruct (find _ (scen_items sc)); [|exact IH].
  intros H; inversion H; simpl; auto.
Qed.

Lemma id_lookup_fields (s : snapshot) (block_id : str) (b : block_info) :
  id_lookup s block_id = Some b ->
  bi_block_id b = block_id /\ bi_env b = None.
Proof.
  unfold id_lookup; destruct (truthy s); [|discriminate].
  apply search_blocks_by_id_fields.
Qed.

(** C4 (as amended).  A cross-environment query answers, for every
    environment where the identifier resolves, with that environment's own
    identifier look-up (its scenario id and the queried block id), and for
    every other environment with the name-based look-up of the names of
    the source, the first environment where the identifier resolves: the
    first scenario of that name and the first block of that name in it.
    So when the identifier resolves first in A and not in B, and the
    name-based look-up in B finds a block, the query returns that block,
    whatever its identifier, under B's key and A's own block under A's
    key. *)
Theorem cross_env_entries (envs : dict snapshot) (block_id : str)
  (Hn : NoDup (dict_keys envs)) :
  exists r,
    search_by_block_id_multi_env envs block_id = Some r /\
    (forall e s b,
        In (e, s) envs -> id_lookup s block_id = Some b ->
        exists b',
          dict_get e r = Some (Some b') /\
          block_fields b' = block_fields b /\
          bi_block_id b' = block_id) /\
    (forall e s,
        In (e, s) envs -> id_lookup s block_id = None ->
        dict_get e r
        = Some match first_source envs block_id with
               | Some si =>
                   name_lookup s (bi_scenario_name si) (bi_block_name si)
               | None => None
               end) /\
    (forall before a sa after b sb ba bb,
        envs = before ++ (a, sa) :: after ->
        (forall e s, In (e, s) before -> id_lookup s block_id = None) ->
        id_lookup sa block_id = Some ba ->
        In (b, sb) envs ->
        id_lookup sb block_id = None ->
        name_lookup sb (bi_scenario_name ba) (bi_block_name ba) = Some bb ->
        dict_get a r = Some (Some (mark_env a ba)) /\
        dict_get b r = Some (Some bb)).
Proof.
  destruct (search_by_block_id_multi_env_spec envs block_id Hn)
    as (r & Hr & _ & Hget).
  exists r. split; [exact Hr|]. split; [|split].
  - intros e s b Hin Hl. rewrite (Hget e s Hin).
    unfold expected_entry, found_entry; rewrite Hl.
    destruct (id_lookup_fields s block_id b Hl) as [Hid _].
    destruct (is_source (first_source envs block_id) e).
    + exists (mark_env e b); repeat split; assumption.
    + exists b; repeat split; assumption.
  - intros e s Hin Hl. rewrite (Hget e s Hin).
    unfold expected_entry, found_entry; rewrite Hl. reflexivity.
  - intros before a sa after b sb ba bb E Hbefore Ha Hb Hnb Hname.
    assert (Hsrc : first_source envs block_id = Some (mark_env a ba)).
    { rewrite E; apply first_source_at; assumption. }
    split.
    + rewrite (Hget a sa) by (rewrite E; apply in_elt).
      unfold expected_entry, found_entry; rewrite Hsrc, Ha; simpl.
      rewrite str_eqb_refl; reflexivity.
    + rewrite (Hget b sb Hb).
      unfold expected_entry, found_entry; rewrite Hsrc, Hnb; simpl.
      rewrite Hname; reflexivity.
Qed.

Lemma cross_env_entries_witness :
  exists r,
    search_by_block_id_multi_env promoted_envs (str_of "aaa") = Some r /\
    dict_get dev r
    = Some (Some (mk_block "s-dev" "Login" "aaa" "welcome" (Some dev))) /\
    dict_get prod r
    = Some (Some (mk_block "s-prod" "Login" "bbb" "welcome" None)).
Proof.
  assert (Hn : NoDup (dict_keys promoted_envs)) by distinct_keys.
  destruct (cross_env_entries promoted_envs (str_of "aaa") Hn)
    as (r & Hr & _ & _ & Hab).
  exists r. split; [exact Hr|].
  refine (Hab [] dev _ _ prod _
              (mk_block "s-dev" "Login" "aaa" "welcome" None)
              (mk_block "s-prod" "Login" "bbb" "welcome" None)
              eq_refl _ _ _ _ _).
  - intros e s [].
  - vm_compute; reflexivity.
  - vm_compute; right; left; reflexivity.
  - vm_compute; reflexivity.
  - vm_compute; reflexivity.
Defined.

(** C4 as stated fails: [dev] and [prod] both hold [Login/welcome], under
    the identifiers [aaa] and [bbb], but [aaa] also names [Billing/pay] in
    [prod].  Querying [aaa], found first in [dev], answers under [prod]
    with [Billing/pay] and the identifier [aaa], not with the name-based
    look-up of [Login/welcome], which is the block [bbb]. *)
Lemma other_env_not_name_based_counterexample :
  first_source clashing_envs (str_of "aaa")
  = Some (mk_block "s-dev" "Login" "aaa" "welcome" (Some dev)) /\
  search_by_block_id_multi_env clashing_envs (str_of "aaa")
  = Some [(dev, Some (mk_block "s-dev" "Login" "aaa" "welcome" (Some dev)));
          (prod, Some (mk_block "t-prod" "Billing" "aaa" "pay" None))] /\
  dict_get prod (find_matching_blocks_in_other_envs clashing_envs dev
                   (str_of "Login") (str_of "welcome"))
  = Some (Some (mk_block "s-prod" "Login" "bbb" "welcome" None)) /\
  mk_block "t-prod" "Billing" "aaa" "pay" None
  <> mk_block "s-prod" "Login" "bbb" "welcome" None.
Proof.
  repeat split; try (vm_compute; reflexivity). vm_compute; discriminate.
Qed.

(** C9.  A cross-environment query raises nothing.  If the identifier
    resolves in no environment, the result maps every environment to
    [None]; and an environment whose snapshot is absent or empty is mapped
    to [None] whatever the other environments hold. *)
Theorem unresolved_or_unloaded_is_none (envs : dict snapshot)
  (block_id : str) (Hn : NoDup (dict_keys envs)) :
  exists r,
    search_by_block_id_multi_env envs block_id = Some r /\
    dict_keys r = dict_keys envs /\
    ((forall e s, In (e, s) envs -> id_lookup s block_id = None) ->
     forall e, In e (dict_keys envs) -> dict_get e r = Some None) /\
    (forall e s, In (e, s) envs -> truthy s = false ->
                 dict_get e r = Some None).
Proof.
  destruct (search_by_block_id_multi_env_spec envs block_id Hn)
    as (r & Hr & Hkeys & Hget).
  exists r. split; [exact Hr|]. split; [exact Hkeys|]. split.
  - intros Hnone e He. apply in_map_iff in He as ([e' s] & <- & Hin); simpl.
    rewrite (Hget e' s Hin). unfold expected_entry, found_entry.
    rewrite (Hnone e' s Hin), first_source_none by assumption. reflexivity.
  - intros e s Hin Hf. rewrite (Hget e s Hin), expected_entry_falsy; auto.
Qed.

Lemma unresolved_or_unloaded_is_none_witness :
  (exists r,
      search_by_block_id_multi_env promoted_envs (str_of "nowhere") = Some r /\
      dict_keys r = [dev; prod; stg] /\
      forall e, In e [dev; prod; stg] -> dict_get e r = Some None) /\
  (exists r,
      search_by_block_id_multi_env promoted_envs (str_of "aaa") = Some r /\
      dict_get stg r = Some None).
Proof.
  assert (Hn : NoDup (dict_keys promoted_envs)) by distinct_keys.
  split.
  - destruct (unresolved_or_unloaded_is_none promoted_envs
                (str_of "nowhere") Hn) as (r & Hr & Hk & Hall & _).
    exists r. split; [exact Hr|]. split; [exact Hk|].
    apply Hall. intros e s H.
    repeat (destruct H as [H | H];
            [inversion H; subst; vm_compute; reflexivity|]).
    destruct H.
  - destruct (unresolved_or_unloaded_is_none promoted_envs
                (str_of "aaa") Hn) as (r & Hr & _ & _ & Hfalsy).
    exists r. split; [exact Hr|].
    apply (Hfalsy stg None).
    + vm_compute; right; right; left; reflexivity.
    + reflexivity.
Defined.

(** C10.  Each multi-environment query answers for exactly the
    environments of [env_scenarios], in their order: the keys of the result
    are the keys of the input, and every environment has an entry, the
    outcome of its own look-up, which is [None] or the empty list when
    nothing matches there. *)
Theorem results_cover_all_environments (lower : str -> str)
  (envs : dict snapshot) (Hn : NoDup (dict_keys envs)) :
  (forall block_id,
      exists r,
        search_by_block_id_multi_env envs block_id = Some r /\
        dict_keys r = dict_keys envs /\
        forall e, In e (dict_keys envs) -> exists v, dict_get e r = Some v) /\
  (forall source_env scenario_name block_name,
      dict_keys (find_matching_blocks_in_other_envs envs source_env
                   scenario_name block_name) = dict_keys envs /\
      forall e s, In (e, s) envs ->
        dict_get e (find_matching_blocks_in_other_envs envs source_env
                      scenario_name block_name)
        = Some (name_lookup s scenario_name block_name)) /\
  (forall search_term,
      dict_keys (search_blocks_multi_env lower envs search_term)
      = dict_keys envs /\
      forall e s, In (e, s) envs ->
        dict_get e (search_blocks_multi_env lower envs search_term)
        = Some (if truthy s
                then search_blocks lower (scenarios_of s) search_term
                else [])).
Proof.
  split; [|split].
  - intros block_id.
    destruct (search_by_block_id_multi_env_spec envs block_id Hn)
      as (r & Hr & Hkeys & Hget).
    exists r. split; [exact Hr|]. split; [exact Hkeys|].
    intros e He. apply in_map_iff in He as ([e' s] & <- & Hin); simpl.
    rewrite (Hget e' s Hin); eauto.
  - intros source_env scenario_name block_name.
    rewrite find_matching_blocks_map by assumption.
    split; [apply dict_keys_map|].
    intros e s Hin.
    apply (dict_get_map _ _
             (fun x => name_lookup (snd x) scenario_name block_name)
             envs (e, s) Hn Hin).
  - intros search_term.
    rewrite search_blocks_multi_env_map by assumption.
    split; [apply dict_keys_map|].
    intros e s Hin.
    apply (dict_get_map _ _
             (fun x =>
                if truthy (snd x)
                then search_blocks lower (scenarios_of (snd x)) search_term
                else [])
             envs (e, s) Hn Hin).
Qed.

Lemma results_cover_all_environments_witness :
  (exists r,
      search_by_block_id_multi_env promoted_envs (str_of "bbb") = Some r /\
      dict_keys r = [dev; prod; stg]) /\
  dict_keys (find_matching_blocks_in_other_envs promoted_envs prod
               (str_of "Login") (str_of "absent")) = [dev; prod; stg] /\
  dict_keys (search_blocks_multi_env ascii_lower promoted_envs (str_of "zzz"))
  = [dev; prod; stg] /\
  dict_get stg
    (search_blocks_multi_env ascii_lower promoted_envs (str_of "zzz"))
  = Some [].
Proof.
  assert (Hn : NoDup (dict_keys promoted_envs)) by distinct_keys.
  destruct (results_cover_all_environments ascii_lower promoted_envs Hn)
    as (Hid & Hname & Hterm).
  split; [|split; [|split]].
  - destruct (Hid (str_of "bbb")) as (r & Hr & Hk & _).
    exists r; split; [exact Hr | exact Hk].
  - exact (proj1 (Hname prod (str_of "Login") (str_of "absent"))).
  - exact (proj1 (Hterm (str_of "zzz"))).
  - apply (proj2 (Hterm (str_of "zzz")) stg None).
    vm_compute; right; right; left; reflexivity.
Defined.

(** ** Look-ups by identifier in one snapshot *)

Lemma str_eqb_sym (a b : str) : str_eqb a b = str_eqb b a.
Proof.
  destruct (str_eqb a b) eqn:E.
  - apply str_eqb_eq in E; subst; symmetry; apply str_eqb_refl.
  - symmetry; apply str_eqb_neq. apply str_eqb_neq in E; congruence.
Qed.

Lemma find_app_first (A : Type) (p : A -> bool) (a b : list A) :
  find p (a ++ b)
  = match find p a with
    | Some x => Some x
    | None => find p b
    end.
Proof.
  induction a as [|x a IH]; simpl; [reflexivity|].
  destruct (p x); [reflexivity | exact IH].
Qed.

Lemma find_pair_scenario (sc : scenario) (block_id : str)
  (items : list item) :
  find (has_id block_id) (map (pair sc) items)
  = option_map (pair sc)
      (find (fun it => str_eqb (item_id it) block_id) items).
Proof.
  induction items as [|it items IH]; simpl; [reflexivity|].
  unfold has_id at 1; simpl.
  destruct (str_eqb (item_id it) block_id); [reflexivity | exact IH].
Qed.

Lemma in_all_items (scenarios : list scenario) (x : scenario * item) :
  In x (all_items scenarios)
  <-> In (fst x) scenarios /\ In (snd x) (scen_items (fst x)).
Proof.
  unfold all_items; rewrite in_flat_map. split.
  - intros (sc & Hsc & Hx). apply in_map_iff in Hx as (it & <- & Hit).
    simpl; auto.
  - intros [Hsc Hit]. exists (fst x); split; [assumption|].
    apply in_map_iff; exists (snd x); split; [|assumption].
    destruct x; reflexivity.
Qed.

(** [search_blocks_by_id] returns the first matching item. *)
Lemma search_blocks_by_id_first (scenarios : list scenario)
  (block_id : str) :
  search_blocks_by_id scenarios block_id
  = option_map info_of (first_match scenarios block_id).
Proof.
  unfold first_match.
  induction scenarios as [|sc rest IH]; simpl; [reflexivity|].
  rewrite find_app_first, find_pair_scenario.
  destruct (find (fun it => str_eqb (item_id it) block_id) (scen_items sc))
    as [it|] eqn:E; simpl; [|exact IH].
  apply find_some in E as [_ E]. apply str_eqb_eq in E; subst block_id.
  reflexivity.
Qed.

Lemma index_items_flat (sc : scenario) : forall items d,
  fold_left
    (fun d it =>
       dict_set (item_id it)
                {| ie_scenario_id := scen_id sc;
                   ie_scenario_name := scen_name sc;
                   ie_block_name := item_name it |} d)
    items d
  = fold_left (fun d x => dict_set (item_id (snd x)) (entry_of x) d)
              (map (pair sc) items) d.
Proof.
  induction items as [|it items IH]; intros d; simpl; [reflexivity|].
  rewrite IH; reflexivity.
Qed.

Lemma build_all_blocks_flat (scenarios : list scenario) : forall d,
  fold_left (fun d sc => index_items sc d) scenarios d
  = fold_left (fun d x => dict_set (item_id (snd x)) (entry_of x) d)
              (all_items scenarios) d.
Proof.
  induction scenarios as [|sc rest IH]; intros d; simpl; [reflexivity|].
  rewrite fold_left_app, IH. unfold index_items.
  rewrite index_items_flat; reflexivity.
Qed.

Lemma dict_get_fold_set (block_id : str) (l : list (scenario * item)) :
  forall d,
    dict_get block_id
      (fold_left (fun d x => dict_set (item_id (snd x)) (entry_of x) d) l d)
    = match find (has_id block_id) (rev l) with
      | Some x => Some (entry_of x)
      | None => dict_get block_id d
      end.
Proof.
  induction l as [|x l IH] using rev_ind; intros d; simpl; [reflexivity|].
  rewrite fold_left_app, rev_app_distr; simpl.
  rewrite dict_get_set. unfold has_id at 1.
  rewrite (str_eqb_sym block_id).
  destruct (str_eqb (item_id (snd x)) block_id); [reflexivity | apply IH].
Qed.

(** The validator's index returns the last matching item. *)
Lemma build_all_blocks_last (scenarios : list scenario) (block_id : str) :
  dict_get block_id (build_all_blocks scenarios)
  = option_map entry_of (last_match scenarios block_id).
Proof.
  unfold build_all_blocks, last_match.
  rewrite build_all_blocks_flat, dict_get_fold_set.
  destruct (find (has_id block_id) (rev (all_items scenarios))); reflexivity.
Qed.

Lemma validate_one_last (scenarios : list scenario) (r : parsed_reference) :
  validate_one (build_all_blocks scenarios) r
  = result_for r (last_match scenarios (fst (fst r))).
Proof.
  destruct r as [[block_id path] line_num]; unfold validate_one; simpl.
  rewrite build_all_blocks_last.
  destruct (last_match scenarios block_id); reflexivity.
Qed.

Lemma last_match_some (scenarios : list scenario) (block_id : str)
  (x : scenario * item) :
  last_match scenarios block_id = Some x ->
  In (fst x) scenarios /\ In (snd x) (scen_items (fst x)) /\
  item_id (snd x) = block_id.
Proof.
  unfold last_match; intros H. apply find_some in H as [Hin Hid].
  apply in_rev, in_all_items in Hin as [H1 H2].
  apply str_eqb_eq in Hid. auto.
Qed.

Lemma last_match_none (scenarios : list scenario) (block_id : str) :
  last_match scenarios block_id = None ->
  forall sc it, In sc scenarios -> In it (scen_items sc) ->
                item_id it <> block_id.
Proof.
  unfold last_match; intros H sc it Hsc Hit E.
  assert (Hin : In (sc, it) (rev (all_items scenarios))).
  { apply in_rev. rewrite rev_involutive. apply in_all_items; auto. }
  pose proof (find_none _ _ H _ Hin) as Hf.
  unfold has_id in Hf; simpl in Hf. apply str_eqb_neq in Hf; auto.
Qed.

(** The two look-ups of an identifier, for every snapshot.
    [search_blocks_by_id] resolves the identifier to the first matching
    item in snapshot order, and the validator's index, where a later item
    overwrites an earlier one, to the last; both are functions of the
    snapshot and the identifier, and neither raises.  They agree when the
    identifier is on one item only, and part ways when it is on two. *)
Theorem duplicate_identifiers_resolution (scenarios : list scenario)
  (block_id : str) :
  search_blocks_by_id scenarios block_id
  = option_map info_of (first_match scenarios block_id) /\
  dict_get block_id (build_all_blocks scenarios)
  = option_map entry_of (last_match scenarios block_id) /\
  forall path line_num env_name,
    validate_block_ids [(block_id, path, line_num)] scenarios env_name
    = [result_for (block_id, path, line_num)
                  (last_match scenarios block_id)].
Proof.
  split; [apply search_blocks_by_id_first|].
  split; [apply build_all_blocks_last|].
  intros path line_num env_name. unfold validate_block_ids; cbn [map].
  rewrite validate_one_last; reflexivity.
Qed.


(** C6.  The validator returns one result per reference, in the order of
    the references and with their identifier, path and line unchanged, so
    nothing is dropped or merged.  A result is valid exactly when some
    item of the snapshot has the identifier; a valid result carries the
    scenario id and name and the block name of such an item, and an
    invalid one carries none. *)
Theorem validate_block_ids_results (block_ids : list parsed_reference)
  (scenarios : list scenario) (env_name : str) :
  length (validate_block_ids block_ids scenarios env_name)
  = length block_ids /\
  map (fun r => (vr_block_id r, vr_path r, vr_line_number r))
      (validate_block_ids block_ids scenarios env_name) = block_ids /\
  Forall
    (fun r =>
       (vr_valid r = true <->
        exists sc it, In sc scenarios /\ In it (scen_items sc) /\
                      item_id it = vr_block_id r) /\
       (vr_valid r = true ->
        exists sc it, In sc scenarios /\ In it (scen_items sc) /\
                      item_id it = vr_block_id r /\
                      vr_scenario_id r = Some (scen_id sc) /\
                      vr_scenario_name r = Some (scen_name sc) /\
                      vr_block_name r = Some (item_name it)) /\
       (vr_valid r = false ->
        vr_scenario_id r = None /\ vr_scenario_name r = None /\
        vr_block_name r = None))
    (validate_block_ids block_ids scenarios env_name).
Proof.
  unfold validate_block_ids. split; [apply length_map|]. split.
  - rewrite map_map. rewrite <- (map_id block_ids) at 2.
    apply map_ext; intros r. rewrite validate_one_last.
    destruct r as [[i p] n]; reflexivity.
  - apply Forall_forall; intros r Hr.
    apply in_map_iff in Hr as (ref & <- & _).
    rewrite validate_one_last.
    destruct ref as [[block_id path] line_num]; simpl.
    destruct (last_match scenarios block_id) as [[sc it]|] eqn:E; simpl.
    + apply last_match_some in E as (H1 & H2 & H3); simpl in *.
      split; [|split].
      * split; [|reflexivity]. intros _; exists sc, it; auto.
      * intros _; exists sc, it; repeat split; auto.
      * discriminate.
    + split; [|split].
      * split; [discriminate|]. intros (sc & it & H1 & H2 & H3).
        exfalso; exact (last_match_none scenarios block_id E sc it H1 H2 H3).
      * discriminate.
      * auto.
Qed.

Lemma validate_block_ids_results_witness :
  map vr_valid
      (validate_block_ids
         [(str_of "aaa", str_of "x.y", 1); (str_of "nope", str_of "x.z", 2);
          (str_of "aaa", str_of "w", 3)]
         duplicate_ids dev)
  = [true; false; true] /\
  map (fun r => (vr_block_id r, vr_path r, vr_line_number r))
      (validate_block_ids
         [(str_of "aaa", str_of "x.y", 1); (str_of "nope", str_of "x.z", 2);
          (str_of "aaa", str_of "w", 3)]
         duplicate_ids dev)
  = [(str_of "aaa", str_of "x.y", 1); (str_of "nope", str_of "x.z", 2);
     (str_of "aaa", str_of "w", 3)].
Proof.
  split; [vm_compute; reflexivity|].
  exact (proj1 (proj2 (validate_block_ids_results
                         [(str_of "aaa", str_of "x.y", 1);
                          (str_of "nope", str_of "x.z", 2);
                          (str_of "aaa", str_of "w", 3)]
                         duplicate_ids dev))).
Defined.

(** ** The search mode *)

(** The search mode takes the identifier branch exactly when the term
    resolves as an identifier in some environment; the query it then runs
    is seeded by [first_source]. *)
Lemma block_id_found_first_source (envs : dict snapshot) (term : str) :
  block_id_found envs term = is_some (first_source envs term).
Proof.
  unfold block_id_found.
  induction envs as [|[e s] envs IH]; simpl; [reflexivity|].
  rewrite IH. unfold id_lookup.
  destruct (truthy s); simpl; [|reflexivity].
  destruct (search_blocks_by_id (scenarios_of s) term); reflexivity.
Qed.

Lemma search_both_modes_branches (lower : str -> str) (envs : dict snapshot)
  (term : str) :
  search_both_modes lower envs term
  = match first_source envs term with
    | Some _ => BlockIdSearch (search_by_block_id_multi_env envs term)
    | None =>
        NameSearch (display_search_results_multi_env
                      (search_blocks_multi_env lower envs term))
    end.
Proof.
  unfold search_both_modes. rewrite block_id_found_first_source.
  destruct (first_source envs term); reflexivity.
Qed.

(** C7 (the code departs from it).  Let [lower] leave the lower-case
    strings [c], [b::c] and [x] as they are, as [str.lower] does.  The
    term [c] is no identifier, so the search runs by name; it finds the
    block [c] of scenario [a::b] in [dev] and the block [b::c] of scenario
    [a] in [prod], two different (scenario name, block name) pairs.  Both
    have the concatenated key [a::b::c], and the display holds a single
    row for them, labelled with the first pair and listing the identifiers
    of both blocks.  The rows are ordered by the concatenated key as well:
    for the scenarios [Login] and [Login2] the row of [Login2] comes
    first. *)
Theorem grouping_key_collision (lower : str -> str)
  (Hc : lower (str_of "c") = str_of "c")
  (Hbc : lower (str_of "b::c") = str_of "b::c")
  (Hx : lower (str_of "x") = str_of "x") :
  block_id_found colliding_envs (str_of "c") = false /\
  result_names (search_blocks_multi_env lower colliding_envs (str_of "c"))
  = [(dev, [(str_of "a::b", str_of "c")]);
     (prod, [(str_of "a", str_of "b::c")])] /\
  (str_of "a::b", str_of "c") <> (str_of "a", str_of "b::c") /\
  search_both_modes lower colliding_envs (str_of "c")
  = NameSearch
      [(str_of "a::b::c",
        {| bg_scenario_name := str_of "a::b";
           bg_block_name := str_of "c";
           bg_envs :=
             [(dev, {| ed_scenario_id := str_of "s-dev";
                       ed_block_id := str_of "id-dev" |});
              (prod, {| ed_scenario_id := str_of "s-prod";
                        ed_block_id := str_of "id-prod" |})] |})] /\
  match search_both_modes lower prefix_envs (str_of "x") with
  | NameSearch rows =>
      map (fun row => (bg_scenario_name (snd row), bg_block_name (snd row)))
          rows
  | BlockIdSearch _ => []
  end
  = [(str_of "Login2", str_of "x"); (str_of "Login", str_of "x")].
Proof.
  assert (Ec : search_blocks_multi_env lower colliding_envs (str_of "c")
               = [(dev, [mk_block "s-dev" "a::b" "id-dev" "c" None]);
                  (prod, [mk_block "s-prod" "a" "id-prod" "b::c" None])]).
  { unfold search_blocks_multi_env, colliding_envs, search_blocks.
    cbn [fold_left truthy scenarios_of mk_scenario mk_item flat_map
         scen_items item_name str_of list_ascii_of_string map filter app].
    change (map N_of_ascii (list_ascii_of_string "c")) with (str_of "c").
    change (map N_of_ascii (list_ascii_of_string "b::c"))
      with (str_of "b::c").
    cbn [str_of list_ascii_of_string map] in Hc, Hbc |- *.
    rewrite Hc, Hbc. vm_compute; reflexivity. }
  assert (Ex : search_blocks_multi_env lower prefix_envs (str_of "x")
               = [(dev, [mk_block "s1" "Login" "i1" "x" None;
                         mk_block "s2" "Login2" "i2" "x" None])]).
  { unfold search_blocks_multi_env, prefix_envs, search_blocks.
    cbn [fold_left truthy scenarios_of mk_scenario mk_item flat_map
         scen_items item_name str_of list_ascii_of_string map filter app]
      in Hx |- *.
    rewrite Hx. vm_compute; reflexivity. }
  split; [vm_compute; reflexivity|].
  split; [rewrite Ec; vm_compute; reflexivity|].
  split; [vm_compute; discriminate|].
  split.
  - unfold search_both_modes.
    replace (block_id_found colliding_envs (str_of "c")) with false
      by (vm_compute; reflexivity).
    rewrite Ec; vm_compute; reflexivity.
  - unfold search_both_modes.
    replace (block_id_found prefix_envs (str_of "x")) with false
      by (vm_compute; reflexivity).
    rewrite Ex; vm_compute; reflexivity.
Qed.

Lemma grouping_key_collision_witness :
  result_names
    (search_blocks_multi_env ascii_lower colliding_envs (str_of "c"))
  = [(dev, [(str_of "a::b", str_of "c")]);
     (prod, [(str_of "a", str_of "b::c")])] /\
  exists row,
    search_both_modes ascii_lower colliding_envs (str_of "c")
    = NameSearch [row].
Proof.
  destruct (grouping_key_collision ascii_lower eq_refl eq_refl eq_refl)
    as (_ & Hnames & _ & Hrows & _).
  split; [exact Hnames|]. eexists; exact Hrows.
Defined.

(** * Further properties of the parser *)

(** ** Lines of a text *)

Lemma split_lines_cons (text : str) :
  exists l ls, split_lines text = l :: ls.
Proof.
  induction text as [|c t (l & ls & IH)]; simpl; [eauto|].
  destruct (c =? newline)%N; [eauto|]. rewrite IH; eauto.
Qed.

Lemma split_lines_app (a b : str) :
  split_lines (a ++ newline :: b) = split_lines a ++ split_lines b.
Proof.
  induction a as [|c a IH]; simpl.
  - reflexivity.
  - destruct (c =? newline)%N; [rewrite IH; reflexivity|].
    rewrite IH. destruct (split_lines_cons a) as (l & ls & ->); reflexivity.
Qed.

Lemma split_lines_single (l : str) :
  ~ In newline l -> split_lines l = [l].
Proof.
  induction l as [|c l IH]; simpl; intros H; [reflexivity|].
  destruct (c =? newline)%N eqn:E.
  - apply N.eqb_eq in E; subst; tauto.
  - rewrite IH by tauto; reflexivity.
Qed.

Lemma join_cons (sep p : str) (q : str) (rest : list str) :
  join sep (p :: q :: rest) = p ++ sep ++ join sep (q :: rest).
Proof. reflexivity. Qed.

Lemma join_split_lines (text : str) :
  join [newline] (split_lines text) = text /\
  Forall (fun l => ~ In newline l) (split_lines text) /\
  length (split_lines text) = S (count_occ N.eq_dec text newline).
Proof.
  induction text as [|c t (IH1 & IH2 & IH3)]; simpl.
  - repeat split. repeat constructor; tauto.
  - destruct (split_lines_cons t) as (l & ls & E).
    destruct (c =? newline)%N eqn:Ec.
    + apply N.eqb_eq in Ec; subst c.
      rewrite E in *. rewrite join_cons, IH1. simpl in IH3 |- *.
      split; [reflexivity|]. split; [|lia].
      constructor; [simpl; tauto | assumption].
    + apply N.eqb_neq in Ec. rewrite E in *. simpl in IH3 |- *.
      destruct (N.eq_dec c newline) as [|_]; [tauto|].
      apply Forall_cons_iff in IH2 as [Hl Hls]. split; [|split].
      * destruct ls; simpl in *; [congruence|].
        rewrite <- IH1; reflexivity.
      * constructor; [|assumption]. simpl; intros [H | H]; auto.
      * assumption.
Qed.

Lemma split_join_lines (lines : list str) :
  lines <> [] -> Forall (fun l => ~ In newline l) lines ->
  split_lines (join [newline] lines) = lines.
Proof.
  induction lines as [|l rest IH]; intros Hne Hall; [tauto|].
  inversion Hall; subst. destruct rest as [|q rest].
  - simpl; apply split_lines_single; assumption.
  - rewrite join_cons.
    change ([newline] ++ join [newline] (q :: rest))
      with (newline :: join [newline] (q :: rest)).
    rewrite split_lines_app, split_lines_single by assumption.
    rewrite IH; [reflexivity | discriminate | assumption].
Qed.

(** X1.  Splitting a text at its newlines loses nothing: joining the lines
    with newlines gives the text back; no line holds a newline; and there
    is one line more than there are newlines, so even the empty text has
    one (empty) line.  Conversely a non-empty list of newline-free lines,
    joined as [main] joins the lines it read, splits into these lines. *)
Theorem split_lines_round_trip :
  (forall text : str,
      join [newline] (split_lines text) = text /\
      Forall (fun l => ~ In newline l) (split_lines text) /\
      length (split_lines text) = S (count_occ N.eq_dec text newline)) /\
  (forall lines : list str,
      lines <> [] -> Forall (fun l => ~ In newline l) lines ->
      split_lines (join [newline] lines) = lines).
Proof.
  split; [exact join_split_lines | exact split_join_lines].
Qed.

Lemma split_lines_round_trip_witness :
  split_lines (join [newline] [str_of "root:"; str_of "  a: 1"; str_of ""])
  = [str_of "root:"; str_of "  a: 1"; str_of ""].
Proof.
  apply (proj2 split_lines_round_trip).
  - discriminate.
  - repeat constructor; vm_compute;
      intros H; repeat (destruct H as [H | H]; [discriminate|]); exact H.
Defined.

(** ** The references as a function of the stack *)

Lemma run_block_ids (lines : list str) : forall st n,
  block_ids (run st n lines)
  = block_ids st ++ references_from (path_stack st) n lines.
Proof.
  unfold references_from.
  induction lines as [|l ls IH]; intros st n; simpl.
  - rewrite app_nil_r; reflexivity.
  - rewrite IH, (IH (process_line _ _ _)).
    rewrite !path_stack_process; simpl.
    unfold process_line; destruct (classify l); simpl;
      rewrite ?app_nil_r, <- ?app_assoc; reflexivity.
Qed.

Lemma references_from_cons (stack : list stack_entry) (n : nat) (l : str)
  (ls : list str) :
  references_from stack n (l :: ls)
  = match classify l with
    | LeafReference indent name id =>
        [(id, leaf_path (adjust indent stack) name, n)]
    | _ => []
    end
    ++ references_from (stack_step stack (classify l)) (S n) ls.
Proof.
  unfold references_from at 1; simpl. rewrite run_block_ids.
  rewrite path_stack_process; simpl.
  unfold process_line; destruct (classify l); reflexivity.
Qed.

Lemma references_from_nil (stack : list stack_entry) (n : nat) :
  references_from stack n [] = [].
Proof. reflexivity. Qed.

Lemma parse_references (text : str) :
  parse_block_ids_from_text text = references_from [] 1 (split_lines text).
Proof. reflexivity. Qed.

Lemma references_from_app (a b : list str) : forall stack n,
  references_from stack n (a ++ b)
  = references_from stack n a
    ++ references_from (fold_left stack_step (map classify a) stack)
                       (n + length a) b.
Proof.
  induction a as [|l a IH]; intros stack n; simpl.
  - rewrite Nat.add_0_r; reflexivity.
  - rewrite !references_from_cons, IH, <- app_assoc.
    rewrite Nat.add_succ_r; reflexivity.
Qed.

Lemma references_from_shift (lines : list str) : forall stack n k,
  references_from stack (n + k) lines
  = shift_lines k (references_from stack n lines).
Proof.
  induction lines as [|l ls IH]; intros stack n k; [reflexivity|].
  rewrite !references_from_cons.
  change (S (n + k)) with (S n + k). rewrite IH.
  unfold shift_lines; rewrite map_app.
  destruct (classify l); reflexivity.
Qed.

Lemma references_from_ext (ls ls' : list str) : forall stack n,
  map classify ls = map classify ls' ->
  references_from stack n ls = references_from stack n ls'.
Proof.
  revert ls'; induction ls as [|l ls IH]; intros [|l' ls'] stack n H;
    try discriminate; [reflexivity|].
  simpl in H; inversion H as [[Hl Hls]].
  rewrite !references_from_cons, Hl. f_equal. apply IH; assumption.
Qed.

(** ** Line numbers *)

Lemma references_from_numbers (lines : list str) : forall stack n,
  Forall (fun r : parsed_reference => n <= snd r < n + length lines)
         (references_from stack n lines) /\
  StronglySorted lt (map snd (references_from stack n lines)) /\
  length (references_from stack n lines) = length (filter is_leaf lines).
Proof.
  induction lines as [|l ls IH]; intros stack n.
  - repeat split; constructor.
  - rewrite references_from_cons.
    destruct (IH (stack_step stack (classify l)) (S n)) as (Hb & Hs & Hl).
    assert (Hb' : Forall (fun r : parsed_reference =>
                            n < snd r < n + length (l :: ls))
                         (references_from (stack_step stack (classify l))
                                          (S n) ls)).
    { eapply Forall_impl; [|exact Hb]. simpl; intros r Hr; lia. }
    unfold is_leaf at 1; simpl filter.
    destruct (classify l) as [| |indent name id| |]; simpl app;
      try (split; [|split; [exact Hs | exact Hl]];
           eapply Forall_impl; [|exact Hb']; simpl; intros r Hr; lia).
    split; [|split].
    + constructor; [simpl; lia|].
      eapply Forall_impl; [|exact Hb']. simpl; intros r Hr; lia.
    + simpl. constructor; [exact Hs|].
      apply Forall_forall; intros x Hx.
      apply in_map_iff in Hx as (r & <- & Hr).
      rewrite Forall_forall in Hb'. apply Hb'; assumption.
    + simpl; rewrite Hl; reflexivity.
Qed.

(** X2.  The line numbers of the references grow strictly, lie between 1
    and the number of lines of the text, and there are as many references
    as there are leaf lines: every leaf line is reported once, in input
    order. *)
Theorem reference_line_numbers (text : str) :
  StronglySorted lt (map snd (parse_block_ids_from_text text)) /\
  Forall (fun r : parsed_reference =>
            1 <= snd r <= length (split_lines text))
         (parse_block_ids_from_text text) /\
  length (parse_block_ids_from_text text)
  = length (filter is_leaf (split_lines text)).
Proof.
  rewrite parse_references.
  destruct (references_from_numbers (split_lines text) [] 1) as (Hb & Hs & Hl).
  split; [exact Hs|]. split; [|exact Hl].
  eapply Forall_impl; [|exact Hb]. simpl; intros r Hr; lia.
Qed.

(** ** White space at the end of a line *)

Lemma classify_trailing_space (l w : str) :
  forallb is_space w = true -> classify (l ++ w) = classify l.
Proof.
  intros H; unfold classify. rewrite rstrip_app_space by assumption.
  reflexivity.
Qed.

Lemma split_lines_crlf (text : str) :
  split_lines (crlf text) = add_cr (split_lines text).
Proof.
  induction text as [|c t IH]; [reflexivity|].
  destruct (split_lines_cons t) as (l & ls & E).
  simpl. destruct (c =? newline)%N eqn:Ec; simpl.
  - rewrite IH, E. reflexivity.
  - rewrite Ec, IH, E. destruct ls; reflexivity.
Qed.

Lemma classify_add_cr (lines : list str) :
  map classify (add_cr lines) = map classify lines.
Proof.
  induction lines as [|l rest IH]; [reflexivity|].
  destruct rest as [|q rest]; [reflexivity|].
  change (map classify (add_cr (l :: q :: rest)))
    with (classify (l ++ [carriage_return])
          :: map classify (add_cr (q :: rest))).
  rewrite IH, classify_trailing_space by reflexivity. reflexivity.
Qed.

(** X3.  Line ends written as carriage return, newline change nothing:
    the carriage return is white space at the end of its line, which the
    parser strips, so the same references, paths and line numbers come
    out.  More generally white space appended to a line does not change
    how the line is read. *)
Theorem crlf_text_parses_alike :
  (forall text : str,
      parse_block_ids_from_text (crlf text) = parse_block_ids_from_text text) /\
  (forall (st : parser_state) (n : nat) (line w : str),
      forallb is_space w = true ->
      process_line st n (line ++ w) = process_line st n line).
Proof.
  split.
  - intros text. rewrite !parse_references.
    apply references_from_ext. rewrite split_lines_crlf.
    apply classify_add_cr.
  - intros st n line w H. unfold process_line.
    rewrite classify_trailing_space by assumption. reflexivity.
Qed.

Lemma crlf_text_parses_alike_witness :
  process_line initial_state 1
    (str_of "a: 67d2804ef38a8bfdf0172bce" ++ [carriage_return; 32%N; 9%N])
  = process_line initial_state 1 (str_of "a: 67d2804ef38a8bfdf0172bce").
Proof.
  apply (proj2 crlf_text_parses_alike). reflexivity.
Defined.

(** ** Lines without a key *)

Lemma references_from_keyed (lines : list str) : forall stack n n',
  map fst (references_from stack n lines)
  = map fst (references_from stack n' (filter keyed lines)).
Proof.
  induction lines as [|l ls IH]; intros stack n n'; [reflexivity|].
  rewrite references_from_cons. simpl filter. unfold keyed at 1.
  destruct (classify l) as [| |indent name id|indent name|] eqn:Ec; simpl;
    try (apply IH).
  - rewrite references_from_cons, Ec; simpl. f_equal. apply IH.
  - rewrite references_from_cons, Ec; simpl. apply IH.
Qed.

(** X4.  Blank lines, comment lines and unrecognized lines never break the
    nesting: two texts with the same keyed lines in the same order give
    the same identifiers with the same paths; only the line numbers can
    differ. *)
Theorem same_keyed_lines_same_paths (text text' : str)
  (H : filter keyed (split_lines text) = filter keyed (split_lines text')) :
  map fst (parse_block_ids_from_text text)
  = map fst (parse_block_ids_from_text text').
Proof.
  rewrite !parse_references.
  rewrite (references_from_keyed (split_lines text) [] 1 1).
  rewrite (references_from_keyed (split_lines text') [] 1 1).
  rewrite H; reflexivity.
Qed.

Lemma same_keyed_lines_same_paths_witness :
  map fst (parse_block_ids_from_text
             (str_of "root:

  # about a
  a: 67d2804ef38a8bfdf0172bce
  what is this"))
  = map fst (parse_block_ids_from_text
               (str_of "root:
  a: 67d2804ef38a8bfdf0172bce")).
Proof.
  apply same_keyed_lines_same_paths. vm_compute; reflexivity.
Defined.

(** ** Texts put together *)

Lemma adjust_zero (st : list stack_entry) : adjust 0 st = [].
Proof.
  induction st as [|p st IH] using rev_ind; [reflexivity|].
  rewrite adjust_snoc; simpl. exact IH.
Qed.

Lemma references_from_top_level (stack : list stack_entry) (n : nat)
  (l : str) (ls : list str) (name : str) :
  key_of (classify l) = Some (name, 0) ->
  references_from stack n (l :: ls) = references_from [] n (l :: ls).
Proof.
  intros H. rewrite !references_from_cons. unfold stack_step; rewrite H.
  simpl snd. rewrite ?adjust_zero.
  destruct (classify l) as [| |indent nm id|indent nm|]; try discriminate;
    simpl in H; inversion H; subst; rewrite ?adjust_zero; reflexivity.
Qed.

(** X5.  References already produced are never changed by what follows:
    the references of a text extended by further lines start with the
    references of the text, and the new ones carry later line numbers. *)
Theorem appended_text_keeps_references (text more : str) :
  exists rest,
    parse_block_ids_from_text (text ++ newline :: more)
    = parse_block_ids_from_text text ++ rest /\
    Forall (fun r : parsed_reference => length (split_lines text) < snd r)
           rest.
Proof.
  rewrite !parse_references, split_lines_app, references_from_app.
  eexists; split; [reflexivity|].
  destruct (references_from_numbers (split_lines more)
              (fold_left stack_step (map classify (split_lines text)) [])
              (1 + length (split_lines text))) as (Hb & _).
  eapply Forall_impl; [|exact Hb]. simpl; intros r Hr; lia.
Qed.

(** X6.  A key at indent 0 starts afresh: when the second of two texts
    begins with an unindented keyed line, the references of the two texts
    joined by a newline are the references of the first followed by those
    of the second as parsed alone, the line numbers of the second moved by
    the number of lines of the first. *)
Theorem top_level_key_restarts (text more l : str) (ls : list str)
  (name : str)
  (Hs : split_lines more = l :: ls)
  (Hk : key_of (classify l) = Some (name, 0)) :
  parse_block_ids_from_text (text ++ newline :: more)
  = parse_block_ids_from_text text
    ++ shift_lines (length (split_lines text))
                   (parse_block_ids_from_text more).
Proof.
  rewrite !parse_references, split_lines_app, references_from_app.
  f_equal. rewrite Hs.
  rewrite (references_from_top_level _ _ l ls name Hk).
  apply references_from_shift.
Qed.

Lemma top_level_key_restarts_witness :
  parse_block_ids_from_text (two_leaves ++ newline :: spec_example)
  = parse_block_ids_from_text two_leaves
    ++ shift_lines (length (split_lines two_leaves))
                   (parse_block_ids_from_text spec_example).
Proof.
  apply (top_level_key_restarts two_leaves spec_example
           (str_of "hsptlzInfo: # comment")
           [str_of "  hsplzInfoInquiry: 67d2804ef38a8bfdf0172bce # note"]
           (str_of "hsptlzInfo")).
  - vm_compute; reflexivity.
  - vm_compute; reflexivity.
Defined.

(** ** The shape of a path *)

Lemma increasing_below_length (st : list stack_entry) : forall d,
  increasing st -> Forall (fun e => snd e < d) st -> length st <= d.
Proof.
  induction st as [|p st IH] using rev_ind; intros d Hs Hb; [simpl; lia|].
  apply increasing_snoc_inv in Hs as [Hs Hlt].
  apply Forall_app in Hb as [_ Hp]. inversion Hp; subst.
  rewrite length_app; simpl. specialize (IH (snd p) Hs Hlt). lia.
Qed.

Lemma key_char_not_dot (c : char) :
  key_char_i c = true -> negb (c =? 46)%N = true.
Proof. char_class. Qed.

Lemma key_char_weaken (c : char) : key_char c = true -> key_char_i c = true.
Proof. unfold key_char_i; intros ->; reflexivity. Qed.

Lemma block_id_match_key (line : str) (indent : nat) (name id : str) :
  block_id_match line = Some (indent, name, id) ->
  name <> [] /\ forallb key_char_i name = true.
Proof.
  unfold block_id_match.
  pose proof (take_while_all key_char_i (drop_while is_space line)) as S2.
  destruct (take_while key_char_i (drop_while is_space line))
    as [|k0 key]; [discriminate|].
  destruct (drop_while key_char_i (drop_while is_space line))
    as [|c r3]; [discriminate|].
  destruct (key_start_i k0 && (c =? colon)%N); [|discriminate].
  destruct (_ && _ && _); [|discriminate].
  intros H; inversion H; subst. split; [discriminate | exact S2].
Qed.

Lemma key_value_match_key (line : str) (indent : nat) (name : str) :
  key_value_match line = Some (indent, name) ->
  name <> [] /\ forallb key_char_i name = true.
Proof.
  unfold key_value_match.
  pose proof (take_while_all key_char (drop_while is_space line)) as S2.
  destruct (take_while key_char (drop_while is_space line))
    as [|k0 key]; [discriminate|].
  destruct (drop_while key_char (drop_while is_space line))
    as [|c r3]; [discriminate|].
  destruct (_ && _ && _); [|discriminate].
  intros H; inversion H; subst. split; [discriminate|].
  eapply forallb_impl; [|exact S2]. apply key_char_weaken.
Qed.

Lemma classify_key_name (line : str) (e : stack_entry) :
  key_of (classify line) = Some e ->
  fst e <> [] /\ forallb key_char_i (fst e) = true.
Proof.
  unfold classify. destruct (strip (rstrip line)) as [|c r]; [discriminate|].
  destruct (c =? hash)%N; [discriminate|].
  destruct (block_id_match (rstrip line)) as [[[i n] b]|] eqn:E1.
  - simpl; intros H; inversion H; subst; simpl.
    eapply block_id_match_key; exact E1.
  - destruct (key_value_match (rstrip line)) as [[i n]|] eqn:E2;
      [|discriminate].
    simpl; intros H; inversion H; subst; simpl.
    eapply key_value_match_key; exact E2.
Qed.

Lemma open_stack_in (cs : list line_class) (e : stack_entry) :
  In e (open_stack cs) -> exists c, In c cs /\ key_of c = Some e.
Proof.
  induction cs as [|c cs IH]; simpl; [tauto|].
  destruct (key_of c) as [e0|] eqn:E.
  - destruct (forallb (deeper_than (snd e0)) cs).
    + intros [<- | H]; [exists c; auto|].
      destruct (IH H) as (c' & H1 & H2); exists c'; auto.
    + intros H; destruct (IH H) as (c' & H1 & H2); exists c'; auto.
  - intros H; destruct (IH H) as (c' & H1 & H2); exists c'; auto.
Qed.

Lemma join_snoc (sep : str) (parts : list str) (x : str) :
  exists prefix, join sep (parts ++ [x]) = prefix ++ x.
Proof.
  induction parts as [|p parts (prefix & IH)]; [exists []; reflexivity|].
  destruct parts as [|q parts].
  - exists (p ++ sep). simpl; rewrite <- app_assoc; reflexivity.
  - exists (p ++ sep ++ prefix).
    change ((p :: q :: parts) ++ [x]) with (p :: q :: (parts ++ [x])).
    rewrite join_cons. change (q :: parts ++ [x]) with ((q :: parts) ++ [x]).
    rewrite IH, <- !app_assoc; reflexivity.
Qed.

Lemma join_forallb (p : char -> bool) (sep : str) (parts : list str) :
  forallb p sep = true -> Forall (fun s => forallb p s = true) parts ->
  forallb p (join sep parts) = true.
Proof.
  intros Hsep; induction parts as [|x parts IH]; intros H; [reflexivity|].
  apply Forall_cons_iff in H as [Hx Hp]. destruct parts as [|y parts].
  - exact Hx.
  - rewrite join_cons, !forallb_app, Hx, Hsep, IH by assumption.
    reflexivity.
Qed.

Lemma join_dots (parts : list str) :
  Forall (fun s => forallb (fun c => negb (c =? 46)%N) s = true) parts ->
  count_occ N.eq_dec (join [dot] parts) dot = length parts - 1.
Proof.
  assert (Hnone : forall s, forallb (fun c => negb (c =? 46)%N) s = true ->
                            count_occ N.eq_dec s dot = 0).
  { intros s Hs. apply count_occ_not_In. intros Hin.
    rewrite forallb_forall in Hs. specialize (Hs dot Hin). discriminate. }
  induction parts as [|x parts IH]; intros H; [reflexivity|].
  apply Forall_cons_iff in H as [Hx Hp]. destruct parts as [|y parts].
  - simpl. apply Hnone; assumption.
  - rewrite join_cons, !count_occ_app.
    change (@count_occ char) with (@count_occ N).
    rewrite (Hnone x Hx), (IH Hp). simpl. lia.
Qed.

(** X7.  A path is never empty, is made of key characters and dots only
    (no white space, colon or comment text gets into it), ends with the
    key of its line, and has at most as many dots as its line has
    characters of indentation; so the path of an unindented leaf is its
    bare key, whatever came before. *)
Theorem path_shape (text id path : str) (ln : nat)
  (H : In (id, path, ln) (parse_block_ids_from_text text)) :
  exists line indent name,
    nth_error (split_lines text) (ln - 1) = Some line /\
    classify line = LeafReference indent name id /\
    path <> [] /\
    forallb (fun c => key_char_i c || (c =? dot)%N) path = true /\
    (exists prefix, path = prefix ++ name) /\
    count_occ N.eq_dec path dot <= indent /\
    (indent = 0 -> path = name).
Proof.
  apply parsed_reference_origin in H
    as (pre & line & post & indent & name & E & Hn & Hc & Hp).
  exists line, indent, name.
  assert (Hname : name <> [] /\ forallb key_char_i name = true).
  { apply (classify_key_name line (name, indent)). rewrite Hc; reflexivity. }
  destruct Hname as [Hne Hkn].
  set (anc := adjust indent (stack_after pre)) in *.
  assert (Hlen : length anc <= indent).
  { apply increasing_below_length.
    - unfold anc. rewrite adjust_filter by apply stack_after_increasing.
      apply increasing_filter, stack_after_increasing.
    - apply adjust_below, stack_after_increasing. }
  assert (Hkeys : Forall (fun s => forallb key_char_i s = true)
                         (map fst anc ++ [name])).
  { apply Forall_app; split; [|repeat constructor; assumption].
    apply Forall_forall; intros s Hs.
    apply in_map_iff in Hs as (e & <- & He).
    unfold anc in He. rewrite adjust_filter in He
      by apply stack_after_increasing.
    apply filter_In in He as [He _]. rewrite stack_after_open in He.
    apply open_stack_in in He as (c & Hin & Hk).
    apply in_map_iff in Hin as (l' & <- & _).
    apply (classify_key_name l' e Hk). }
  split.
  { rewrite E, Hn; simpl. rewrite Nat.sub_0_r.
    rewrite nth_error_app2, Nat.sub_diag by lia. reflexivity. }
  split; [exact Hc|].
  destruct (join_snoc [dot] (map fst anc) name) as (prefix & Hpre).
  split; [|split; [|split; [|split]]].
  - rewrite Hp, Hpre. destruct name; [tauto|]. destruct prefix; discriminate.
  - rewrite Hp. apply join_forallb; [reflexivity|].
    eapply Forall_impl; [|exact Hkeys]. simpl; intros s Hs.
    eapply forallb_impl; [|exact Hs]. intros c Hcc; rewrite Hcc; reflexivity.
  - exists prefix; rewrite Hp; exact Hpre.
  - rewrite Hp, join_dots.
    + rewrite length_app, length_map; simpl. rewrite Nat.add_sub. exact Hlen.
    + eapply Forall_impl; [|exact Hkeys]. simpl; intros s Hs.
      eapply forallb_impl; [|exact Hs]. apply key_char_not_dot.
  - intros H0. rewrite Hp. destruct anc; [reflexivity|]. simpl in Hlen; lia.
Qed.

Lemma path_shape_witness :
  exists line indent name,
    nth_error (split_lines five_lines) (3 - 1) = Some line /\
    classify line = LeafReference indent name hex_b /\
    str_of "root.left.deep" <> [] /\
    forallb (fun c => key_char_i c || (c =? dot)%N) (str_of "root.left.deep")
    = true /\
    (exists prefix, str_of "root.left.deep" = prefix ++ name) /\
    count_occ N.eq_dec (str_of "root.left.deep") dot <= indent /\
    (indent = 0 -> str_of "root.left.deep" = name).
Proof.
  apply (path_shape five_lines hex_b (str_of "root.left.deep") 3).
  vm_compute; left; reflexivity.
Defined.

(** ** The lines [main] reads for the validation *)







(** * Further properties of the look-ups *)

(** ** The name search in one snapshot *)

Lemma startswith_spec (p s : str) :
  startswith p s = true <-> exists b, s = p ++ b.
Proof.
  revert s; induction p as [|x p IH]; intros s; simpl.
  - split; [intros _; exists s; reflexivity | reflexivity].
  - destruct s as [|y s].
    + split; [discriminate | intros (b & H); discriminate].
    + rewrite andb_true_iff, N.eqb_eq, IH. split.
      * intros (-> & b & ->); exists b; reflexivity.
      * intros (b & H); inversion H; subst; eauto.
Qed.

Lemma contains_spec (p s : str) :
  contains p s = true <-> exists a b, s = a ++ p ++ b.
Proof.
  induction s as [|y s IH].
  - simpl. rewrite orb_false_r, startswith_spec. split.
    + intros (b & H); exists [], b; exact H.
    + intros (a & b & H). destruct a; [exists b; exact H|discriminate].
  - change (contains p (y :: s))
      with (startswith p (y :: s) || contains p s).
    rewrite orb_true_iff, startswith_spec, IH. split.
    + intros [(b & H) | (a & b & H)].
      * exists [], b; exact H.
      * exists (y :: a), b; rewrite H; reflexivity.
    + intros (a & b & H). destruct a as [|z a].
      * left; exists b; exact H.
      * right; inversion H; subst; exists a, b; reflexivity.
Qed.

Lemma search_blocks_flat (lower : str -> str) (scenarios : list scenario)
  (c : char) (term : str) :
  search_blocks lower scenarios (c :: term)
  = map info_of (filter (name_matches lower (c :: term))
                        (all_items scenarios)).
Proof.
  unfold search_blocks, all_items.
  induction scenarios as [|sc rest IH]; [reflexivity|].
  simpl flat_map. rewrite filter_app, map_app, IH. f_equal.
  induction (scen_items sc) as [|it items IHi]; [reflexivity|].
  simpl. unfold name_matches at 1; simpl.
  destruct (contains _ _); simpl; rewrite IHi; reflexivity.
Qed.

(** X9.  The name search returns, in snapshot order, exactly the items
    whose lower-cased name holds the lower-cased term as a substring, each
    with its scenario; an item that matches is returned once per
    occurrence in the snapshot, so there are never more results than
    items.  The empty term returns nothing, although it is a substring of
    every name. *)
Theorem search_blocks_matches (lower : str -> str)
  (scenarios : list scenario) (term : str) :
  (term = [] -> search_blocks lower scenarios term = []) /\
  (term <> [] ->
   search_blocks lower scenarios term
   = map info_of (filter (name_matches lower term) (all_items scenarios))) /\
  (forall b,
      In b (search_blocks lower scenarios term) <->
      term <> [] /\
      exists sc it before after,
        In sc scenarios /\ In it (scen_items sc) /\
        b = info_of (sc, it) /\
        lower (item_name it) = before ++ lower term ++ after) /\
  length (search_blocks lower scenarios term) <= length (all_items scenarios).
Proof.
  destruct term as [|c term].
  - split; [reflexivity|]. split; [tauto|]. split; [|simpl; lia].
    intros b; simpl. split; [tauto | intros [H _]; apply H; reflexivity].
  - rewrite search_blocks_flat.
    split; [discriminate|]. split; [reflexivity|]. split.
    + intros b. rewrite in_map_iff. split.
      * intros ([sc it] & <- & Hx). apply filter_In in Hx as [Hin Hm].
        apply in_all_items in Hin as [H1 H2]; simpl in *.
        apply contains_spec in Hm as (before & after & Hm).
        split; [discriminate|]. exists sc, it, before, after; auto.
      * intros (_ & sc & it & before & after & H1 & H2 & -> & Hm).
        exists (sc, it); split; [reflexivity|]. apply filter_In; split.
        -- apply in_all_items; auto.
        -- apply contains_spec; exists before, after; exact Hm.
    + rewrite length_map. apply filter_length_le.
Qed.

(** ** The look-up by identifier in one snapshot *)

Lemma search_blocks_by_id_none (scenarios : list scenario)
  (block_id : str) :
  search_blocks_by_id scenarios block_id = None <->
  forall sc it, In sc scenarios -> In it (scen_items sc) ->
                item_id it <> block_id.
Proof.
  rewrite search_blocks_by_id_first. unfold first_match.
  destruct (find (has_id block_id) (all_items scenarios)) as [x|] eqn:E.
  - split; [discriminate|]. intros H; exfalso.
    apply find_some in E as [Hin Hid].
    apply in_all_items in Hin as [H1 H2]. apply str_eqb_eq in Hid.
    exact (H (fst x) (snd x) H1 H2 Hid).
  - split; [|reflexivity]. intros _ sc it H1 H2 Hid.
    assert (Hin : In (sc, it) (all_items scenarios))
      by (apply in_all_items; auto).
    pose proof (find_none _ _ E _ Hin) as Hf.
    unfold has_id in Hf; simpl in Hf. apply str_eqb_neq in Hf; auto.
Qed.

Lemma search_blocks_by_id_some (scenarios : list scenario)
  (block_id : str) (b : block_info) :
  search_blocks_by_id scenarios block_id = Some b ->
  exists sc it,
    In sc scenarios /\ In it (scen_items sc) /\
    item_id it = block_id /\ b = info_of (sc, it).
Proof.
  rewrite search_blocks_by_id_first. unfold first_match. intros H.
  destruct (find (has_id block_id) (all_items scenarios)) as [[sc it]|] eqn:E;
    [|discriminate].
  inversion H; subst. apply find_some in E as [Hin Hid].
  apply in_all_items in Hin as [H1 H2]. apply str_eqb_eq in Hid.
  exists sc, it; auto.
Qed.

(** X10.  [search_blocks_by_id] finds nothing exactly when no item of the
    snapshot has the identifier, and what it finds is an item of the
    snapshot with that identifier, reported with the id and name of the
    scenario that holds it. *)
Theorem search_blocks_by_id_sound_complete (scenarios : list scenario)
  (block_id : str) :
  (search_blocks_by_id scenarios block_id = None <->
   forall sc it, In sc scenarios -> In it (scen_items sc) ->
                 item_id it <> block_id) /\
  (forall b,
      search_blocks_by_id scenarios block_id = Some b ->
      exists sc it,
        In sc scenarios /\ In it (scen_items sc) /\
        item_id it = block_id /\ b = info_of (sc, it)).
Proof.
  split; [apply search_blocks_by_id_none|].
  intros b; apply search_blocks_by_id_some.
Qed.

(** ** The validator and the look-up by identifier *)

Lemma find_rev_is_some (A : Type) (p : A -> bool) (l : list A) :
  is_some (find p (rev l)) = is_some (find p l).
Proof.
  destruct (find p l) as [x|] eqn:E1; destruct (find p (rev l)) as [y|] eqn:E2;
    try reflexivity; exfalso.
  - apply find_some in E1 as [Hin Hp].
    rewrite (find_none _ _ E2 x) in Hp; [discriminate|].
    apply in_rev; rewrite rev_involutive; exact Hin.
  - apply find_some in E2 as [Hin Hp].
    rewrite (find_none _ _ E1 y) in Hp; [discriminate|].
    apply in_rev; exact Hin.
Qed.

Lemma nodup_key_unique (A : Type) (key : A -> str) (l : list A) (x y : A) :
  NoDup (map key l) -> In x l -> In y l -> key x = key y -> x = y.
Proof.
  induction l as [|z l IH]; simpl; intros Hn Hx Hy E; [tauto|].
  inversion Hn as [|? ? Hz Hn']; subst.
  destruct Hx as [-> | Hx], Hy as [-> | Hy]; auto.
  - exfalso; apply Hz. rewrite E; apply in_map; assumption.
  - exfalso; apply Hz. rewrite <- E; apply in_map; assumption.
Qed.

Lemma unique_ids_first_last (scenarios : list scenario) (block_id : str) :
  NoDup (all_ids scenarios) ->
  last_match scenarios block_id = first_match scenarios block_id.
Proof.
  unfold all_ids, last_match, first_match; intros Hn.
  pose proof (find_rev_is_some _ (has_id block_id) (all_items scenarios))
    as Hs.
  destruct (find (has_id block_id) (all_items scenarios)) as [x|] eqn:E1;
    destruct (find (has_id block_id) (rev (all_items scenarios)))
      as [y|] eqn:E2; try discriminate; [|reflexivity].
  apply find_some in E1 as [Hx Hpx]. apply find_some in E2 as [Hy Hpy].
  apply in_rev in Hy. unfold has_id in *.
  apply str_eqb_eq in Hpx. apply str_eqb_eq in Hpy.
  f_equal. apply (nodup_key_unique _ _ _ y x Hn Hy Hx). congruence.
Qed.

Lemma validate_block_ids_map (block_ids : list parsed_reference)
  (scenarios : list scenario) (env_name : str) :
  validate_block_ids block_ids scenarios env_name
  = map (fun r => result_for r (last_match scenarios (fst (fst r))))
        block_ids.
Proof.
  unfold validate_block_ids. apply map_ext; intros r.
  apply validate_one_last.
Qed.

(** X11.  The validator and [search_blocks_by_id] agree on which
    identifiers exist: a reference is valid exactly when the look-up by
    identifier finds its identifier in the same snapshot.  The two counts
    that are printed add up to the number of references, and the valid
    count is the number of references whose identifier the look-up
    finds. *)
Theorem validator_agrees_with_search (block_ids : list parsed_reference)
  (scenarios : list scenario) (env_name : str) :
  map vr_valid (validate_block_ids block_ids scenarios env_name)
  = map (fun r : parsed_reference =>
           is_some (search_blocks_by_id scenarios (fst (fst r))))
        block_ids /\
  valid_count (validate_block_ids block_ids scenarios env_name)
  + invalid_count (validate_block_ids block_ids scenarios env_name)
  = length block_ids /\
  valid_count (validate_block_ids block_ids scenarios env_name)
  = length (filter (fun r : parsed_reference =>
                      is_some (search_blocks_by_id scenarios (fst (fst r))))
                   block_ids).
Proof.
  rewrite validate_block_ids_map.
  assert (Hv : forall r : parsed_reference,
             vr_valid (result_for r (last_match scenarios (fst (fst r))))
             = is_some (search_blocks_by_id scenarios (fst (fst r)))).
  { intros r. rewrite search_blocks_by_id_first. simpl.
    unfold last_match, first_match. rewrite find_rev_is_some.
    destruct (find _ _); reflexivity. }
  split; [|split].
  - rewrite map_map. apply map_ext; exact Hv.
  - unfold invalid_count, valid_count.
    pose proof (filter_length_le vr_valid
                  (map (fun r => result_for r
                                   (last_match scenarios (fst (fst r))))
                       block_ids)) as Hle.
    rewrite length_map in *. lia.
  - unfold valid_count.
    induction block_ids as [|r rs IH]; [reflexivity|].
    cbn [map filter]. rewrite Hv.
    destruct (is_some _); cbn [length]; rewrite IH; reflexivity.
Qed.

(** X12.  When no two items of the snapshot share an identifier, the
    validator resolves every reference to the same scenario and block as
    the look-up by identifier does. *)
Theorem unique_ids_validator_matches_search
  (block_ids : list parsed_reference) (scenarios : list scenario)
  (env_name : str) (Hn : NoDup (all_ids scenarios)) :
  map (fun v => (vr_scenario_id v, vr_scenario_name v, vr_block_name v))
      (validate_block_ids block_ids scenarios env_name)
  = map (fun r : parsed_reference =>
           let b := search_blocks_by_id scenarios (fst (fst r)) in
           (option_map bi_scenario_id b, option_map bi_scenario_name b,
            option_map bi_block_name b))
        block_ids.
Proof.
  rewrite validate_block_ids_map, map_map. apply map_ext; intros r.
  rewrite unique_ids_first_last, search_blocks_by_id_first by assumption.
  simpl. destruct (first_match scenarios (fst (fst r))); reflexivity.
Qed.

Lemma unique_ids_validator_matches_search_witness :
  map (fun v => (vr_scenario_id v, vr_scenario_name v, vr_block_name v))
      (validate_block_ids [(str_of "bbb", str_of "p", 1)]
         [mk_scenario "s-prod" "Login"
            [mk_item "zzz" "other"; mk_item "bbb" "welcome"]] prod)
  = [(Some (str_of "s-prod"), Some (str_of "Login"),
      Some (str_of "welcome"))].
Proof.
  apply (unique_ids_validator_matches_search
           [(str_of "bbb", str_of "p", 1)]
           [mk_scenario "s-prod" "Login"
              [mk_item "zzz" "other"; mk_item "bbb" "welcome"]] prod).
  distinct_keys.
Defined.

(** ** What a cross-environment query reports *)

Lemma dict_get_in_keys (V : Type) (k : str) (d : dict V) (v : V) :
  dict_get k d = Some v -> In k (dict_keys d).
Proof.
  induction d as [|[k0 v0] d IH]; simpl; [discriminate|].
  destruct (str_eqb k k0) eqn:E; [|auto].
  apply str_eqb_eq in E; auto.
Qed.

Lemma dict_ext_map (A V : Type) (g : str * A -> V) (l : list (str * A)) :
  NoDup (map fst l) ->
  forall r : dict V,
    dict_keys r = map fst l ->
    (forall x, In x l -> dict_get (fst x) r = Some (g x)) ->
    r = map (fun x => (fst x, g x)) l.
Proof.
  induction l as [|x l IH]; intros Hn r Hk Hg.
  - destruct r; [reflexivity | discriminate].
  - destruct r as [|[k v] r]; [discriminate|].
    inversion Hn as [|? ? Hx Hn']; subst.
    simpl in Hk; inversion Hk as [[Hk1 Hk2]]; subst k.
    pose proof (Hg x (or_introl eq_refl)) as H0.
    simpl in H0; rewrite str_eqb_refl in H0; inversion H0; subst v.
    simpl; f_equal. apply IH; [assumption | assumption|].
    intros y Hy. specialize (Hg y (or_intror Hy)). simpl in Hg.
    destruct (str_eqb (fst y) (fst x)) eqn:E; [|exact Hg].
    apply str_eqb_eq in E. exfalso; apply Hx.
    rewrite <- E; apply in_map; assumption.
Qed.

Lemma find_matching_block_some (scenarios : list scenario)
  (scenario_name block_name : str) (b : block_info) :
  find_matching_block scenarios scenario_name block_name = Some b ->
  exists sc it,
    In sc scenarios /\ In it (scen_items sc) /\
    scen_name sc = scenario_name /\ item_name it = block_name /\
    b = info_of (sc, it).
Proof.
  unfold find_matching_block.
  destruct (find _ scenarios) as [sc|] eqn:E1; [|discriminate].
  destruct (find _ (scen_items sc)) as [it|] eqn:E2; [|discriminate].
  intros H; inversion H; subst.
  apply find_some in E1 as [H1 H1']. apply find_some in E2 as [H2 H2'].
  apply str_eqb_eq in H1'. apply str_eqb_eq in H2'.
  exists sc, it. unfold info_of; simpl. rewrite H1', H2'. auto.
Qed.

Lemma id_lookup_some (s : snapshot) (block_id : str) (b : block_info) :
  id_lookup s block_id = Some b ->
  truthy s = true /\
  exists sc it,
    In sc (scenarios_of s) /\ In it (scen_items sc) /\
    item_id it = block_id /\ b = info_of (sc, it).
Proof.
  unfold id_lookup. destruct (truthy s); [|discriminate].
  intros H; split; [reflexivity|].
  apply search_blocks_by_id_some; exact H.
Qed.

Lemma name_lookup_some (s : snapshot) (sn bn : str) (b : block_info) :
  name_lookup s sn bn = Some b ->
  truthy s = true /\
  exists sc it,
    In sc (scenarios_of s) /\ In it (scen_items sc) /\
    scen_name sc = sn /\ item_name it = bn /\ b = info_of (sc, it).
Proof.
  unfold name_lookup. destruct (truthy s); [|discriminate].
  intros H; split; [reflexivity|].
  apply find_matching_block_some; exact H.
Qed.

(** X13.  A cross-environment query never makes a block up: every block
    it reports for an environment is an item of that environment's
    snapshot, with the id and name of its scenario, and it is there
    either because it has the queried identifier or because its scenario
    and block names are those of the source. *)
Theorem cross_env_entries_are_real (envs : dict snapshot) (block_id : str)
  (Hn : NoDup (dict_keys envs)) :
  exists r,
    search_by_block_id_multi_env envs block_id = Some r /\
    forall e b,
      dict_get e r = Some (Some b) ->
      exists s sc it,
        In (e, s) envs /\ truthy s = true /\
        In sc (scenarios_of s) /\ In it (scen_items sc) /\
        block_fields b = block_fields (info_of (sc, it)) /\
        (item_id it = block_id \/
         exists si,
           first_source envs block_id = Some si /\
           scen_name sc = bi_scenario_name si /\
           item_name it = bi_block_name si).
Proof.
  destruct (search_by_block_id_multi_env_spec envs block_id Hn)
    as (r & Hr & Hkeys & Hget).
  exists r; split; [exact Hr|]. intros e b Hb.
  assert (He : In e (dict_keys envs)).
  { rewrite <- Hkeys. eapply dict_get_in_keys; exact Hb. }
  apply in_map_iff in He as ([e' s] & He' & Hin); simpl in He'; subst e'.
  rewrite (Hget e s Hin) in Hb. inversion Hb as [Hexp]; clear Hb.
  unfold expected_entry, found_entry in Hexp.
  destruct (id_lookup s block_id) as [b0|] eqn:El.
  - apply id_lookup_some in El as (Ht & sc & it & H1 & H2 & H3 & ->).
    exists s, sc, it. repeat split; auto.
    destruct (is_source _ e); inversion Hexp; reflexivity.
  - destruct (first_source envs block_id) as [si|] eqn:Es; [|discriminate].
    apply name_lookup_some in Hexp as (Ht & sc & it & H1 & H2 & H3 & H4 & ->).
    exists s, sc, it. repeat split; auto.
    right; exists si; auto.
Qed.

Lemma cross_env_entries_are_real_witness :
  exists r,
    search_by_block_id_multi_env promoted_envs (str_of "bbb") = Some r /\
    forall e b,
      dict_get e r = Some (Some b) ->
      exists s sc it,
        In (e, s) promoted_envs /\ truthy s = true /\
        In sc (scenarios_of s) /\ In it (scen_items sc) /\
        block_fields b = block_fields (info_of (sc, it)) /\
        (item_id it = str_of "bbb" \/
         exists si,
           first_source promoted_envs (str_of "bbb") = Some si /\
           scen_name sc = bi_scenario_name si /\
           item_name it = bi_block_name si).
Proof.
  apply (cross_env_entries_are_real promoted_envs (str_of "bbb")).
  distinct_keys.
Defined.

Lemma first_source_split (envs : dict snapshot) (block_id : str)
  (si : block_info) :
  first_source envs block_id = Some si ->
  exists before a sa after ba,
    envs = before ++ (a, sa) :: after /\
    (forall e s, In (e, s) before -> id_lookup s block_id = None) /\
    id_lookup sa block_id = Some ba /\
    si = mark_env a ba.
Proof.
  induction envs as [|[e s] envs IH]; simpl; [discriminate|].
  destruct (id_lookup s block_id) as [b|] eqn:El.
  - intros H; inversion H; subst.
    exists [], e, s, envs, b. repeat split; auto. intros ? ? [].
  - intros H. destruct (IH H) as (before & a & sa & after & ba & -> & Hb & Ha & ->).
    exists ((e, s) :: before), a, sa, after, ba. repeat split; auto.
    intros e' s' [Heq | Hin]; [inversion Heq; subst; exact El | eauto].
Qed.

Lemma first_result_names (src : block_info) (block_id : str)
  (a : str) (sa : snapshot) (ba : block_info) (after : dict snapshot) :
  src = mark_env a ba ->
  id_lookup sa block_id = Some ba ->
  forall before : dict snapshot,
    (forall e s, In (e, s) before -> id_lookup s block_id = None) ->
    exists b,
      first_result
        (map (fun x : str * snapshot =>
                (fst x,
                 match found_entry (Some src) block_id (fst x) (snd x) with
                 | Some b => Some b
                 | None => name_lookup (snd x) (bi_scenario_name src)
                                       (bi_block_name src)
                 end))
             (before ++ (a, sa) :: after))
      = Some b /\
      bi_scenario_name b = bi_scenario_name src /\
      bi_block_name b = bi_block_name src.
Proof.
  intros Hsrc Ha before; induction before as [|[e s] before IH]; intros Hb.
  - simpl. unfold found_entry; rewrite Ha.
    exists (mark_env a ba). subst src; simpl. rewrite str_eqb_refl. auto.
  - simpl. unfold found_entry at 1. rewrite (Hb e s) by (left; reflexivity).
    destruct (name_lookup s (bi_scenario_name src) (bi_block_name src))
      as [b|] eqn:En.
    + exists b. split; [reflexivity|].
      apply name_lookup_some in En as (_ & sc & it & _ & _ & H3 & H4 & ->).
      simpl; auto.
    + apply IH. intros e' s' Hin; apply (Hb e' s'); right; exact Hin.
Qed.

(** X14.  When the search mode of [main] takes the identifier branch, the
    report is never the not-found message: at least one environment has a
    block.  The scenario and block names that head the report, taken from
    the first environment with a block, are those of the source, the first
    environment where the identifier resolves, even when an earlier
    environment was only matched by name. *)
Theorem identifier_branch_report (envs : dict snapshot) (term : str)
  (Hn : NoDup (dict_keys envs))
  (Hfound : block_id_found envs term = true) :
  exists r si b,
    search_by_block_id_multi_env envs term = Some r /\
    first_source envs term = Some si /\
    0 < found_count r /\
    first_result r = Some b /\
    bi_scenario_name b = bi_scenario_name si /\
    bi_block_name b = bi_block_name si.
Proof.
  rewrite block_id_found_first_source in Hfound.
  destruct (first_source envs term) as [si|] eqn:Es; [|discriminate].
  destruct (search_by_block_id_multi_env_spec envs term Hn)
    as (r & Hr & Hkeys & Hget).
  assert (Er : r = map (fun x : str * snapshot =>
                          (fst x, expected_entry envs term (fst x) (snd x)))
                       envs).
  { apply dict_ext_map; [exact Hn | exact Hkeys|].
    intros [e s] Hin; apply Hget; exact Hin. }
  destruct (first_source_split envs term si Es)
    as (before & a & sa & after & ba & Eenvs & Hb & Ha & Hsi).
  assert (Er' : r = map (fun x : str * snapshot =>
                (fst x,
                 match found_entry (Some si) term (fst x) (snd x) with
                 | Some b => Some b
                 | None => name_lookup (snd x) (bi_scenario_name si)
                                       (bi_block_name si)
                 end))
             (before ++ (a, sa) :: after)).
  { rewrite Er, <- Eenvs. apply map_ext; intros [e s].
    unfold expected_entry; rewrite Es; reflexivity. }
  destruct (first_result_names si term a sa ba after Hsi Ha before Hb)
    as (b & Hfirst & Hnames).
  rewrite <- Er' in Hfirst.
  exists r, si, b. split; [exact Hr|]. split; [reflexivity|].
  split; [|split; [exact Hfirst | exact Hnames]].
  unfold found_count. clear -Hfirst.
  induction r as [|[e [v|]] r IH]; simpl in *; [discriminate | lia | auto].
Qed.

Lemma identifier_branch_report_witness :
  exists r si b,
    search_by_block_id_multi_env promoted_envs (str_of "bbb") = Some r /\
    first_source promoted_envs (str_of "bbb") = Some si /\
    0 < found_count r /\
    first_result r = Some b /\
    bi_scenario_name b = bi_scenario_name si /\
    bi_block_name b = bi_block_name si.
Proof.
  apply (identifier_branch_report promoted_envs (str_of "bbb")).
  - distinct_keys.
  - vm_compute; reflexivity.
Defined.

(** * Further properties of the grouped display *)

(** ** The order of strings *)

Lemma str_ltb_irrefl (a : str) : str_ltb a a = false.
Proof.
  induction a as [|x a IH]; [reflexivity|]. simpl.
  rewrite N.ltb_irrefl, N.eqb_refl, IH. reflexivity.
Qed.

Lemma str_ltb_trans (a b c : str) :
  str_ltb a b = true -> str_ltb b c = true -> str_ltb a c = true.
Proof.
  revert b c; induction a as [|x a IH]; intros [|y b] [|z c]; simpl;
    try discriminate; try reflexivity.
  rewrite !orb_true_iff, !andb_true_iff, !N.ltb_lt, !N.eqb_eq.
  intros [H1 | [H1 H1']] [H2 | [H2 H2']].
  - left; lia.
  - left; lia.
  - left; lia.
  - right; split; [lia | eapply IH; eassumption].
Qed.

Lemma str_ltb_total (a b : str) :
  str_ltb a b = false -> str_ltb b a = false -> a = b.
Proof.
  revert b; induction a as [|x a IH]; intros [|y b]; simpl;
    try discriminate; [reflexivity|].
  rewrite !orb_false_iff, !andb_false_iff, !N.ltb_ge, !N.eqb_neq.
  intros [H1 H1'] [H2 H2'].
  assert (x = y) by lia; subst y.
  f_equal. apply IH; [destruct H1' | destruct H2']; tauto.
Qed.

(** ** Sorting the items of a dictionary *)

Lemma insert_by_key_in (V : Type) (x y : str * V) (l : list (str * V)) :
  In y (insert_by_key x l) <-> y = x \/ In y l.
Proof.
  induction l as [|z l IH]; simpl; [intuition|].
  destruct (str_ltb (fst z) (fst x)); simpl; rewrite ?IH; intuition.
Qed.

Lemma sorted_items_in (V : Type) (d : dict V) (y : str * V) :
  In y (sorted_items d) <-> In y d.
Proof.
  unfold sorted_items; induction d as [|x d IH]; simpl; [tauto|].
  rewrite insert_by_key_in, IH. intuition.
Qed.

Lemma insert_by_key_sorted (V : Type) (x : str * V) (l : list (str * V)) :
  rows_sorted l -> (forall y, In y l -> fst y <> fst x) ->
  rows_sorted (insert_by_key x l).
Proof.
  unfold rows_sorted; induction l as [|z l IH]; simpl; intros Hs Hd.
  - repeat constructor.
  - inversion Hs as [|? ? Hs' Hall]; subst.
    destruct (str_ltb (fst z) (fst x)) eqn:E.
    + constructor; [apply IH; auto|].
      apply Forall_forall; intros y Hy. apply insert_by_key_in in Hy.
      destruct Hy as [-> | Hy]; [exact E|].
      rewrite Forall_forall in Hall; auto.
    + assert (Hxz : str_ltb (fst x) (fst z) = true).
      { destruct (str_ltb (fst x) (fst z)) eqn:E'; [reflexivity|].
        exfalso. apply (Hd z (or_introl eq_refl)).
        apply str_ltb_total; assumption. }
      constructor; [constructor; assumption|].
      constructor; [exact Hxz|].
      apply Forall_forall; intros y Hy.
      rewrite Forall_forall in Hall.
      eapply str_ltb_trans; [exact Hxz | auto].
Qed.

Lemma sorted_items_sorted (V : Type) (d : dict V) :
  NoDup (dict_keys d) -> rows_sorted (sorted_items d).
Proof.
  unfold sorted_items; induction d as [|x d IH]; simpl; intros Hn.
  - constructor.
  - inversion Hn as [|? ? Hx Hn']; subst.
    apply insert_by_key_sorted; [apply IH; assumption|].
    intros y Hy E. apply Hx. rewrite <- E. apply in_map.
    apply (sorted_items_in _ d); exact Hy.
Qed.

Lemma dict_set_nodup (V : Type) (k : str) (v : V) (d : dict V) :
  NoDup (dict_keys d) -> NoDup (dict_keys (dict_set k v d)).
Proof.
  induction d as [|[k0 v0] d IH]; simpl; intros Hn.
  - repeat constructor; tauto.
  - inversion Hn as [|? ? Hk Hn']; subst.
    destruct (str_eqb k k0) eqn:E; simpl.
    + apply str_eqb_eq in E; subst. constructor; assumption.
    + constructor; [|auto]. intros Hin. apply Hk.
      assert (Hg : dict_get k0 (dict_set k v d) <> None).
      { clear -Hin. induction (dict_set k v d) as [|[k1 v1] d' IH'];
          simpl in *; [tauto|].
        destruct (str_eqb k0 k1) eqn:E1; [discriminate|].
        destruct Hin as [-> | Hin];
          [rewrite str_eqb_refl in E1; discriminate | auto]. }
      rewrite dict_get_set in Hg.
      rewrite str_eqb_sym, E in Hg.
      destruct (dict_get k0 d) eqn:Eg; [|tauto].
      eapply dict_get_in_keys; exact Eg.
Qed.

Lemma dict_get_in (V : Type) (k : str) (v : V) (d : dict V) :
  NoDup (dict_keys d) -> (dict_get k d = Some v <-> In (k, v) d).
Proof.
  induction d as [|[k0 v0] d IH]; simpl; intros Hn.
  - split; [discriminate | tauto].
  - inversion Hn as [|? ? Hk Hn']; subst.
    destruct (str_eqb k k0) eqn:E.
    + apply str_eqb_eq in E; subst k0. split.
      * intros H; inversion H; auto.
      * intros [H | H]; [inversion H; reflexivity|].
        exfalso; apply Hk. change k with (fst (k, v)).
        apply in_map; exact H.
    + rewrite IH by assumption. split; [auto|].
      intros [H | H]; [|exact H]. inversion H; subst.
      rewrite str_eqb_refl in E; discriminate.
Qed.

(** ** The groups *)

Lemma build_block_groups_flat (env_results : dict (list block_info)) :
  forall groups,
    fold_left
      (fun groups (e : str * list block_info) =>
         let (env_name, results) := e in
         fold_left (group_result env_name) results groups)
      env_results groups
    = fold_left (fun g (x : str * block_info) =>
                   group_result (fst x) g (snd x))
                (flat_results env_results) groups.
Proof.
  unfold flat_results.
  induction env_results as [|[e results] rest IH]; intros groups;
    [reflexivity|].
  simpl. rewrite fold_left_app, IH. f_equal.
  clear. revert groups.
  induction results as [|b results IH]; intros groups; [reflexivity|].
  simpl; apply IH.
Qed.

Lemma total_count_flat (env_results : dict (list block_info)) :
  forall n,
    fold_left (fun n (e : str * list block_info) => n + length (snd e))
              env_results n
    = n + length (flat_results env_results).
Proof.
  unfold flat_results.
  induction env_results as [|e rest IH]; intros n; simpl; [lia|].
  rewrite IH, length_app, length_map. lia.
Qed.

Lemma display_rows (env_results : dict (list block_info)) :
  display_search_results_multi_env env_results
  = sorted_items (build_block_groups env_results).
Proof.
  unfold display_search_results_multi_env, build_block_groups.
  rewrite total_count_flat, build_block_groups_flat. simpl.
  destruct (flat_results env_results); reflexivity.
Qed.

Lemma in_flat_results (env_results : dict (list block_info))
  (x : str * block_info) :
  In x (flat_results env_results) <->
  exists results, In (fst x, results) env_results /\ In (snd x) results.
Proof.
  unfold flat_results; rewrite in_flat_map. split.
  - intros ([e results] & He & Hx). simpl in Hx.
    apply in_map_iff in Hx as (b & <- & Hb). exists results; auto.
  - intros (results & He & Hb). exists (fst x, results); split; [exact He|].
    simpl. apply in_map_iff; exists (snd x); split; [|exact Hb].
    destruct x; reflexivity.
Qed.

(** What the groups hold after the results [xs] have been grouped. *)
Lemma groups_invariant (xs : list (str * block_info)) :
  let groups :=
    fold_left (fun g (x : str * block_info) => group_result (fst x) g (snd x))
              xs [] in
  NoDup (dict_keys groups) /\
  (forall k g,
      dict_get k groups = Some g ->
      (exists x, In x xs /\ result_key (snd x) = k /\
                 bg_scenario_name g = bi_scenario_name (snd x) /\
                 bg_block_name g = bi_block_name (snd x)) /\
      (forall e d,
          dict_get e (bg_envs g) = Some d ->
          exists x, In x xs /\ fst x = e /\ result_key (snd x) = k /\
                    d = result_data (snd x))) /\
  (forall x, In x xs ->
             exists g d,
               dict_get (result_key (snd x)) groups = Some g /\
               dict_get (fst x) (bg_envs g) = Some d).
Proof.
  induction xs as [|[e b] xs IH] using rev_ind.
  - simpl. split; [constructor|]. split; [discriminate | intros ? []].
  - cbv zeta in IH |- *. rewrite fold_left_app; simpl.
    set (groups := fold_left
                     (fun g (x : str * block_info) =>
                        group_result (fst x) g (snd x)) xs []) in *.
    destruct IH as (Hn & Hsound & Hcomplete).
    unfold group_result. fold (result_key b). fold (result_data b).
    set (g0 := match dict_get (result_key b) groups with
               | Some g => g
               | None => {| bg_scenario_name := bi_scenario_name b;
                            bg_block_name := bi_block_name b;
                            bg_envs := [] |}
               end).
    split; [apply dict_set_nodup; exact Hn|]. split.
    + intros k g. rewrite dict_get_set.
      destruct (str_eqb k (result_key b)) eqn:Ek.
      * apply str_eqb_eq in Ek; subst k.
        intros H; inversion H; subst g; clear H. simpl. split.
        -- unfold g0. destruct (dict_get (result_key b) groups) as [g|] eqn:Eg.
           ++ destruct (Hsound _ _ Eg) as ((x & Hx & H1 & H2 & H3) & _).
              exists x; repeat split; auto. apply in_or_app; auto.
           ++ exists (e, b); repeat split. apply in_or_app; simpl; auto.
        -- intros e' d. rewrite dict_get_set.
           destruct (str_eqb e' e) eqn:Ee.
           ++ apply str_eqb_eq in Ee; subst e'.
              intros H; inversion H; subst d.
              exists (e, b); repeat split. apply in_or_app; simpl; auto.
           ++ unfold g0.
              destruct (dict_get (result_key b) groups) as [g|] eqn:Eg;
                [|discriminate].
              intros Hd. destruct (Hsound _ _ Eg) as (_ & Henvs).
              destruct (Henvs e' d Hd) as (x & Hx & H1 & H2 & H3).
              exists x; repeat split; auto. apply in_or_app; auto.
      * intros Hg. destruct (Hsound _ _ Hg) as ((x & Hx & Hrest) & Henvs).
        split.
        -- exists x; split; [apply in_or_app; auto | exact Hrest].
        -- intros e' d Hd. destruct (Henvs e' d Hd) as (y & Hy & Hrest').
           exists y; split; [apply in_or_app; auto | exact Hrest'].
    + intros x Hx. apply in_app_or in Hx as [Hx | [<- | []]].
      * destruct (Hcomplete x Hx) as (g & d & Hg & Hd).
        rewrite dict_get_set.
        destruct (str_eqb (result_key (snd x)) (result_key b)) eqn:Ek.
        -- apply str_eqb_eq in Ek. rewrite Ek in Hg.
           unfold g0; rewrite Hg; simpl.
           destruct (str_eqb (fst x) e) eqn:Ee;
             eexists; eexists; (split; [reflexivity|]); simpl;
             rewrite dict_get_set, Ee; [reflexivity | exact Hd].
        -- exists g, d; auto.
      * simpl. rewrite dict_get_set, str_eqb_refl.
        eexists; eexists; split; [reflexivity|]. simpl.
        rewrite dict_get_set, str_eqb_refl; reflexivity.
Qed.

(** ** The rows *)

Lemma display_row_group (env_results : dict (list block_info)) (k : str)
  (g : block_group) :
  In (k, g) (display_search_results_multi_env env_results) <->
  dict_get k (build_block_groups env_results) = Some g.
Proof.
  rewrite display_rows, sorted_items_in. symmetry. apply dict_get_in.
  unfold build_block_groups. rewrite build_block_groups_flat.
  apply (groups_invariant (flat_results env_results)).
Qed.

Lemma display_rows_sorted (env_results : dict (list block_info)) :
  rows_sorted (display_search_results_multi_env env_results).
Proof.
  pose proof (groups_invariant (flat_results env_results)) as Hinv.
  cbv zeta in Hinv. rewrite <- build_block_groups_flat in Hinv.
  fold (build_block_groups env_results) in Hinv.
  rewrite display_rows. apply sorted_items_sorted. apply Hinv.
Qed.

Lemma display_rows_real (env_results : dict (list block_info)) (k : str)
  (g : block_group) :
  In (k, g) (display_search_results_multi_env env_results) ->
  k = group_key (bg_scenario_name g) (bg_block_name g) /\
  (exists e results b,
      In (e, results) env_results /\ In b results /\
      bg_scenario_name g = bi_scenario_name b /\
      bg_block_name g = bi_block_name b) /\
  (forall e d,
      dict_get e (bg_envs g) = Some d ->
      exists results b,
        In (e, results) env_results /\ In b results /\
        result_key b = k /\ d = result_data b).
Proof.
  pose proof (groups_invariant (flat_results env_results)) as Hinv.
  cbv zeta in Hinv. rewrite <- build_block_groups_flat in Hinv.
  fold (build_block_groups env_results) in Hinv.
  destruct Hinv as (_ & Hsound & _).
  intros Hrow. apply display_row_group in Hrow.
  destruct (Hsound k g Hrow) as ((x & Hx & Hk & Hs & Hb) & Henvs).
  apply in_flat_results in Hx as (results & He & Hin).
  split; [|split].
  - rewrite <- Hk. unfold result_key. rewrite Hs, Hb. reflexivity.
  - exists (fst x), results, (snd x); auto.
  - intros e d Hd. destruct (Henvs e d Hd) as (y & Hy & H1 & H2 & H3).
    apply in_flat_results in Hy as (results' & He' & Hin').
    subst e. exists results', (snd y); auto.
Qed.

(** X15.  The rows of the grouped display come in strictly growing order
    of their keys, so no key has two rows.  Nothing in a row is made up:
    its key is the concatenation of the scenario and block names that
    label it, the label is that of a result of the search, and every
    environment it lists stands for a result of that environment with
    that key, whose scenario and block ids it shows. *)
Theorem grouped_rows_sorted_and_real
  (env_results : dict (list block_info)) :
  rows_sorted (display_search_results_multi_env env_results) /\
  forall k g,
    In (k, g) (display_search_results_multi_env env_results) ->
    k = group_key (bg_scenario_name g) (bg_block_name g) /\
    (exists e results b,
        In (e, results) env_results /\ In b results /\
        bg_scenario_name g = bi_scenario_name b /\
        bg_block_name g = bi_block_name b) /\
    (forall e d,
        dict_get e (bg_envs g) = Some d ->
        exists results b,
          In (e, results) env_results /\ In b results /\
          result_key b = k /\ d = result_data b).
Proof.
  split; [apply display_rows_sorted|].
  intros k g; apply display_rows_real.
Qed.

(** X16.  No result of the name search is lost by the grouping: for every
    result of every environment there is a row with the key of its names,
    and that row lists the environment.  When an environment has several
    results of one key, the row shows one of them. *)
Theorem every_result_has_its_row (env_results : dict (list block_info))
  (e : str) (results : list block_info) (b : block_info)
  (He : In (e, results) env_results) (Hb : In b results) :
  exists g d,
    In (result_key b, g) (display_search_results_multi_env env_results) /\
    dict_get e (bg_envs g) = Some d /\
    exists results' b',
      In (e, results') env_results /\ In b' results' /\
      result_key b' = result_key b /\ d = result_data b'.
Proof.
  pose proof (groups_invariant (flat_results env_results)) as Hinv.
  cbv zeta in Hinv. rewrite <- build_block_groups_flat in Hinv.
  fold (build_block_groups env_results) in Hinv.
  destruct Hinv as (_ & Hsound & Hcomplete).
  destruct (Hcomplete (e, b)) as (g & d & Hg & Hd).
  { apply in_flat_results; exists results; auto. }
  simpl in Hg, Hd. exists g, d.
  split; [apply display_row_group; exact Hg|]. split; [exact Hd|].
  destruct (Hsound _ _ Hg) as (_ & Henvs).
  destruct (Henvs e d Hd) as (y & Hy & H1 & H2 & H3).
  apply in_flat_results in Hy as (results' & He' & Hin').
  rewrite H1 in He'. exists results', (snd y); auto.
Qed.

Lemma every_result_has_its_row_witness :
  exists g d,
    In (result_key (mk_block "s-prod" "Login" "bbb" "welcome" None), g)
       (display_search_results_multi_env welcome_results) /\
    dict_get prod (bg_envs g) = Some d /\
    exists results' b',
      In (prod, results') welcome_results /\ In b' results' /\
      result_key b'
      = result_key (mk_block "s-prod" "Login" "bbb" "welcome" None) /\
      d = result_data b'.
Proof.
  apply (every_result_has_its_row welcome_results prod
           [mk_block "s-prod" "Login" "bbb" "welcome" None;
            mk_block "s-prod" "Login" "ccc" "welcome back" None]).
  - right; left; reflexivity.
  - left; reflexivity.
Defined.

Lemma group_key_injective (s b s' b' : str) :
  ~ In colon s -> ~ In colon s' ->
  group_key s b = group_key s' b' -> s = s' /\ b = b'.
Proof.
  unfold group_key. revert s'; induction s as [|x s IH]; intros [|y s'];
    simpl; intros H1 H2 E.
  - inversion E; auto.
  - inversion E; subst; tauto.
  - inversion E; subst; tauto.
  - inversion E; subst. destruct (IH s') as [-> ->]; auto.
Qed.

(** X17.  When no scenario name among the results holds a colon, the rows
    stand for the (scenario name, block name) pairs one to one: a result
    has the key of a row exactly when its two names are the label of the
    row. *)
Theorem colon_free_names_group_by_pair
  (env_results : dict (list block_info))
  (Hfree : forall e results b,
      In (e, results) env_results -> In b results ->
      ~ In colon (bi_scenario_name b)) :
  forall k g,
    In (k, g) (display_search_results_multi_env env_results) ->
    forall e results b,
      In (e, results) env_results -> In b results ->
      (result_key b = k <->
       bi_scenario_name b = bg_scenario_name g /\
       bi_block_name b = bg_block_name g).
Proof.
  intros k g Hrow e results b He Hb.
  destruct (display_rows_real env_results k g Hrow)
    as (Hk & (e0 & results0 & b0 & He0 & Hb0 & Hs & Hn) & _).
  split.
  - intros Hkey. rewrite Hk in Hkey. unfold result_key in Hkey.
    apply group_key_injective in Hkey; [exact Hkey | eauto|].
    rewrite Hs; eauto.
  - intros [H1 H2]. unfold result_key. rewrite H1, H2, Hk. reflexivity.
Qed.

Lemma colon_free_names_group_by_pair_witness :
  exists g,
    In (result_key (mk_block "s-prod" "Login" "bbb" "welcome" None), g)
       (display_search_results_multi_env welcome_results) /\
    (result_key (mk_block "s-dev" "Login" "aaa" "welcome" None)
     = result_key (mk_block "s-prod" "Login" "bbb" "welcome" None) <->
     bi_scenario_name (mk_block "s-dev" "Login" "aaa" "welcome" None)
     = bg_scenario_name g /\
     bi_block_name (mk_block "s-dev" "Login" "aaa" "welcome" None)
     = bg_block_name g).
Proof.
  assert (Hrow : exists g,
             In (result_key (mk_block "s-prod" "Login" "bbb" "welcome" None),
                 g)
                (display_search_results_multi_env welcome_results)).
  { eexists. vm_compute. left. reflexivity. }
  destruct Hrow as [g Hrow]. exists g. split; [exact Hrow|].
  apply (colon_free_names_group_by_pair welcome_results) with
    (e := dev)
    (results := [mk_block "s-dev" "Login" "aaa" "welcome" None]);
    [| exact Hrow | left; reflexivity | left; reflexivity].
  intros e results b He Hb.
  repeat (destruct He as [He | He];
          [inversion He; subst; clear He;
           repeat (destruct Hb as [Hb | Hb];
                   [subst b; vm_compute;
                    let H := fresh in
                    intros H;
                    repeat (destruct H as [H | H]; [discriminate|]);
                    exact H|]);
           destruct Hb|]).
  destruct He.
Defined.

(** * The environment file *)

(** ** Stripping *)

Lemma lstrip_head_ok (s : str) : head_ok s = true -> lstrip s = s.
Proof.
  destruct s as [|c s]; [reflexivity|].
  unfold lstrip, head_ok; cbn [drop_while].
  intros H; apply negb_true_iff in H; rewrite H; reflexivity.
Qed.

Lemma rstrip_last_ok (s : str) : head_ok (rev s) = true -> rstrip s = s.
Proof.
  intros H; unfold rstrip. fold (lstrip (rev s)).
  rewrite lstrip_head_ok by assumption. apply rev_involutive.
Qed.

Lemma head_ok_app (u v : str) : u <> [] -> head_ok (u ++ v) = head_ok u.
Proof. destruct u; [tauto | reflexivity]. Qed.

Lemma strip_core (a s b : str) :
  forallb is_space a = true -> forallb is_space b = true ->
  trimmed s = true -> strip (a ++ s ++ b) = s.
Proof.
  intros Ha Hb Hs. apply andb_true_iff in Hs as [Hh Hl].
  unfold strip. rewrite app_assoc, rstrip_app_space by assumption.
  destruct s as [|c s].
  - rewrite app_nil_r.
    rewrite <- (app_nil_l a), rstrip_app_space by assumption. reflexivity.
  - rewrite rstrip_last_ok.
    + unfold lstrip. rewrite drop_while_app_all by assumption.
      apply lstrip_head_ok; exact Hh.
    + rewrite rev_app_distr, head_ok_app; [exact Hl|].
      simpl; destruct (rev s); discriminate.
Qed.

Lemma in_drop_while (A : Type) (p : A -> bool) (s : list A) (c : A) :
  In c (drop_while p s) -> In c s.
Proof.
  induction s as [|x s IH]; simpl; [tauto|].
  destruct (p x); simpl; tauto.
Qed.

Lemma in_take_while (p : char -> bool) (s : str) (c : char) :
  In c (take_while p s) -> In c s.
Proof.
  induction s as [|x s IH]; simpl; [tauto|].
  destruct (p x); simpl; tauto.
Qed.

Lemma in_strip (s : str) (c : char) : In c (strip s) -> In c s.
Proof.
  unfold strip, lstrip, rstrip. intros H.
  apply in_drop_while, in_rev, in_drop_while, in_rev in H. exact H.
Qed.

Lemma in_removelast (A : Type) (l : list A) (c : A) :
  In c (removelast l) -> In c l.
Proof.
  induction l as [|x l IH]; simpl; [tauto|].
  destruct l; simpl in *; tauto.
Qed.

Lemma in_unquote (v : str) (c : char) : In c (unquote v) -> In c v.
Proof.
  unfold unquote. destruct (2 <=? length v); [|tauto].
  destruct (_ || _); [|tauto].
  intros H. apply in_removelast in H. destruct v; simpl in *; tauto.
Qed.

Lemma env_assignment_chars (raw key value : str) :
  env_assignment raw = Some (key, value) ->
  forall c, In c key \/ In c value -> In c raw.
Proof.
  unfold env_assignment. destruct (strip raw) as [|x line] eqn:E;
    [discriminate|].
  destruct (x =? hash)%N; [discriminate|].
  remember (x :: line) as L eqn:EL.
  destruct (existsb (fun x => (x =? equals_sign)%N) L); [|discriminate].
  intros H; inversion H; subst key value; clear H. intros c [Hc | Hc].
  - apply in_strip, in_take_while in Hc. apply in_strip; rewrite E; exact Hc.
  - apply in_unquote, in_strip in Hc.
    apply in_strip; rewrite E.
    apply (in_drop_while _ (fun x => negb (x =? equals_sign)%N)).
    destruct (drop_while (fun x => negb (x =? equals_sign)%N) L) as [|y r];
      [destruct Hc|].
    right; exact Hc.
Qed.

Lemma space_not_equals (c : char) :
  is_space c = true -> negb (c =? 61)%N = true.
Proof. char_class. Qed.

Lemma unquote_quoted (q : char) (value : str) :
  q = double_quote \/ q = single_quote ->
  unquote (q :: value ++ [q]) = value /\
  trimmed (q :: value ++ [q]) = true.
Proof.
  intros Hq. unfold unquote, trimmed, ends_with_char.
  replace (2 <=? length (q :: value ++ [q])) with true
    by (symmetry; apply Nat.leb_le; rewrite length_cons, length_app;
        simpl; lia).
  change (rev (q :: value ++ [q])) with (rev (value ++ [q]) ++ [q]).
  rewrite rev_app_distr. simpl.
  rewrite removelast_last.
  destruct Hq as [-> | ->]; split; reflexivity.
Qed.

(** X18.  How a line of the environment file is read.  For a name that is
    not empty, holds no [=] and no white space at its ends and does not
    start a comment, and a value without white space at its ends, the
    line made of the name, [=] and the value, with any white space around
    the three, assigns to the name the value less one pair of enclosing
    quotes.  A value in double or in single quotes is taken as it stands
    between the quotes, white space and [=] included. *)
Theorem env_assignment_reads (key value ws1 ws2 ws3 ws4 : str)
  (Hk : env_name_ok key = true) (Hv : trimmed value = true)
  (H1 : forallb is_space ws1 = true) (H2 : forallb is_space ws2 = true)
  (H3 : forallb is_space ws3 = true) (H4 : forallb is_space ws4 = true) :
  env_assignment
    (ws1 ++ key ++ ws2 ++ [equals_sign] ++ ws3 ++ value ++ ws4)
  = Some (key, unquote value) /\
  forall q inner,
    q = double_quote \/ q = single_quote ->
    value = q :: inner ++ [q] -> unquote value = inner.
Proof.
  split; [|intros q inner Hq ->; apply unquote_quoted; exact Hq].
  assert (Hkey : exists k0 key', key = k0 :: key' /\ (k0 =? hash)%N = false).
  { destruct key as [|k0 key']; [discriminate|]. exists k0, key'.
    split; [reflexivity|]. unfold env_name_ok in Hk.
    apply andb_true_iff in Hk as [Hk _]. apply andb_true_iff in Hk as [_ Hh].
    apply negb_true_iff; exact Hh. }
  assert (Hkt : trimmed key = true /\
                forallb (fun x => negb (x =? equals_sign)%N) key = true).
  { destruct key; [discriminate|]. unfold env_name_ok in Hk.
    apply andb_true_iff in Hk as [Hk Hne].
    apply andb_true_iff in Hk as [Hkt _]. auto. }
  destruct Hkt as [Hkt Hne]. clear Hk.
  destruct Hkey as (k0 & key' & Ekey & Hh).
  assert (Hknil : key <> []) by (rewrite Ekey; discriminate).
  assert (Hkh : head_ok key = true)
    by (apply andb_true_iff in Hkt; tauto).
  assert (Hpre : forallb (fun x => negb (x =? equals_sign)%N) (key ++ ws2)
                 = true).
  { rewrite forallb_app. apply andb_true_iff; split; [exact Hne|].
    eapply forallb_impl; [|exact H2]. apply space_not_equals. }
  assert (Hline : exists tail,
             strip (ws1 ++ key ++ ws2 ++ [equals_sign] ++ ws3 ++ value ++ ws4)
             = (key ++ ws2) ++ equals_sign :: tail /\
             strip tail = value).
  { destruct value as [|v0 value'] eqn:Ev.
    - exists []. split; [|reflexivity].
      replace (ws1 ++ key ++ ws2 ++ [equals_sign] ++ ws3 ++ [] ++ ws4)
        with (ws1 ++ ((key ++ ws2) ++ [equals_sign]) ++ (ws3 ++ ws4))
        by (repeat (rewrite <- app_assoc || cbn [app]); reflexivity).
      apply strip_core;
        [assumption | rewrite forallb_app, H3, H4; reflexivity|].
      apply andb_true_iff; split.
      + rewrite <- app_assoc, head_ok_app by assumption. exact Hkh.
      + rewrite rev_app_distr. reflexivity.
    - rewrite <- Ev in *.
      assert (Hvnil : value <> []) by (rewrite Ev; discriminate).
      exists (ws3 ++ value). split.
      + replace (ws1 ++ key ++ ws2 ++ [equals_sign] ++ ws3 ++ value ++ ws4)
          with (ws1 ++ ((key ++ ws2) ++ equals_sign :: ws3 ++ value) ++ ws4)
          by (repeat (rewrite <- app_assoc || cbn [app]); reflexivity).
        apply strip_core; [assumption | assumption|].
        apply andb_true_iff in Hv as [_ Hvl].
        apply andb_true_iff; split.
        * rewrite <- app_assoc, head_ok_app by assumption. exact Hkh.
        * replace ((key ++ ws2) ++ equals_sign :: ws3 ++ value)
            with (((key ++ ws2) ++ equals_sign :: ws3) ++ value)
            by (repeat (rewrite <- app_assoc || cbn [app]); reflexivity).
          rewrite rev_app_distr, head_ok_app; [exact Hvl|].
          intros Hr. apply Hvnil. rewrite <- (rev_involutive value), Hr.
          reflexivity.
      + rewrite <- (app_nil_r value) at 1.
        apply strip_core; auto. }
  destruct Hline as (tail & Hstrip & Htail).
  unfold env_assignment. rewrite Hstrip.
  assert (Ehead : (key ++ ws2) ++ equals_sign :: tail
                  = k0 :: (key' ++ ws2) ++ equals_sign :: tail)
    by (rewrite Ekey; reflexivity).
  rewrite Ehead at 1. rewrite Hh.
  replace (existsb (fun x => (x =? equals_sign)%N)
             ((key ++ ws2) ++ equals_sign :: tail)) with true.
  2:{ symmetry. apply existsb_exists. exists equals_sign; split;
        [apply in_elt | reflexivity]. }
  rewrite take_while_app_all, drop_while_app_all by assumption.
  cbn [take_while drop_while tl].
  replace (negb (equals_sign =? equals_sign)%N) with false by reflexivity.
  cbn [tl]. rewrite app_nil_r, Htail.
  change (key ++ ws2) with ([] ++ key ++ ws2).
  rewrite strip_core; [reflexivity | reflexivity | assumption | exact Hkt].
Qed.

Lemma env_assignment_reads_witness :
  env_assignment (str_of "  KAKAO_COOKIE =  'a=b; c'   ")
  = Some (str_of "KAKAO_COOKIE", str_of "a=b; c").
Proof.
  destruct (env_assignment_reads (str_of "KAKAO_COOKIE")
              (str_of "'a=b; c'") (str_of "  ") (str_of " ") (str_of "  ")
              (str_of "   ") eq_refl eq_refl eq_refl eq_refl eq_refl eq_refl)
    as [H _].
  exact H.
Defined.

(** ** Loading the file *)

Lemma load_env_lines_keeps (lines : list str) :
  forall (environ : dict str) (k v : str),
  dict_get k environ = Some v -> v <> [] ->
  dict_get k (load_env_lines lines environ) = Some v.
Proof.
  induction lines as [|raw rest IH]; intros environ k v Hg Hv; [exact Hg|].
  simpl. destruct (env_assignment raw) as [[key value]|]; [|auto].
  destruct key as [|k0 key]; [auto|].
  destruct (unset_or_empty environ (k0 :: key)) eqn:Eu; [|auto].
  destruct (has_null (k0 :: key) || has_null value); [exact Hg|].
  apply IH; [|exact Hv]. rewrite dict_get_set.
  destruct (str_eqb k (k0 :: key)) eqn:E; [|exact Hg].
  apply str_eqb_eq in E; subst k. unfold unset_or_empty in Eu.
  rewrite Hg in Eu. destruct v; [tauto | discriminate].
Qed.

Lemma load_env_lines_present (lines : list str) :
  forall (environ : dict str) (k : str),
  dict_get k environ <> None ->
  dict_get k (load_env_lines lines environ) <> None.
Proof.
  induction lines as [|raw rest IH]; intros environ k Hg; [exact Hg|].
  simpl. destruct (env_assignment raw) as [[key value]|]; [|auto].
  destruct key as [|k0 key]; [auto|].
  destruct (unset_or_empty environ (k0 :: key)); [|auto].
  destruct (has_null (k0 :: key) || has_null value); [exact Hg|].
  apply IH. rewrite dict_get_set.
  destruct (str_eqb k (k0 :: key)); [discriminate | exact Hg].
Qed.

(** X19.  The environment file never overrides the process environment:
    a variable that is set to a non-empty value before the file is loaded
    has the same value afterwards, whatever the file says; and no variable
    is ever removed.  Only variables that are unset or empty can change. *)
Theorem env_file_never_overrides (lines : list str) (environ : dict str) :
  (forall k v : str,
      dict_get k environ = Some v -> v <> [] ->
      dict_get k (load_env_lines lines environ) = Some v) /\
  (forall k : str,
      dict_get k environ <> None ->
      dict_get k (load_env_lines lines environ) <> None) /\
  (forall k,
      dict_get k (load_env_lines lines environ) <> dict_get k environ ->
      unset_or_empty environ k = true).
Proof.
  split; [apply load_env_lines_keeps|].
  split; [apply load_env_lines_present|].
  intros k Hk. unfold unset_or_empty.
  destruct (dict_get k environ) as [[|c v]|] eqn:E; try reflexivity.
  exfalso; apply Hk. apply load_env_lines_keeps; [exact E | discriminate].
Qed.

Lemma env_file_never_overrides_witness :
  dict_get (str_of "KAKAO_COOKIE")
    (load_env_lines [str_of "KAKAO_COOKIE=from-file"; str_of "OTHER=1"]
       [(str_of "KAKAO_COOKIE", str_of "from-shell")])
  = Some (str_of "from-shell").
Proof.
  apply (proj1 (env_file_never_overrides
                  [str_of "KAKAO_COOKIE=from-file"; str_of "OTHER=1"]
                  [(str_of "KAKAO_COOKIE", str_of "from-shell")])).
  - reflexivity.
  - discriminate.
Defined.

Lemma has_null_false (s : str) :
  ~ In null_char s -> has_null s = false.
Proof.
  intros H. unfold has_null.
  destruct (existsb (fun c => (c =? null_char)%N) s) eqn:E; [|reflexivity].
  apply existsb_exists in E as (c & Hc & Ec). apply N.eqb_eq in Ec; subst.
  tauto.
Qed.

(** X20.  Within the file the first assignment of a name wins: if the
    name is unset or empty before, no earlier line assigns it, and no line
    up to there holds a null character, then after the loading the name
    has the non-empty value of that line, whatever later lines assign. *)
Theorem first_assignment_wins (pre post : list str) (line key value : str)
  (environ : dict str)
  (Hnull : Forall (fun l => ~ In null_char l) (pre ++ [line]))
  (Hunset : unset_or_empty environ key = true)
  (Hassign : env_assignment line = Some (key, value))
  (Hkey : key <> []) (Hvalue : value <> [])
  (Hfirst : forall l k v,
      In l pre -> env_assignment l = Some (k, v) -> k <> key) :
  dict_get key (load_env_lines (pre ++ line :: post) environ) = Some value.
Proof.
  revert environ Hunset.
  induction pre as [|raw pre IH]; intros environ Hunset.
  - simpl. rewrite Hassign. destruct key as [|k0 key]; [tauto|].
    rewrite Hunset.
    apply Forall_app in Hnull as [_ Hl]. inversion Hl as [|? ? Hline _]; subst.
    rewrite !has_null_false.
    + simpl. apply load_env_lines_keeps; [|exact Hvalue].
      rewrite dict_get_set, str_eqb_refl; reflexivity.
    + intros Hin. apply Hline.
      apply (env_assignment_chars line (k0 :: key) value Hassign); auto.
    + intros Hin. apply Hline.
      apply (env_assignment_chars line (k0 :: key) value Hassign); auto.
  - simpl in Hnull. apply Forall_cons_iff in Hnull as [Hraw Hnull].
    assert (Hfirst' : forall l k v,
               In l pre -> env_assignment l = Some (k, v) -> k <> key).
    { intros l k v Hl; apply Hfirst; right; exact Hl. }
    simpl. destruct (env_assignment raw) as [[k v]|] eqn:Er; [|auto].
    destruct k as [|k0 k]; [auto|].
    destruct (unset_or_empty environ (k0 :: k)); [|auto].
    rewrite !has_null_false.
    + simpl. apply IH; auto.
      unfold unset_or_empty in *. rewrite dict_get_set.
      destruct (str_eqb key (k0 :: k)) eqn:E; [|exact Hunset].
      apply str_eqb_eq in E. exfalso.
      apply (Hfirst raw (k0 :: k) v (or_introl eq_refl) Er). auto.
    + intros Hin. apply Hraw.
      apply (env_assignment_chars raw (k0 :: k) v Er); auto.
    + intros Hin. apply Hraw.
      apply (env_assignment_chars raw (k0 :: k) v Er); auto.
Qed.

Lemma first_assignment_wins_witness :
  dict_get (str_of "KAKAO_API_URL_DEV")
    (load_env_lines
       ([str_of "# urls"; str_of "KAKAO_COOKIE_DEV=abc"]
        ++ str_of "KAKAO_API_URL_DEV=https://one"
        :: [str_of "KAKAO_API_URL_DEV=https://two"])
       [])
  = Some (str_of "https://one").
Proof.
  apply first_assignment_wins.
  - repeat constructor; vm_compute;
      intros H; repeat (destruct H as [H | H]; [discriminate|]); exact H.
  - reflexivity.
  - vm_compute; reflexivity.
  - discriminate.
  - discriminate.
  - intros l k v Hl Ha.
    repeat (destruct Hl as [Hl | Hl];
            [subst l; vm_compute in Ha; inversion Ha; discriminate|]).
    destruct Hl.
Defined.

(** * The environments held by [main] *)

Lemma dict_set_in (V : Type) (k : str) (v : V) (d : dict V) (x : str * V) :
  In x (dict_set k v d) -> x = (k, v) \/ In x d.
Proof.
  induction d as [|[k0 v0] d IH]; simpl; [intuition|].
  destruct (str_eqb k k0); simpl; intuition.
Qed.

Lemma load_if_missing_ok (fetch : str -> snapshot) (e : str)
  (envs : dict snapshot) :
  In e environments -> loaded_ok envs ->
  loaded_ok (load_if_missing fetch e envs).
Proof.
  intros He (Hn & Hk & Hv). unfold load_if_missing.
  destruct (dict_get e envs); [repeat split; assumption|].
  destruct (truthy (fetch e)) eqn:Et; [|repeat split; assumption].
  split; [apply dict_set_nodup; exact Hn|]. split.
  - intros k Hin. apply in_map_iff in Hin as ([k' s] & <- & Hin).
    apply dict_set_in in Hin as [Hin | Hin].
    + inversion Hin; subst; exact He.
    + apply Hk. apply in_map_iff; exists (k', s); auto.
  - intros k s Hin. apply dict_set_in in Hin as [Hin | Hin].
    + inversion Hin; subst; exact Et.
    + eapply Hv; exact Hin.
Qed.

Lemma load_if_missing_cached (fetch : str -> snapshot) (e k : str)
  (envs : dict snapshot) (s : snapshot) :
  dict_get k envs = Some s ->
  dict_get k (load_if_missing fetch e envs) = Some s.
Proof.
  intros Hg. unfold load_if_missing.
  destruct (dict_get e envs) eqn:Ee; [exact Hg|].
  destruct (truthy (fetch e)); [|exact Hg].
  rewrite dict_get_set. destruct (str_eqb k e) eqn:E; [|exact Hg].
  apply str_eqb_eq in E; subst. congruence.
Qed.

Lemma run_command_ok (fetch : str -> snapshot) (c : command)
  (envs : dict snapshot) :
  command_ok c -> loaded_ok envs -> loaded_ok (run_command fetch c envs).
Proof.
  intros Hc Hok. destruct c; simpl; try exact Hok;
    try (apply load_if_missing_ok; [exact Hc | exact Hok]);
    repeat (apply load_if_missing_ok; [simpl; tauto|]); exact Hok.
Qed.

Lemma run_command_cached (fetch : str -> snapshot) (c : command) (k : str)
  (envs : dict snapshot) (s : snapshot) :
  dict_get k envs = Some s ->
  dict_get k (run_command fetch c envs) = Some s.
Proof.
  intros Hg. destruct c; simpl; try exact Hg;
    repeat apply load_if_missing_cached; exact Hg.
Qed.

(** X21.  Whatever the user enters and whatever the network answers,
    [env_scenarios] only ever holds the environments dev, prod and stg,
    each at most once, and each with a non-empty list of scenarios: an
    environment whose loading failed or returned nothing is left out, not
    stored as empty. *)
Theorem main_holds_loaded_environments (fetch0 : str -> snapshot)
  (session : list (command * (str -> snapshot)))
  (Hcommands : Forall (fun step => command_ok (fst step)) session) :
  NoDup (dict_keys (run_session fetch0 session)) /\
  (forall e, In e (dict_keys (run_session fetch0 session)) ->
             In e environments) /\
  (forall e s, In (e, s) (run_session fetch0 session) -> truthy s = true).
Proof.
  unfold run_session.
  assert (H0 : loaded_ok (startup fetch0)).
  { apply load_if_missing_ok; [simpl; tauto|].
    split; [constructor|]. split; [intros ? [] | intros ? ? []]. }
  revert H0. generalize (startup fetch0) as envs.
  induction session as [|[c f] session IH]; intros envs Hok; [exact Hok|].
  apply Forall_cons_iff in Hcommands as [Hc Hrest].
  simpl. apply IH; [exact Hrest|]. apply run_command_ok; assumption.
Qed.

Lemma main_holds_loaded_environments_witness :
  NoDup
    (dict_keys
       (run_session (fun _ => None)
          [(ShowProd, fun _ => Some [mk_scenario "s" "Login" []]);
           (SearchAll, fun _ => Some []);
           (ValidateIn stg, fun _ => None)])).
Proof.
  apply (main_holds_loaded_environments (fun _ => None)
           [(ShowProd, fun _ => Some [mk_scenario "s" "Login" []]);
            (SearchAll, fun _ => Some []);
            (ValidateIn stg, fun _ => None)]).
  constructor; [exact I|]. constructor; [exact I|].
  constructor; [|constructor]. right; right; left; reflexivity.
Defined.

(** X22.  A snapshot is fetched once: an environment that [env_scenarios]
    holds keeps its snapshot for the rest of the session, whatever is
    entered later and whatever the network would answer then. *)
Theorem loaded_snapshot_is_kept (fetch0 : str -> snapshot)
  (before after : list (command * (str -> snapshot)))
  (e : str) (s : snapshot)
  (Hloaded : dict_get e (run_session fetch0 before) = Some s) :
  dict_get e (run_session fetch0 (before ++ after)) = Some s.
Proof.
  unfold run_session in *. rewrite fold_left_app.
  revert Hloaded.
  generalize (fold_left
                (fun d step => run_command (snd step) (fst step) d)
                before (startup fetch0)) as envs.
  induction after as [|[c f] after IH]; intros envs Hg; [exact Hg|].
  simpl. apply IH. apply run_command_cached; exact Hg.
Qed.

Lemma loaded_snapshot_is_kept_witness :
  dict_get dev
    (run_session (fun _ => Some [mk_scenario "s1" "Old" []])
       ([] ++ [(CompareAll, fun _ => Some [mk_scenario "s2" "New" []])]))
  = Some (Some [mk_scenario "s1" "Old" []]).
Proof.
  apply loaded_snapshot_is_kept. vm_compute; reflexivity.
Defined.

(** * The comparison of the environments *)

Lemma dict_set_keys_in (V : Type) (k : str) (v : V) (d : dict V) (q : str) :
  In q (dict_keys (dict_set k v d)) <-> q = k \/ In q (dict_keys d).
Proof.
  induction d as [|[k0 v0] d IH]; simpl; [intuition|].
  destruct (str_eqb k k0) eqn:E; simpl.
  - apply str_eqb_eq in E; subst. intuition.
  - rewrite IH. intuition.
Qed.

Lemma fold_set_keys (A V : Type) (key : A -> str) (val : A -> V)
  (l : list A) : forall (d : dict V) (q : str),
  In q (dict_keys (fold_left (fun d x => dict_set (key x) (val x) d) l d))
  <-> (exists x, In x l /\ key x = q) \/ In q (dict_keys d).
Proof.
  induction l as [|x l IH]; intros d q; simpl.
  - split; [auto | intros [(x & [] & _) | H]; exact H].
  - rewrite IH, dict_set_keys_in. split.
    + intros [(y & Hy & E) | [-> | H]]; eauto.
    + intros [(y & [-> | Hy] & E) | H]; eauto.
Qed.

Lemma fold_set_nodup (A V : Type) (key : A -> str) (val : A -> V)
  (l : list A) : forall d : dict V,
  NoDup (dict_keys d) ->
  NoDup (dict_keys (fold_left (fun d x => dict_set (key x) (val x) d) l d)).
Proof.
  induction l as [|x l IH]; intros d Hn; [exact Hn|].
  simpl. apply IH, dict_set_nodup, Hn.
Qed.

Lemma fold_set_get (A V : Type) (key : A -> str) (val : A -> V)
  (l : list A) (q : str) : forall d : dict V,
  dict_get q (fold_left (fun d x => dict_set (key x) (val x) d) l d)
  = match find (fun x => str_eqb (key x) q) (rev l) with
    | Some x => Some (val x)
    | None => dict_get q d
    end.
Proof.
  induction l as [|x l IH] using rev_ind; intros d; [reflexivity|].
  rewrite fold_left_app, rev_app_distr; simpl.
  rewrite dict_get_set, (str_eqb_sym q).
  destruct (str_eqb (key x) q); [reflexivity | apply IH].
Qed.

Lemma scenarios_by_name_get (s : snapshot) (name : str) :
  dict_get name (scenarios_by_name s) = last_named s name.
Proof.
  unfold scenarios_by_name, last_named. destruct (truthy s); [|reflexivity].
  rewrite (fold_set_get scenario scenario scen_name (fun sc => sc)).
  destruct (find _ _); reflexivity.
Qed.

Lemma scenarios_by_name_keys (s : snapshot) (name : str) :
  In name (dict_keys (scenarios_by_name s)) <->
  truthy s = true /\
  exists sc, In sc (scenarios_of s) /\ scen_name sc = name.
Proof.
  unfold scenarios_by_name. destruct (truthy s).
  - rewrite (fold_set_keys scenario scenario scen_name (fun sc => sc)).
    simpl. split; [intros [H | []]; auto | intros [_ H]; auto].
  - simpl. split; [tauto | intros [H _]; discriminate].
Qed.

Lemma compare_index_map (env_data : dict snapshot) :
  NoDup (dict_keys env_data) ->
  compare_index env_data
  = map (fun e => (fst e, scenarios_by_name (snd e))) env_data.
Proof.
  intros Hn. unfold compare_index.
  rewrite fold_dict_map with (g := fun e => scenarios_by_name (snd e)); auto.
Qed.

Lemma scenario_name_set_spec (index : dict (dict scenario)) :
  forall names : dict unit,
    NoDup (dict_keys names) ->
    let result :=
      fold_left
        (fun names (e : str * dict scenario) =>
           fold_left (fun ns k => dict_set k tt ns) (dict_keys (snd e)) names)
        index names in
    NoDup (dict_keys result) /\
    forall q, In q (dict_keys result) <->
              (exists e, In e index /\ In q (dict_keys (snd e)))
              \/ In q (dict_keys names).
Proof.
  induction index as [|e index IH]; intros names Hn; simpl.
  - split; [exact Hn|]. intros q.
    split; [auto | intros [(e & [] & _) | H]; exact H].
  - destruct (IH (fold_left (fun ns k => dict_set k tt ns)
                            (dict_keys (snd e)) names)) as [H1 H2].
    { apply (fold_set_nodup str unit (fun k => k) (fun _ => tt)); exact Hn. }
    split; [exact H1|]. intros q. rewrite H2.
    rewrite (fold_set_keys str unit (fun k => k) (fun _ => tt)). split.
    + intros [(e' & He' & Hq) | [(k & Hk & <-) | H]]; eauto.
    + intros [(e' & [<- | He'] & Hq) | H]; eauto.
Qed.

Lemma rows_sorted_map (V W : Type) (g : str * V -> W)
  (rows : list (str * V)) :
  rows_sorted rows -> rows_sorted (map (fun x => (fst x, g x)) rows).
Proof.
  unfold rows_sorted; induction rows as [|x rows IH]; simpl; intros Hs;
    [constructor|].
  inversion Hs as [|? ? Hs' Hall]; subst. constructor; [auto|].
  rewrite Forall_forall in *. intros y Hy.
  apply in_map_iff in Hy as (z & <- & Hz). simpl. auto.
Qed.

(** X23.  The comparison table has one row per scenario name that occurs
    in some environment, in strictly growing order of the names, and in
    every row one cell for each of dev, prod and stg, in this order.  The
    cell of an environment shows the id and the number of blocks of the
    LAST scenario of that name in its snapshot, and is empty when the
    environment has no scenario of that name or is not loaded. *)
Theorem compare_environments_table (env_data : dict snapshot)
  (Hn : NoDup (dict_keys env_data)) :
  rows_sorted (compare_environments env_data) /\
  (forall name,
      In name (map fst (compare_environments env_data)) <->
      exists e s sc,
        In (e, s) env_data /\ truthy s = true /\
        In sc (scenarios_of s) /\ scen_name sc = name) /\
  (forall name cells,
      In (name, cells) (compare_environments env_data) ->
      map fst cells = environments /\
      (forall e s,
          In (e, s) env_data -> In e environments ->
          In (e, option_map (fun sc => (scen_id sc, length (scen_items sc)))
                            (last_named s name))
             cells) /\
      (forall e,
          In e environments -> ~ In e (dict_keys env_data) ->
          In (e, None) cells)).
Proof.
  unfold compare_environments, all_scenario_names.
  rewrite map_map.
  pose proof (scenario_name_set_spec (compare_index env_data) []
                (NoDup_nil _)) as Hset.
  cbv zeta in Hset. fold (scenario_name_set (compare_index env_data)) in Hset.
  destruct Hset as [Hnd Hkeys].
  split; [|split].
  - apply (rows_sorted_map unit _
             (fun x => map (fun env_name =>
                              (env_name,
                               compare_cell (compare_index env_data)
                                            (fst x) env_name))
                           environments)).
    apply sorted_items_sorted; exact Hnd.
  - intros name. rewrite map_map; simpl.
    assert (Hin : In name (map fst (sorted_items
                     (scenario_name_set (compare_index env_data))))
                  <-> In name (dict_keys
                     (scenario_name_set (compare_index env_data)))).
    { unfold dict_keys. rewrite !in_map_iff. split.
      - intros (x & E & Hx). exists x; split; [exact E|].
        apply sorted_items_in; exact Hx.
      - intros (x & E & Hx). exists x; split; [exact E|].
        apply sorted_items_in; exact Hx. }
    rewrite Hin, Hkeys, compare_index_map by assumption. simpl. split.
    + intros [([e d] & He & Hq) | []]. simpl in Hq.
      apply in_map_iff in He as ([e' s] & E & Hes).
      simpl in E; inversion E; subst e d.
      apply scenarios_by_name_keys in Hq as (Ht & sc & Hsc & Hname).
      exists e', s, sc; auto.
    + intros (e & s & sc & Hes & Ht & Hsc & Hname). left.
      exists (e, scenarios_by_name s). split.
      * apply in_map_iff. exists (e, s); auto.
      * simpl. apply scenarios_by_name_keys. eauto.
  - intros name cells Hrow.
    apply in_map_iff in Hrow as (x & E & _).
    pose proof (f_equal fst E) as E1. pose proof (f_equal snd E) as E2.
    cbn [fst snd] in E1, E2. subst name cells. clear E.
    split; [reflexivity|]. split.
    + intros e s Hes He. apply in_map_iff. exists e; split; [|exact He].
      f_equal. unfold compare_cell.
      rewrite compare_index_map by assumption.
      pose proof (dict_get_map _ _ (fun x => scenarios_by_name (snd x))
                    env_data (e, s) Hn Hes) as Hg.
      cbn [fst snd] in Hg. rewrite Hg, scenarios_by_name_get.
      destruct (last_named s (fst x)); reflexivity.
    + intros e He Hout. apply in_map_iff. exists e; split; [|exact He].
      f_equal. unfold compare_cell.
      destruct (dict_get e (compare_index env_data)) eqn:Eg; [|reflexivity].
      exfalso; apply Hout. apply dict_get_in_keys in Eg.
      rewrite compare_index_map in Eg by assumption.
      rewrite dict_keys_map in Eg. exact Eg.
Qed.

Lemma compare_environments_table_witness :
  rows_sorted (compare_environments promoted_envs) /\
  map fst (compare_environments promoted_envs) = [str_of "Login"].
Proof.
  split; [|vm_compute; reflexivity].
  apply compare_environments_table. distinct_keys.
Defined.

(** * Sample runs of the further properties *)

Lemma search_blocks_matches_witness :
  search_blocks ascii_lower duplicate_ids (str_of "") = [] /\
  search_blocks ascii_lower duplicate_ids (str_of "IR")
  = map info_of
        (filter (name_matches ascii_lower (str_of "IR"))
                (all_items duplicate_ids)).
Proof.
  destruct (search_blocks_matches ascii_lower duplicate_ids (str_of ""))
    as (Hempty & _).
  destruct (search_blocks_matches ascii_lower duplicate_ids (str_of "IR"))
    as (_ & Hflat & _).
  split; [apply Hempty; reflexivity | apply Hflat; discriminate].
Defined.

Lemma search_blocks_by_id_sound_complete_witness :
  exists sc it,
    In sc duplicate_ids /\ In it (scen_items sc) /\
    item_id it = str_of "bbb" /\
    mk_block "s1" "Login" "bbb" "middle" None = info_of (sc, it).
Proof.
  apply (proj2 (search_blocks_by_id_sound_complete duplicate_ids
                  (str_of "bbb"))).
  vm_compute; reflexivity.
Defined.

Lemma grouped_rows_sorted_and_real_witness :
  rows_sorted (display_search_results_multi_env welcome_results) /\
  map fst (display_search_results_multi_env welcome_results)
  = [str_of "Login::welcome"; str_of "Login::welcome back"].
Proof.
  split; [|vm_compute; reflexivity].
  exact (proj1 (grouped_rows_sorted_and_real welcome_results)).
Defined.
